(** * Product categorizer: a shallow embedding of [categorize.py]

    The Python program keeps its trees as linked node objects that are
    mutated in place and compared by identity.  The embedding therefore
    works over an explicit object store: every [_Node] and every
    [LinkedTree] object lives at an address, a [Position] is the pair of
    addresses it holds, and the methods are written in three small monads
    that follow what the code does with the store:

    - [R]: methods that only read the store and may raise;
    - [M]: methods that may also mutate the store;
    - [G]: generators, which in addition yield lines one at a time.

    Recursion that Python leaves unbounded (the recursive [depth], the
    traversals, the [while] loop of [get_path_to_root]) takes a fuel
    argument; running out of fuel is a separate outcome, never a result.
    The interpreter's recursion limit is not modelled. *)

From Stdlib Require Import Ascii Lia.
From stdpp Require Import base list strings.

(** ** Strings: the part of [str] that the program uses *)

Module PyStr.

(** A character of a label is a Unicode code point below 256, written as
    the 8-bit character with that number; these are the code points, not the
    bytes of an encoding.  [isspace] is [str.isspace] on that range, the
    characters that [str.strip()] removes: TAB, LF, VT, FF, CR (9 to 13),
    the separators FS, GS, RS, US (28 to 31), the blank (32), NEL (133,
    U+0085) and the no-break space (160, U+00A0).  The white space that
    Unicode has from U+1680 on cannot be written in a label of this
    model. *)
Definition isspace (c : ascii) : bool :=
  let n := Ascii.nat_of_ascii c in
  (Nat.leb 9 n && Nat.leb n 13) || (Nat.leb 28 n && Nat.leb n 32)
  || Nat.eqb n 133 || Nat.eqb n 160.

Fixpoint lstrip (s : string) : string :=
  match s with
  | EmptyString => EmptyString
  | String c s' => if isspace c then lstrip s' else s
  end.

Fixpoint rstrip (s : string) : string :=
  match s with
  | EmptyString => EmptyString
  | String c s' =>
      match rstrip s' with
      | EmptyString => if isspace c then EmptyString else String c EmptyString
      | r => String c r
      end
  end.

(** [s.strip()] *)
Definition strip (s : string) : string := rstrip (lstrip s).

(** [s.split(',')]: never empty, [''.split(',') == ['']]. *)
Fixpoint split_comma (s : string) : list string :=
  match s with
  | EmptyString => [EmptyString]
  | String c s' =>
      if Ascii.eqb c ","%char then EmptyString :: split_comma s'
      else match split_comma s' with
           | x :: xs => String c x :: xs
           | [] => [String c EmptyString]
           end
  end.

(** [n * '\t'] *)
Fixpoint tabs (n : nat) : string :=
  match n with
  | O => EmptyString
  | S k => String (Ascii.ascii_of_nat 9) (tabs k)
  end.

Definition newline : string := String (Ascii.ascii_of_nat 10) EmptyString.

End PyStr.

(** ** The object store *)

(** Addresses are indices into the store. *)
Abbreviation addr := nat.

(** [LinkedTree._Node], with its three slots.  [_children] is [None] until
    the first child is about to be added. *)
Record _Node := mk_Node {
  _element : string;
  _parent : option addr;
  _children : option (list addr)
}.

(** The two attributes of a [LinkedTree] object.  [_size] starts at 0 and is
    only ever set to 1 or incremented, so it is a natural number. *)
Record LinkedTree := mk_Tree {
  _root : option addr;
  _size : nat
}.

(** Objects are allocated at the next free address and never freed. *)
Record heap := mk_heap {
  nodes : list _Node;
  trees : list LinkedTree
}.

Definition empty_heap : heap := mk_heap [] [].

(** The Python values that flow through the program where a position is
    expected: [None], [True]/[False], a string, or a [Position] object,
    which holds its [_container] and its [_node]. *)
Inductive pyobj :=
| VNone
| VBool (b : bool)
| VStr (s : string)
| VPos (container : addr) (node : addr).

Inductive exn :=
| TypeError (msg : string)
| ValueError (msg : string).

(** How a call ends.  [Stuck] is a reference to an address that holds no
    object, which Python rules out; [OutOfFuel] is the bound of the model
    on recursion and loops. *)
Inductive outcome (A : Type) :=
| Ret (a : A)
| Raise (e : exn)
| Stuck
| OutOfFuel.
Arguments Ret {A} a.
Arguments Raise {A} e.
Arguments Stuck {A}.
Arguments OutOfFuel {A}.

(** The errors raised by [_validate], which the specification groups under
    the name InvalidPosition, and the one raised by [_add_root]. *)
Definition not_a_position : exn := TypeError "p must be proper Position type".
Definition foreign_position : exn := ValueError "p does not belong to this container".
Definition stale_position : exn := ValueError "p is no longer valid".
Definition root_exists : exn := ValueError "Root exists".

Definition InvalidPosition (e : exn) : Prop :=
  e = not_a_position \/ e = foreign_position \/ e = stale_position.

Definition AlreadyHasRoot (e : exn) : Prop := e = root_exists.

(** ** Monads *)

Definition R (A : Type) : Type := heap -> outcome A.
Definition M (A : Type) : Type := heap -> outcome A * heap.
Definition G (A : Type) : Type := heap -> list string * outcome A.

#[global] Instance R_ret : MRet R := fun A a _ => Ret a.
#[global] Instance R_bind : MBind R := fun A B k c h =>
  match c h with
  | Ret a => k a h
  | Raise e => Raise e
  | Stuck => Stuck
  | OutOfFuel => OutOfFuel
  end.

#[global] Instance M_ret : MRet M := fun A a h => (Ret a, h).
#[global] Instance M_bind : MBind M := fun A B k c h =>
  match c h with
  | (Ret a, h') => k a h'
  | (Raise e, h') => (Raise e, h')
  | (Stuck, h') => (Stuck, h')
  | (OutOfFuel, h') => (OutOfFuel, h')
  end.

(** A generator run to its end: the lines it yielded, then how it stopped. *)
#[global] Instance G_ret : MRet G := fun A a _ => ([], Ret a).
#[global] Instance G_bind : MBind G := fun A B k c h =>
  match c h with
  | (out, Ret a) => let '(out', o) := k a h in (out ++ out', o)
  | (out, Raise e) => (out, Raise e)
  | (out, Stuck) => (out, Stuck)
  | (out, OutOfFuel) => (out, OutOfFuel)
  end.

Definition raiseR {A} (e : exn) : R A := fun _ => Raise e.
Definition raiseM {A} (e : exn) : M A := fun h => (Raise e, h).

(** A read inside a mutating method, and inside a generator. *)
Definition readM {A} (c : R A) : M A := fun h => (c h, h).
Definition readG {A} (c : R A) : G A := fun h => ([], c h).
Definition yield (s : string) : G unit := fun _ => ([s], Ret tt).

Definition node_at (n : addr) : R _Node := fun h =>
  match nodes h !! n with
  | Some nd => Ret nd
  | None => Stuck
  end.

Definition tree_at (t : addr) : R LinkedTree := fun h =>
  match trees h !! t with
  | Some tr => Ret tr
  | None => Stuck
  end.

Definition alloc_node (nd : _Node) : M addr := fun h =>
  (Ret (length (nodes h)), mk_heap (nodes h ++ [nd]) (trees h)).

Definition alloc_tree (tr : LinkedTree) : M addr := fun h =>
  (Ret (length (trees h)), mk_heap (nodes h) (trees h ++ [tr])).

Definition store_node (n : addr) (nd : _Node) : M unit := fun h =>
  (Ret tt, mk_heap (<[n := nd]> (nodes h)) (trees h)).

Definition store_tree (t : addr) (tr : LinkedTree) : M unit := fun h =>
  (Ret tt, mk_heap (nodes h) (<[t := tr]> (trees h))).

(** [for x in xs: body], for a body that reads. *)
Fixpoint mapR {A B} (f : A -> R B) (xs : list A) : R (list B) :=
  match xs with
  | [] => mret []
  | x :: xs' => y ← f x; ys ← mapR f xs'; mret (y :: ys)
  end.

(** [for x in xs: yield from body(x)] *)
Fixpoint forG {A} (f : A -> G unit) (xs : list A) : G unit :=
  match xs with
  | [] => mret tt
  | x :: xs' => f x;; forG f xs'
  end.

(** ** class Tree and class LinkedTree *)

Module LinkedTree.

(** [Position.__eq__] behind [a == b]; [None == p] holds for [None] only
    (the reflected [Position.__eq__] answers [False]). *)
Definition py_eq (a b : pyobj) : bool :=
  match a, b with
  | VPos _ n, VPos _ n' => Nat.eqb n n'
  | VNone, VNone => true
  | VBool x, VBool y => Bool.eqb x y
  | VStr x, VStr y => String.eqb x y
  | _, _ => false
  end.

(** Truth value of an object in [if x:]. *)
Definition truthy (v : pyobj) : bool :=
  match v with
  | VNone => false
  | VBool b => b
  | VStr s => negb (String.eqb s "")
  | VPos _ _ => true
  end.

Definition _validate (self : addr) (p : pyobj) : R addr :=
  match p with
  | VPos container node =>
      if negb (Nat.eqb container self) then raiseR foreign_position
      else
        nd ← node_at node;
        match _parent nd with
        | Some q => if Nat.eqb q node then raiseR stale_position else mret node
        | None => mret node
        end
  | _ => raiseR not_a_position
  end.

Definition _make_position (self : addr) (node : option addr) : pyobj :=
  match node with
  | Some n => VPos self n
  | None => VNone
  end.

(** [LinkedTree()] *)
Definition __init__ : M addr := alloc_tree (mk_Tree None 0).

Definition __len__ (self : addr) : R nat :=
  t ← tree_at self; mret (_size t).

Definition root (self : addr) : R pyobj :=
  t ← tree_at self; mret (_make_position self (_root t)).

Definition parent (self : addr) (p : pyobj) : R pyobj :=
  node ← _validate self p;
  nd ← node_at node;
  mret (_make_position self (_parent nd)).

Definition num_children (self : addr) (p : pyobj) : R nat :=
  node ← _validate self p;
  nd ← node_at node;
  match _children nd with
  | None => mret 0
  | Some cs => mret (length cs)
  end.

(** [children] is a generator; this is the sequence obtained by iterating
    it, so a failed validation shows at the first step of the iteration. *)
Definition children (self : addr) (p : pyobj) : R (list pyobj) :=
  node ← _validate self p;
  nd ← node_at node;
  match _children nd with
  | None => mret []
  | Some cs => mret (map (fun c => _make_position self (Some c)) cs)
  end.

Definition is_root (self : addr) (p : pyobj) : R bool :=
  r ← root self; mret (py_eq r p).

Definition is_leaf (self : addr) (p : pyobj) : R bool :=
  n ← num_children self p; mret (Nat.eqb n 0).

Definition is_empty (self : addr) : R bool :=
  n ← __len__ self; mret (Nat.eqb n 0).

Fixpoint depth (fuel : nat) (self : addr) (p : pyobj) : R nat :=
  match fuel with
  | O => fun _ => OutOfFuel
  | S fuel' =>
      b ← is_root self p;
      if b : bool then mret 0
      else q ← parent self p; d ← depth fuel' self q; mret (1 + d)
  end.

(** [max] of a generator; it raises on an empty one. *)
Definition py_max (xs : list nat) : R nat :=
  match xs with
  | [] => raiseR (ValueError "max() arg is an empty sequence")
  | x :: xs' => mret (foldr Nat.max x xs')
  end.

Fixpoint _height2 (fuel : nat) (self : addr) (p : pyobj) : R nat :=
  match fuel with
  | O => fun _ => OutOfFuel
  | S fuel' =>
      b ← is_leaf self p;
      if b : bool then mret 0
      else
        cs ← children self p;
        hs ← mapR (_height2 fuel' self) cs;
        m ← py_max hs;
        mret (1 + m)
  end.

Definition height (fuel : nat) (self : addr) (p : pyobj) : R nat :=
  match p with
  | VNone => r ← root self; _height2 fuel self r
  | _ => _height2 fuel self p
  end.

(** The loop of [find_child_by_value] over the children already
    produced. *)
Fixpoint find_first (self : addr) (value : string) (cs : list pyobj) : R pyobj :=
  match cs with
  | [] => mret (VBool false)
  | child :: cs' =>
      node ← _validate self child;
      nd ← node_at node;
      if String.eqb (_element nd) value then mret child
      else find_first self value cs'
  end.

Definition find_child_by_value (self : addr) (p : pyobj) (value : string) : R pyobj :=
  cs ← children self p; find_first self value cs.

(** Attribute assignments [self._size = n], [self._root = r] and
    [node._children = cs]. *)
Definition set_size (self : addr) (n : nat) : M unit :=
  t ← readM (tree_at self); store_tree self (mk_Tree (_root t) n).

Definition set_root (self : addr) (r : option addr) : M unit :=
  t ← readM (tree_at self); store_tree self (mk_Tree r (_size t)).

Definition set_children (node : addr) (cs : option (list addr)) : M unit :=
  nd ← readM (node_at node);
  store_node node (mk_Node (_element nd) (_parent nd) cs).

(** [node._children.append(c)] *)
Definition append_child (node : addr) (c : addr) : M unit :=
  nd ← readM (node_at node);
  match _children nd with
  | Some cs => set_children node (Some (cs ++ [c]))
  | None => fun h => (Stuck, h)
  end.

Definition _add_root (self : addr) (e : string) : M pyobj :=
  t ← readM (tree_at self);
  match _root t with
  | Some _ => raiseM root_exists
  | None =>
      set_size self 1;;
      n ← alloc_node (mk_Node e None None);
      set_root self (Some n);;
      t' ← readM (tree_at self);
      mret (_make_position self (_root t'))
  end.

(** The test [node is None] of the source cannot succeed, since [_validate]
    answers the node that the position holds. *)
Definition _add_nonroot_node (self : addr) (p : pyobj) (e : string) : M pyobj :=
  node ← readM (_validate self p);
  nd ← readM (node_at node);
  match _children nd with
  | None => set_children node (Some [])
  | Some _ => mret tt
  end;;
  found ← readM (find_child_by_value self p e);
  if truthy found then mret VNone
  else
    n ← readM (__len__ self);
    set_size self (n + 1);;
    newNode ← alloc_node (mk_Node e (Some node) None);
    append_child node newNode;;
    mret (_make_position self (Some newNode)).

(** [add_node(e, p=None)]; it has no [return], so it answers [None]. *)
Definition add_node (self : addr) (e : string) (p : pyobj) : M pyobj :=
  match p with
  | VNone => _add_root self e;; mret VNone
  | _ => _add_nonroot_node self p e;; mret VNone
  end.

(** The line of a node: [depth(p)*'\t' + element + '\n']. *)
Definition line_of (d : nat) (e : string) : string :=
  (PyStr.tabs d +:+ e +:+ PyStr.newline)%string.

Definition node_line (dfuel : nat) (self : addr) (p : pyobj) : G unit :=
  d ← readG (depth dfuel self p);
  node ← readG (_validate self p);
  nd ← readG (node_at node);
  yield (line_of d (_element nd)).

(** The two traversal generators.  [dfuel] bounds each call of [depth],
    [fuel] the nesting of the traversal itself. *)
Fixpoint _traverse_preorder (dfuel fuel : nat) (self : addr) (p : pyobj) : G unit :=
  match fuel with
  | O => fun _ => ([], OutOfFuel)
  | S fuel' =>
      node_line dfuel self p;;
      cs ← readG (children self p);
      forG (_traverse_preorder dfuel fuel' self) cs
  end.

Fixpoint _traverse_postorder (dfuel fuel : nat) (self : addr) (p : pyobj) : G unit :=
  match fuel with
  | O => fun _ => ([], OutOfFuel)
  | S fuel' =>
      cs ← readG (children self p);
      forG (_traverse_postorder dfuel fuel' self) cs;;
      node_line dfuel self p
  end.

Definition all_nodes (fuel : nat) (self : addr) (mode : string) : G unit :=
  if String.eqb mode "pre" then
    r ← readG (root self); _traverse_preorder fuel fuel self r
  else
    r ← readG (root self); _traverse_postorder fuel fuel self r.

(** The [while] loop of [get_path_to_root]; [acc] is [orderedList]. *)
Fixpoint path_loop (fuel : nat) (self : addr) (p : pyobj) (acc : list pyobj)
  : R (list pyobj) :=
  match fuel with
  | O => fun _ => OutOfFuel
  | S fuel' =>
      b ← is_root self p;
      if b : bool then mret acc
      else q ← parent self p; path_loop fuel' self q (acc ++ [q])
  end.

Definition get_path_to_root (fuel : nat) (self : addr) (p : pyobj) : R (list pyobj) :=
  path_loop fuel self p [p].

End LinkedTree.

(** ** class ProductCategorizer *)

Module ProductCategorizer.
Import LinkedTree.

(** [x is False] *)
Definition is_False (v : pyobj) : bool :=
  match v with
  | VBool false => true
  | _ => false
  end.

(** One round of the inner loop: [node] is one piece of the split line and
    [cursor] is the local variable [parent]; the result is its new value. *)
Definition fill_label (tree : addr) (cursor : pyobj) (node : string) : M pyobj :=
  r ← readM (root tree);
  rn ← readM (_validate tree r);
  rnd ← readM (node_at rn);
  if String.eqb (_element rnd) (PyStr.strip node) then readM (root tree)
  else
    found ← readM (find_child_by_value tree cursor (PyStr.strip node));
    if is_False found then
      add_node tree (PyStr.strip node) cursor;; mret cursor
    else
      r' ← readM (root tree);
      readM (find_child_by_value tree r' (PyStr.strip node)).

Fixpoint fill_labels (tree : addr) (cursor : pyobj) (ns : list string) : M pyobj :=
  match ns with
  | [] => mret cursor
  | node :: ns' => c ← fill_label tree cursor node; fill_labels tree c ns'
  end.

(** One round of the outer loop. *)
Definition fill_line (tree : addr) (cursor : pyobj) (line : string) : M pyobj :=
  b ← readM (is_empty tree);
  if b : bool then add_node tree (PyStr.strip line) VNone;; mret cursor
  else fill_labels tree cursor (PyStr.split_comma line).

Fixpoint fill_lines (tree : addr) (cursor : pyobj) (ls : list string) : M pyobj :=
  match ls with
  | [] => mret cursor
  | line :: ls' => c ← fill_line tree cursor line; fill_lines tree c ls'
  end.

(** [fill_tree] on the lines that [readlines()] returned.  The answer is
    the new [self._tree] together with the last value of [parent]. *)
Definition fill_tree (lines : list string) : M (addr * pyobj) :=
  tree ← __init__;
  cursor ← fill_lines tree VNone lines;
  mret (tree, cursor).

(** The two output files: absent, or the lines written so far. *)
Record files := mk_files {
  pre_txt : option (list string);
  post_txt : option (list string)
}.

(** [print_tree]: [open(.., 'w')] truncates, every yielded line is written
    at once, and an exception leaves what was written and skips the rest. *)
Definition print_tree (fuel : nat) (tree : addr) (fs : files) (h : heap)
  : outcome unit * files :=
  let '(out1, o1) := all_nodes fuel tree "pre" h in
  match o1 with
  | Ret _ =>
      let '(out2, o2) := all_nodes fuel tree "post" h in
      (o2, mk_files (Some out1) (Some out2))
  | _ => (o1, mk_files (Some out1) (post_txt fs))
  end.

End ProductCategorizer.

(** ** Predicates used to state the properties *)

(** The three ways in which an argument is not a position of [self]. *)
Inductive invalid (h : heap) (self : addr) : pyobj -> Prop :=
| invalid_type p :
    (forall c n, p <> VPos c n) -> invalid h self p
| invalid_container c n :
    c <> self -> invalid h self (VPos c n)
| invalid_tombstone n nd :
    nodes h !! n = Some nd -> _parent nd = Some n ->
    invalid h self (VPos self n).

(** The relation between the two counters of a tree: no node counted
    exactly when there is no root. *)
Definition size_root_inv (h : heap) (self : addr) : Prop :=
  exists t, trees h !! self = Some t /\ (_size t = 0 <-> _root t = None).

(** [linked h self n d]: node [n] belongs to tree [self] and sits [d] parent
    links below its root; no node on the way is a tombstone. *)
Inductive linked (h : heap) (self : addr) : addr -> nat -> Prop :=
| linked_root t r nd :
    trees h !! self = Some t -> _root t = Some r ->
    nodes h !! r = Some nd -> _parent nd = None ->
    linked h self r 0
| linked_step t r n nd m d :
    trees h !! self = Some t -> _root t = Some r -> n <> r ->
    nodes h !! n = Some nd -> _parent nd = Some m -> m <> n ->
    linked h self m d ->
    linked h self n (S d).

(** [climbs h self p tl]: starting from [p], every position of [tl] is the
    [parent] of the one before it, and the last one reached is the root. *)
Fixpoint climbs (h : heap) (self : addr) (p : pyobj) (tl : list pyobj) : Prop :=
  match tl with
  | [] => LinkedTree.root self h = Ret p
  | q :: tl' => LinkedTree.parent self p h = Ret q /\ climbs h self q tl'
  end.

Definition kids_of (ocs : option (list addr)) : list addr :=
  match ocs with
  | Some cs => cs
  | None => []
  end.

#[local] Unset Elimination Schemes.

(** The tree that a linked structure stands for: a label and the subtrees
    in insertion order. *)
Inductive rose := Rose (e : string) (kids : list rose).

(** [shape h par n t]: the node at [n] has parent slot [par], carries the
    label of [t], and its children, in order, have the shapes of the
    subtrees of [t]. *)
Inductive shape (h : heap) : option addr -> addr -> rose -> Prop :=
| shape_node par n e ocs ts :
    nodes h !! n = Some (mk_Node e par ocs) ->
    Forall2 (shape h (Some n)) (kids_of ocs) ts ->
    shape h par n (Rose e ts).

#[local] Set Elimination Schemes.

Fixpoint rose_size (t : rose) : nat :=
  match t with
  | Rose _ ts => S (foldr Nat.add 0 (map rose_size ts))
  end.

(** Number of levels of a tree, one more than its height. *)
Fixpoint levels (t : rose) : nat :=
  match t with
  | Rose _ ts => S (foldr Nat.max 0 (map levels ts))
  end.

(** The lines of a depth-first walk that starts at depth [d]. *)
Fixpoint pre_lines (d : nat) (t : rose) : list string :=
  match t with
  | Rose e ts => LinkedTree.line_of d e :: flat_map (pre_lines (S d)) ts
  end.

Fixpoint post_lines (d : nat) (t : rose) : list string :=
  match t with
  | Rose e ts => flat_map (post_lines (S d)) ts ++ [LinkedTree.line_of d e]
  end.

(** Two stores agree when every node of the first is in the second with the
    same label and the same parent slot. *)
Definition agree (h h' : heap) : Prop :=
  forall n nd, nodes h !! n = Some nd ->
    exists nd', nodes h' !! n = Some nd' /\
                _element nd' = _element nd /\ _parent nd' = _parent nd.

(** ** Stores met along the way *)

(** The store after [fill_tree] has created its tree and read one line. *)
Definition after_first_line (h : heap) (line : string) : heap :=
  mk_heap (nodes h ++ [mk_Node (PyStr.strip line) None None])
          (trees h ++ [mk_Tree (Some (length (nodes h))) 1]).

(** The store once [_add_nonroot_node] has made sure that the node [n],
    read as [nd], has a child list. *)
Definition ensure_list (h : heap) (n : addr) (nd : _Node) : heap :=
  match _children nd with
  | None => mk_heap (<[n := mk_Node (_element nd) (_parent nd) (Some [])]> (nodes h))
                    (trees h)
  | Some _ => h
  end.

(** The store once a node labelled [e] has been appended under [n] and
    counted in the tree [self], read as [t]. *)
Definition grown (h : heap) (self : addr) (t : LinkedTree) (n : addr) (nd : _Node)
    (e : string) : heap :=
  mk_heap (<[n := mk_Node (_element nd) (_parent nd)
                    (Some (kids_of (_children nd) ++ [length (nodes h)]))]>
             (nodes h ++ [mk_Node e (Some n) None]))
          (<[self := mk_Tree (_root t) (_size t + 1)]> (trees h)).

(** ** Examples *)

(** One-character strings for the expected outputs. *)
Definition TAB : string := String (Ascii.ascii_of_nat 9) EmptyString.
Definition LF : string := String (Ascii.ascii_of_nat 10) EmptyString.

(** The two white-space characters above 127: NEL (U+0085) and the no-break
    space (U+00A0). *)
Definition NEL : string := String (Ascii.ascii_of_nat 133) EmptyString.
Definition NBSP : string := String (Ascii.ascii_of_nat 160) EmptyString.

(** Two empty trees next to a tombstoned node. *)
Definition heap_tombstone : heap :=
  mk_heap [mk_Node "x" (Some 0) None] [mk_Tree None 0; mk_Tree None 0].

(** A tree before and after its root A is added, and with the child B. *)
Definition heap_no_root : heap := mk_heap [] [mk_Tree None 0].
Definition heap_root_A : heap :=
  mk_heap [mk_Node "A" None None] [mk_Tree (Some 0) 1].
Definition heap_AB : heap :=
  mk_heap [mk_Node "A" None (Some [1]); mk_Node "B" (Some 0) None]
          [mk_Tree (Some 0) 2].

(** The root A with the children B and C, and the calls that build it. *)
Definition heap_ABC : heap :=
  mk_heap [mk_Node "A" None (Some [1; 2]);
           mk_Node "B" (Some 0) None;
           mk_Node "C" (Some 0) None]
          [mk_Tree (Some 0) 3].

Definition build_ABC : M addr :=
  t ← LinkedTree.__init__;
  LinkedTree.add_node t "A" VNone;;
  r ← readM (LinkedTree.root t);
  LinkedTree.add_node t "B" r;;
  r' ← readM (LinkedTree.root t);
  LinkedTree.add_node t "C" r';;
  mret t.

(** A chain A, B, C: each node the only child of the one before. *)
Definition heap_chain : heap :=
  mk_heap [mk_Node "A" None (Some [1]);
           mk_Node "B" (Some 0) (Some [2]);
           mk_Node "C" (Some 1) None]
          [mk_Tree (Some 0) 3].

(** ** Further predicates *)

(** Child lists and parent slots tell the same story: every entry of the
    child list of a node is another node whose parent slot points back. *)
Definition consistent (h : heap) : Prop :=
  forall n nd c, nodes h !! n = Some nd -> c ∈ kids_of (_children nd) ->
    exists ndc, nodes h !! c = Some ndc /\ _parent ndc = Some n /\ c <> n.

(** [keeps P c]: the call [c] leaves a store that satisfies [P] in a store
    that satisfies [P], however it ends. *)
Definition keeps (P : heap -> Prop) {A} (c : M A) : Prop :=
  forall h, P h -> P (snd (c h)).

(** Height of a tree: 0 for a leaf, else one more than the largest height
    among the subtrees. *)
Fixpoint rose_height (t : rose) : nat :=
  match t with
  | Rose _ [] => 0
  | Rose _ ts => S (foldr Nat.max 0 (map rose_height ts))
  end.

(** ** What [fill_tree] keeps true *)

(** A string without comma, and a string from which [strip] removes
    nothing. *)
Fixpoint no_comma (s : string) : bool :=
  match s with
  | EmptyString => true
  | String c s' => negb (Ascii.eqb c ","%char) && no_comma s'
  end.

Definition stripped (s : string) : Prop :=
  PyStr.lstrip s = s /\ PyStr.rstrip s = s.

(** ** What [str.strip()] is documented to do

    Stated without [PyStr.isspace], [PyStr.lstrip] and [PyStr.rstrip], to
    be compared with them.  The white space among the code points below
    256 is the table of [str.isspace]: *)
Definition whitespace_code_points : list nat :=
  [9; 10; 11; 12; 13; 28; 29; 30; 31; 32; 133; 160].

Definition white (c : ascii) : Prop :=
  In (Ascii.nat_of_ascii c) whitespace_code_points.

(** A string of white space only. *)
Fixpoint blank (s : string) : Prop :=
  match s with
  | EmptyString => True
  | String c s' => white c /\ blank s'
  end.

(** A string that neither starts nor ends with white space. *)
Definition trimmed (s : string) : Prop :=
  (forall c s', s = String c s' -> ~ white c) /\
  (forall s' c, s = (s' +:+ String c EmptyString)%string -> ~ white c).

(** [label] is [line] without the white space around it: the line is the
    label between two runs of white space, and the label starts and ends
    with a character that is not white space, or is empty. *)
Definition strips_to (line label : string) : Prop :=
  trimmed label /\
  exists pre post,
    line = (pre +:+ label +:+ post)%string /\ blank pre /\ blank post.

(** [','.join(pieces)] *)
Fixpoint join_comma (pieces : list string) : string :=
  match pieces with
  | [] => EmptyString
  | [x] => x
  | x :: rest => (x +:+ "," +:+ join_comma rest)%string
  end.

(** The label stored at an address, if a node is there. *)
Definition label_at (h : heap) (c : addr) : option string :=
  _element <$> nodes h !! c.

(** [built N0 T rl h]: the tree [T] of the store [h] has been grown by
    [fill_tree] from its root, the node [N0] labelled [rl].  The nodes from
    [N0] on are the nodes of the tree: the size counts them; each of them
    other than the root hangs under the root or under a child of the root;
    child lists and parent slots agree, parents being older than children;
    siblings carry different labels; no label but the root's is [rl], has a
    comma or has white space at an end; and every node but the root is
    listed by its parent. *)
Record built (N0 T : addr) (rl : string) (h : heap) : Prop := mk_built {
  built_tree :
    trees h !! T = Some (mk_Tree (Some N0) (length (nodes h) - N0));
  built_root :
    exists nd, nodes h !! N0 = Some nd /\ _parent nd = None /\ _element nd = rl;
  built_depth :
    forall n nd, N0 < n -> nodes h !! n = Some nd ->
      _parent nd = Some N0 \/
      exists m ndm, _parent nd = Some m /\ N0 < m < n /\
                    nodes h !! m = Some ndm /\ _parent ndm = Some N0;
  built_kids :
    forall n nd c, N0 <= n -> nodes h !! n = Some nd ->
      c ∈ kids_of (_children nd) ->
      n < c /\ exists ndc, nodes h !! c = Some ndc /\ _parent ndc = Some n;
  built_siblings :
    forall n nd, N0 <= n -> nodes h !! n = Some nd ->
      NoDup (map (label_at h) (kids_of (_children nd)));
  built_labels :
    forall n nd, N0 < n -> nodes h !! n = Some nd ->
      _element nd <> rl /\ no_comma (_element nd) = true /\ stripped (_element nd);
  built_cover :
    forall n nd, N0 < n -> nodes h !! n = Some nd ->
      exists m ndm, _parent nd = Some m /\ nodes h !! m = Some ndm /\
                    n ∈ kids_of (_children ndm)
}.

(** The values that the cursor of [fill_tree] can hold: [None], [False],
    the position of the root, or the position of a child of the root. *)
Definition cursor_ok (N0 T : addr) (h : heap) (cursor : pyobj) : Prop :=
  cursor = VNone \/ cursor = VBool false \/ cursor = VPos T N0 \/
  exists c ndc, cursor = VPos T c /\ N0 < c /\
                nodes h !! c = Some ndc /\ _parent ndc = Some N0.

(** What [built] looks at in a node: the label, the parent slot and the
    entries of the child list. *)
Definition view (nd : _Node) : string * option addr * list addr :=
  (_element nd, _parent nd, kids_of (_children nd)).

(** How a piece of [fill_tree] ends on a [built] tree: with the type error
    of [_validate] or with a new cursor, and the tree [built] in both
    cases. *)
Definition fill_result (N0 T : addr) (rl : string) (r : outcome pyobj * heap) : Prop :=
  built N0 T rl (snd r) /\
  (fst r = Raise not_a_position \/
   exists cursor, fst r = Ret cursor /\ cursor_ok N0 T (snd r) cursor).

(** The tree that the store holds below the node [n], read off the child
    lists down to [fuel] levels. *)
Fixpoint rose_of (fuel : nat) (h : heap) (n : addr) : rose :=
  match fuel with
  | O => Rose EmptyString []
  | S fuel' =>
      match nodes h !! n with
      | Some nd => Rose (_element nd) (map (rose_of fuel' h) (kids_of (_children nd)))
      | None => Rose EmptyString []
      end
  end.

(** The entries of the child list of the node at [c]. *)
Definition kids_at (h : heap) (c : addr) : list addr :=
  match nodes h !! c with
  | Some nd => kids_of (_children nd)
  | None => []
  end.

(** ** Running the monads *)

Section Running.
Context {A B : Type}.

Lemma R_bind_ret (c : R A) (k : A -> R B) h a :
  c h = Ret a -> (c ≫= k) h = k a h.
Proof. intros E. unfold mbind, R_bind. now rewrite E. Qed.

Lemma R_bind_raise (c : R A) (k : A -> R B) h e :
  c h = Raise e -> (c ≫= k) h = Raise e.
Proof. intros E. unfold mbind, R_bind. now rewrite E. Qed.

Lemma M_bind_ret (c : M A) (k : A -> M B) h a h' :
  c h = (Ret a, h') -> (c ≫= k) h = k a h'.
Proof. intros E. unfold mbind, M_bind. now rewrite E. Qed.

Lemma M_bind_raise (c : M A) (k : A -> M B) h e h' :
  c h = (Raise e, h') -> (c ≫= k) h = (Raise e, h').
Proof. intros E. unfold mbind, M_bind. now rewrite E. Qed.

Lemma G_bind_ret (c : G A) (k : A -> G B) h out a :
  c h = (out, Ret a) -> (c ≫= k) h = (out ++ fst (k a h), snd (k a h)).
Proof. intros E. unfold mbind, G_bind. rewrite E. now destruct (k a h). Qed.

Lemma readM_ret (c : R A) (k : A -> M B) h a :
  c h = Ret a -> (readM c ≫= k) h = k a h.
Proof. intros E. apply M_bind_ret. unfold readM. now rewrite E. Qed.

Lemma readM_raise (c : R A) (k : A -> M B) h e :
  c h = Raise e -> (readM c ≫= k) h = (Raise e, h).
Proof. intros E. apply M_bind_raise. unfold readM. now rewrite E. Qed.

Lemma readG_ret (c : R A) (k : A -> G B) h a :
  c h = Ret a -> (readG c ≫= k) h = k a h.
Proof.
  intros E. unfold mbind, G_bind, readG. rewrite E. now destruct (k a h).
Qed.

Lemma readG_raise (c : R A) (k : A -> G B) h e :
  c h = Raise e -> (readG c ≫= k) h = ([], Raise e).
Proof. intros E. unfold mbind, G_bind, readG. now rewrite E. Qed.

End Running.

Lemma node_at_Some h n nd : nodes h !! n = Some nd -> node_at n h = Ret nd.
Proof. intros E. unfold node_at. now rewrite E. Qed.

Lemma tree_at_Some h t tr : trees h !! t = Some tr -> tree_at t h = Ret tr.
Proof. intros E. unfold tree_at. now rewrite E. Qed.

(** ** Position validation *)

Section Validation.
Import LinkedTree.

Lemma validate_type self p h :
  (forall c n, p <> VPos c n) -> _validate self p h = Raise not_a_position.
Proof. intros Hp. destruct p; try reflexivity. now destruct (Hp container node). Qed.

Lemma validate_container self c n h :
  c <> self -> _validate self (VPos c n) h = Raise foreign_position.
Proof.
  intros Hc. unfold _validate.
  destruct (Nat.eqb_spec c self) as [->|_]; [now destruct Hc | reflexivity].
Qed.

Lemma validate_tombstone self n nd h :
  nodes h !! n = Some nd -> _parent nd = Some n ->
  _validate self (VPos self n) h = Raise stale_position.
Proof.
  intros Hn Hp. unfold _validate. rewrite Nat.eqb_refl. simpl.
  rewrite (R_bind_ret _ _ h nd) by now apply node_at_Some.
  rewrite Hp, Nat.eqb_refl. reflexivity.
Qed.

Lemma validate_invalid h self p :
  invalid h self p ->
  exists e, InvalidPosition e /\ _validate self p h = Raise e.
Proof.
  unfold InvalidPosition.
  destruct 1 as [p Hp | c n Hc | n nd Hn Hp].
  - exists not_a_position. split; [tauto | now apply validate_type].
  - exists foreign_position. split; [tauto | now apply validate_container].
  - exists stale_position. split; [tauto | now apply validate_tombstone with nd].
Qed.

(** A valid position is a [Position] of this container whose node is
    there. *)
Lemma validate_Ret self p h n :
  _validate self p h = Ret n ->
  p = VPos self n /\ exists nd, nodes h !! n = Some nd /\ _parent nd <> Some n.
Proof.
  destruct p as [| b | s | c m]; try discriminate.
  unfold _validate. destruct (Nat.eqb_spec c self) as [->|]; [|discriminate].
  simpl. unfold mbind, R_bind, node_at.
  destruct (nodes h !! m) as [nd|] eqn:E; [|discriminate].
  destruct (_parent nd) as [q|] eqn:Ep.
  - destruct (Nat.eqb_spec q m) as [->|Hq]; [discriminate|].
    intros [= <-]. split; [reflexivity|]. exists nd. split; [assumption|].
    rewrite Ep. congruence.
  - intros [= <-]. split; [reflexivity|]. exists nd. split; [assumption|].
    rewrite Ep. discriminate.
Qed.

Lemma validate_ok self n nd h :
  nodes h !! n = Some nd -> _parent nd <> Some n ->
  _validate self (VPos self n) h = Ret n.
Proof.
  intros Hn Hp. unfold _validate. rewrite Nat.eqb_refl. simpl.
  rewrite (R_bind_ret _ _ h nd) by now apply node_at_Some.
  destruct (_parent nd) as [q|]; [|reflexivity].
  destruct (Nat.eqb_spec q n) as [->|]; [now destruct Hp | reflexivity].
Qed.

End Validation.

(** ** Invalid positions are refused *)

Section InvalidPositions.
Import LinkedTree.

(** C7.  An argument that is not a [Position], or a [Position] of another
    container, or a [Position] of a tombstoned node (its parent slot points
    to itself) makes [parent], [num_children] and the iteration of
    [children] raise one of the errors of [_validate]; none of them returns.
    In particular a position made by tree [a] is refused by any other tree
    [b]. *)
Theorem invalid_position_refused :
  (forall h self p, invalid h self p ->
     exists e, InvalidPosition e /\
       parent self p h = Raise e /\
       num_children self p h = Raise e /\
       children self p h = Raise e) /\
  (forall h a b node, a <> b ->
     parent b (_make_position a (Some node)) h = Raise foreign_position /\
     num_children b (_make_position a (Some node)) h = Raise foreign_position /\
     children b (_make_position a (Some node)) h = Raise foreign_position).
Proof.
  split.
  - intros h self p Hp.
    destruct (validate_invalid h self p Hp) as (e & He & Hv).
    exists e. split; [exact He|].
    unfold parent, num_children, children.
    repeat split; now apply R_bind_raise.
  - intros h a b node Hab. simpl.
    pose proof (validate_container b a node h Hab) as Hv.
    unfold parent, num_children, children.
    repeat split; now apply R_bind_raise.
Qed.

Lemma invalid_position_refused_witness :
  (exists e, InvalidPosition e /\ parent 0 VNone heap_tombstone = Raise e /\
     num_children 0 VNone heap_tombstone = Raise e /\
     children 0 VNone heap_tombstone = Raise e) /\
  (exists e, InvalidPosition e /\ parent 0 (VPos 0 0) heap_tombstone = Raise e /\
     num_children 0 (VPos 0 0) heap_tombstone = Raise e /\
     children 0 (VPos 0 0) heap_tombstone = Raise e) /\
  parent 1 (_make_position 0 (Some 0)) heap_tombstone = Raise foreign_position.
Proof.
  split; [|split].
  - apply (proj1 invalid_position_refused heap_tombstone 0 VNone).
    apply invalid_type. intros c n. discriminate.
  - apply (proj1 invalid_position_refused heap_tombstone 0 (VPos 0 0)).
    apply invalid_tombstone with (mk_Node "x" (Some 0) None); reflexivity.
  - apply (proj2 invalid_position_refused heap_tombstone 0 1 0). lia.
Defined.

End InvalidPositions.

(** ** Adding the root *)

Section AddRoot.
Import LinkedTree.

Lemma add_root_exists h self t r e :
  trees h !! self = Some t -> _root t = Some r ->
  _add_root self e h = (Raise root_exists, h).
Proof.
  intros Ht Hr. unfold _add_root.
  rewrite (readM_ret _ _ h t) by now apply tree_at_Some.
  now rewrite Hr.
Qed.

Lemma add_root_fresh h self t e :
  trees h !! self = Some t -> _root t = None ->
  _add_root self e h =
    (Ret (VPos self (length (nodes h))),
     mk_heap (nodes h ++ [mk_Node e None None])
             (<[self := mk_Tree (Some (length (nodes h))) 1]> (trees h))).
Proof.
  intros Ht Hr.
  assert (Hlt : self < length (trees h)) by (eapply lookup_lt_Some; eassumption).
  unfold _add_root. rewrite (readM_ret _ _ h t) by now apply tree_at_Some.
  rewrite Hr. unfold set_size, set_root, alloc_node, store_tree, readM,
    mbind, M_bind, mret, M_ret, tree_at. simpl.
  rewrite Ht. simpl.
  rewrite list_lookup_insert_eq by assumption. simpl.
  rewrite list_lookup_insert_eq by (now rewrite length_insert). simpl.
  rewrite list_insert_insert_eq. reflexivity.
Qed.

Lemma lookup_fresh {X} (l : list X) (x : X) : (l ++ [x]) !! length l = Some x.
Proof. rewrite lookup_app_r by lia. now rewrite Nat.sub_diag. Qed.

Lemma root_lookup h self t :
  trees h !! self = Some t -> root self h = Ret (_make_position self (_root t)).
Proof.
  intros Ht. unfold root. now rewrite (R_bind_ret _ _ h t) by now apply tree_at_Some.
Qed.

(** C8.  [_add_root] raises the root-exists error and leaves the store as it
    was when the tree has a root; on a tree without root it allocates a node
    holding [e], with no parent and no children, makes it the root, sets the
    size to 1 and returns the position of that node. *)
Theorem add_root_spec :
  forall h self t e,
    trees h !! self = Some t ->
    (forall r, _root t = Some r ->
       _add_root self e h = (Raise root_exists, h) /\ AlreadyHasRoot root_exists) /\
    (_root t = None ->
       let n := length (nodes h) in
       let h' := mk_heap (nodes h ++ [mk_Node e None None])
                         (<[self := mk_Tree (Some n) 1]> (trees h)) in
       _add_root self e h = (Ret (VPos self n), h') /\
       trees h' !! self = Some (mk_Tree (Some n) 1) /\
       nodes h' !! n = Some (mk_Node e None None) /\
       root self h' = Ret (VPos self n)).
Proof.
  intros h self t e Ht.
  assert (Hlt : self < length (trees h)) by (eapply lookup_lt_Some; eassumption).
  split.
  - intros r Hr. split; [|reflexivity]. now apply add_root_exists with t r.
  - intros Hr n h'.
    assert (Hself : trees h' !! self = Some (mk_Tree (Some n) 1)).
    { unfold h'. simpl. now apply list_lookup_insert_eq. }
    split; [|split; [exact Hself|split]].
    + now apply add_root_fresh with t.
    + apply lookup_fresh.
    + now rewrite (root_lookup h' self _ Hself).
Qed.

Lemma add_root_spec_witness :
  _add_root 0 "A" heap_no_root = (Ret (VPos 0 0), heap_root_A) /\
  _add_root 0 "B" heap_root_A = (Raise root_exists, heap_root_A).
Proof.
  split.
  - apply (proj2 (add_root_spec heap_no_root 0 (mk_Tree None 0) "A" eq_refl) eq_refl).
  - apply (proj1 (add_root_spec heap_root_A 0 (mk_Tree (Some 0) 1) "B" eq_refl) 0 eq_refl).
Defined.

End AddRoot.

(** ** Stripping *)

Section Stripping.

(** [PyStr.isspace] is the table of white space. *)
Lemma isspace_white c : PyStr.isspace c = true <-> white c.
Proof.
  unfold PyStr.isspace, white, whitespace_code_points.
  generalize (Ascii.nat_of_ascii c). intros n.
  rewrite !orb_true_iff, !andb_true_iff, !Nat.leb_le, !Nat.eqb_eq.
  simpl In. lia.
Qed.

Lemma isspace_not_white c : PyStr.isspace c = false <-> ~ white c.
Proof. rewrite <- isspace_white. now destruct (PyStr.isspace c). Qed.

Lemma rstrip_cons c s :
  PyStr.rstrip (String c s) =
    match PyStr.rstrip s with
    | EmptyString => if PyStr.isspace c then EmptyString else String c EmptyString
    | r => String c r
    end.
Proof. reflexivity. Qed.

Lemma rstrip_idem s : PyStr.rstrip (PyStr.rstrip s) = PyStr.rstrip s.
Proof.
  induction s as [|c s IH]; [reflexivity|].
  rewrite rstrip_cons. destruct (PyStr.rstrip s) as [|c' r] eqn:Er.
  - destruct (PyStr.isspace c) eqn:Ec; [reflexivity|].
    rewrite rstrip_cons. simpl PyStr.rstrip. now rewrite Ec.
  - rewrite rstrip_cons, IH. reflexivity.
Qed.

Lemma lstrip_fixed s :
  PyStr.lstrip s = s <->
  match s with EmptyString => True | String c _ => PyStr.isspace c = false end.
Proof.
  destruct s as [|c s]; [easy|]. simpl.
  destruct (PyStr.isspace c) eqn:Ec; [|easy].
  split; [|discriminate]. intros E.
  assert (Hlen : String.length (PyStr.lstrip s) <= String.length s).
  { clear. induction s as [|c s IH]; simpl; [lia|].
    destruct (PyStr.isspace c); simpl; lia. }
  rewrite E in Hlen. simpl in Hlen. lia.
Qed.

Lemma lstrip_idem s : PyStr.lstrip (PyStr.lstrip s) = PyStr.lstrip s.
Proof.
  induction s as [|c s IH]; [reflexivity|]. simpl.
  destruct (PyStr.isspace c) eqn:Ec; [exact IH|]. simpl. now rewrite Ec.
Qed.

Lemma lstrip_rstrip s :
  PyStr.lstrip s = s -> PyStr.lstrip (PyStr.rstrip s) = PyStr.rstrip s.
Proof.
  intros Hs. apply lstrip_fixed in Hs. apply lstrip_fixed.
  destruct s as [|c s]; [exact I|]. rewrite rstrip_cons.
  destruct (PyStr.rstrip s); [now rewrite Hs | exact Hs].
Qed.

Lemma strip_stripped s : stripped (PyStr.strip s).
Proof.
  unfold stripped, PyStr.strip. split.
  - apply lstrip_rstrip, lstrip_idem.
  - apply rstrip_idem.
Qed.

Lemma append_nil (t : string) : (EmptyString +:+ t)%string = t.
Proof. reflexivity. Qed.

Lemma append_cons c (s t : string) :
  (String c s +:+ t)%string = String c (s +:+ t).
Proof. reflexivity. Qed.

(** [lstrip] and [rstrip] cut off a run of white space. *)
Lemma lstrip_split s :
  exists pre, s = (pre +:+ PyStr.lstrip s)%string /\ blank pre.
Proof.
  induction s as [|c s (pre & E & Hpre)]; [now exists EmptyString|].
  simpl. destruct (PyStr.isspace c) eqn:Ec.
  - exists (String c pre). split; [exact (f_equal (String c) E)|].
    split; [now apply isspace_white | exact Hpre].
  - now exists EmptyString.
Qed.

Lemma rstrip_split s :
  exists post, s = (PyStr.rstrip s +:+ post)%string /\ blank post.
Proof.
  induction s as [|c s (post & E & Hpost)]; [now exists EmptyString|].
  rewrite rstrip_cons. destruct (PyStr.rstrip s) as [|c' r] eqn:Er.
  - destruct (PyStr.isspace c) eqn:Ec.
    + exists (String c post). split; [exact (f_equal (String c) E)|].
      split; [now apply isspace_white | exact Hpost].
    + exists post. split; [exact (f_equal (String c) E) | exact Hpost].
  - exists post. split; [exact (f_equal (String c) E) | exact Hpost].
Qed.

(** White space in front and behind does not change the result. *)
Lemma lstrip_blank pre s :
  blank pre -> PyStr.lstrip (pre +:+ s) = PyStr.lstrip s.
Proof.
  induction pre as [|c pre IH]; [easy|]. intros [Hc Hpre].
  apply isspace_white in Hc. rewrite append_cons. simpl. rewrite Hc.
  now apply IH.
Qed.

Lemma lstrip_blank_only s : blank s -> PyStr.lstrip s = EmptyString.
Proof.
  induction s as [|c s IH]; [easy|]. intros [Hc Hs].
  apply isspace_white in Hc. simpl. rewrite Hc. now apply IH.
Qed.

Lemma rstrip_blank_only s : blank s -> PyStr.rstrip s = EmptyString.
Proof.
  induction s as [|c s IH]; [easy|]. intros [Hc Hs].
  apply isspace_white in Hc. rewrite rstrip_cons, (IH Hs). now rewrite Hc.
Qed.

Lemma rstrip_blank s post :
  blank post -> PyStr.rstrip (s +:+ post) = PyStr.rstrip s.
Proof.
  intros Hpost. induction s as [|c s IH]; [now apply rstrip_blank_only|].
  now rewrite append_cons, !rstrip_cons, IH.
Qed.

(** What [rstrip] returns does not end with white space, and a string that
    does not end with white space is returned as it is. *)
Lemma rstrip_last s :
  forall s' c, PyStr.rstrip s = (s' +:+ String c EmptyString)%string ->
               PyStr.isspace c = false.
Proof.
  induction s as [|a s IH]; intros s' c.
  - destruct s'; discriminate.
  - rewrite rstrip_cons. destruct (PyStr.rstrip s) as [|b r] eqn:Er.
    + destruct (PyStr.isspace a) eqn:Ea; [destruct s'; discriminate|].
      destruct s' as [|x s']; rewrite ?append_cons, ?append_nil; intros E.
      * congruence.
      * destruct s'; discriminate.
    + destruct s' as [|x s']; rewrite ?append_cons, ?append_nil; intros E;
        [discriminate|].
      apply (IH s' c). congruence.
Qed.

Lemma string_snoc s :
  s = EmptyString \/ exists s' c, s = (s' +:+ String c EmptyString)%string.
Proof.
  induction s as [|a s IH]; [now left | right].
  destruct IH as [-> | (s' & c & ->)].
  - now exists EmptyString, a.
  - now exists (String a s'), c.
Qed.

Lemma rstrip_snoc s c :
  PyStr.isspace c = false ->
  PyStr.rstrip (s +:+ String c EmptyString) = (s +:+ String c EmptyString)%string.
Proof.
  intros Hc. induction s as [|a s IH].
  - rewrite append_nil, rstrip_cons. simpl. now rewrite Hc.
  - rewrite append_cons, rstrip_cons, IH. now destruct s.
Qed.

(** The fixed points of [strip] are the strings without white space at
    either end. *)
Lemma stripped_trimmed e : stripped e -> trimmed e.
Proof.
  intros [Hl Hr]. split.
  - intros c s' ->. apply isspace_not_white.
    now apply lstrip_fixed in Hl.
  - intros s' c E. apply isspace_not_white.
    apply (rstrip_last e s' c). now rewrite Hr.
Qed.

Lemma trimmed_stripped e : trimmed e -> stripped e.
Proof.
  intros [Hf Hl]. split.
  - apply lstrip_fixed. destruct e as [|a e]; [exact I|].
    apply isspace_not_white. now apply (Hf a e).
  - destruct (string_snoc e) as [-> | (s' & c & ->)]; [reflexivity|].
    apply rstrip_snoc, isspace_not_white. now apply (Hl s' c).
Qed.

(** [strip] meets the description, and nothing else does. *)
Lemma strip_strips_to line : strips_to line (PyStr.strip line).
Proof.
  split; [apply stripped_trimmed, strip_stripped|].
  destruct (lstrip_split line) as (pre & E1 & Hpre).
  destruct (rstrip_split (PyStr.lstrip line)) as (post & E2 & Hpost).
  exists pre, post. split; [|now split].
  unfold PyStr.strip. now rewrite <- E2.
Qed.

Lemma strips_to_strip line label :
  strips_to line label -> label = PyStr.strip line.
Proof.
  intros [Ht (pre & post & -> & Hpre & Hpost)].
  destruct (trimmed_stripped _ Ht) as [Hl Hr].
  unfold PyStr.strip. rewrite (lstrip_blank pre _ Hpre).
  destruct label as [|c l].
  - now rewrite append_nil, (lstrip_blank_only post Hpost).
  - assert (E : PyStr.lstrip (String c l +:+ post) = (String c l +:+ post)%string).
    { apply lstrip_fixed. rewrite append_cons. now apply lstrip_fixed in Hl. }
    now rewrite E, (rstrip_blank _ post Hpost), Hr.
Qed.

Lemma strips_to_iff line label :
  strips_to line label <-> label = PyStr.strip line.
Proof.
  split; [apply strips_to_strip | intros ->; apply strip_strips_to].
Qed.

(** ['\xa0 Home, Garden\x85\n'.strip() == 'Home, Garden'] and
    ['\xa0A\x85\n'.strip() == 'A']: the white space above 127 goes too. *)
Lemma strip_nbsp_nel :
  PyStr.strip (NBSP +:+ " Home, Garden" +:+ NEL +:+ LF) = "Home, Garden" /\
  PyStr.strip (NBSP +:+ "A" +:+ NEL +:+ LF) = "A".
Proof. split; reflexivity. Qed.

End Stripping.

(** ** Construction from lines *)

Section Construction.
Import LinkedTree ProductCategorizer.

Lemma init_tree h :
  __init__ h = (Ret (length (trees h)), mk_heap (nodes h) (trees h ++ [mk_Tree None 0])).
Proof. reflexivity. Qed.

Lemma is_empty_lookup h self t :
  trees h !! self = Some t -> is_empty self h = Ret (Nat.eqb (_size t) 0).
Proof.
  intros Ht. unfold is_empty, __len__, mbind, R_bind.
  now rewrite (tree_at_Some h self t).
Qed.

(** [add_node] with no position on a tree that has no root. *)
Lemma add_node_root h self t e :
  trees h !! self = Some t -> _root t = None ->
  add_node self e VNone h =
    (Ret VNone, mk_heap (nodes h ++ [mk_Node e None None])
                        (<[self := mk_Tree (Some (length (nodes h))) 1]> (trees h))).
Proof.
  intros Ht Hr. unfold add_node, mbind, M_bind.
  now rewrite (add_root_fresh h self t e Ht Hr).
Qed.

Lemma fill_line_on_empty h tree cursor line :
  trees h !! tree = Some (mk_Tree None 0) ->
  fill_line tree cursor line h =
    (Ret cursor,
     mk_heap (nodes h ++ [mk_Node (PyStr.strip line) None None])
             (<[tree := mk_Tree (Some (length (nodes h))) 1]> (trees h))).
Proof.
  intros Ht. unfold fill_line.
  rewrite (readM_ret _ _ h true) by now rewrite (is_empty_lookup h tree _ Ht).
  unfold mbind at 1. unfold M_bind.
  now rewrite (add_node_root h tree (mk_Tree None 0)).
Qed.

Lemma fill_tree_first_line h line rest :
  fill_tree (line :: rest) h =
    (cursor ← fill_lines (length (trees h)) VNone rest;
     mret (length (trees h), cursor)) (after_first_line h line).
Proof.
  unfold fill_tree.
  rewrite (M_bind_ret _ _ h _ _ (init_tree h)). simpl fill_lines.
  set (tree := length (trees h)).
  set (h0 := mk_heap (nodes h) (trees h ++ [mk_Tree None 0])).
  assert (Ht : trees h0 !! tree = Some (mk_Tree None 0)) by apply lookup_fresh.
  unfold mbind at 1. unfold M_bind at 1.
  unfold mbind at 1. unfold M_bind at 1.
  rewrite (fill_line_on_empty h0 tree VNone line Ht).
  unfold h0, tree, after_first_line. simpl.
  rewrite insert_app_r_alt by lia.
  rewrite Nat.sub_diag. simpl. reflexivity.
Qed.

(** C4.  On a tree that is empty, [fill_line] does not split the line: the
    whole line, stripped of the white space around it, becomes the label of
    a new root node, the size becomes 1 and the cursor is left alone.
    [fill_tree] always meets its first line in that state, whatever the line
    holds.  The stripped line is the one string without white space at
    either end that the line holds between two runs of white space, the
    white space being the code points 9 to 13, 28 to 32, 133 and 160. *)
Theorem first_line_is_root :
  (forall h tree cursor line,
     trees h !! tree = Some (mk_Tree None 0) ->
     fill_line tree cursor line h =
       (Ret cursor,
        mk_heap (nodes h ++ [mk_Node (PyStr.strip line) None None])
                (<[tree := mk_Tree (Some (length (nodes h))) 1]> (trees h)))) /\
  (forall h line rest,
     fill_tree (line :: rest) h =
       (cursor ← fill_lines (length (trees h)) VNone rest;
        mret (length (trees h), cursor))
       (mk_heap (nodes h ++ [mk_Node (PyStr.strip line) None None])
                (trees h ++ [mk_Tree (Some (length (nodes h))) 1]))) /\
  (forall line label, strips_to line label <-> label = PyStr.strip line).
Proof.
  split; [|split].
  - intros h tree cursor line. apply fill_line_on_empty.
  - intros h line rest. apply fill_tree_first_line.
  - apply strips_to_iff.
Qed.

Lemma first_line_is_root_witness :
  fill_line 0 VNone (NBSP +:+ " Home, Garden" +:+ NEL +:+ LF) heap_no_root =
    (Ret VNone, mk_heap [mk_Node "Home, Garden" None None] [mk_Tree (Some 0) 1]) /\
  strips_to (NBSP +:+ " Home, Garden" +:+ NEL +:+ LF) "Home, Garden".
Proof.
  split.
  - apply (proj1 first_line_is_root heap_no_root 0 VNone
             (NBSP +:+ " Home, Garden" +:+ NEL +:+ LF)).
    reflexivity.
  - apply (proj2 (proj2 first_line_is_root)). reflexivity.
Defined.

Lemma depth_S fuel self p h :
  depth (S fuel) self p h =
    (b ← is_root self p;
     if b : bool then mret 0
     else q ← parent self p; d ← depth fuel self q; mret (1 + d)) h.
Proof. reflexivity. Qed.

Lemma all_nodes_pre fuel self h :
  all_nodes fuel self "pre" h =
    (r ← readG (root self); _traverse_preorder fuel fuel self r) h.
Proof. reflexivity. Qed.

Lemma all_nodes_post fuel self h :
  all_nodes fuel self "post" h =
    (r ← readG (root self); _traverse_postorder fuel fuel self r) h.
Proof. reflexivity. Qed.

Lemma split_comma_cons line : exists lab labs, PyStr.split_comma line = lab :: labs.
Proof.
  induction line as [|c line IH]; simpl; [now eauto|].
  destruct (Ascii.eqb c ","); [now eauto|].
  destruct IH as (lab & labs & ->). eauto.
Qed.

(** C10.  When the first label of the second line is not the label of the
    root, [fill_tree] looks for a child of the cursor while the cursor is
    still [None]: the lookup is refused by [_validate] and the whole
    construction ends with that error, the tree holding the root only.  Such
    inputs exist. *)
Theorem unassigned_cursor_fails :
  (forall h line1 line2 rest lab,
     head (PyStr.split_comma line2) = Some lab ->
     PyStr.strip lab <> PyStr.strip line1 ->
     find_child_by_value (length (trees h)) VNone (PyStr.strip lab)
       (after_first_line h line1) = Raise not_a_position /\
     fill_tree (line1 :: line2 :: rest) h =
       (Raise not_a_position, after_first_line h line1)) /\
  (exists line1 line2 h',
     fill_tree [line1; line2] empty_heap = (Raise not_a_position, h')) /\
  InvalidPosition not_a_position.
Proof.
  assert (Hgen : forall h line1 line2 rest lab,
     head (PyStr.split_comma line2) = Some lab ->
     PyStr.strip lab <> PyStr.strip line1 ->
     find_child_by_value (length (trees h)) VNone (PyStr.strip lab)
       (after_first_line h line1) = Raise not_a_position /\
     fill_tree (line1 :: line2 :: rest) h =
       (Raise not_a_position, after_first_line h line1)).
  { intros h line1 line2 rest lab Hlab Hne.
    assert (Hfind : forall h', find_child_by_value (length (trees h)) VNone
                      (PyStr.strip lab) h' = Raise not_a_position) by reflexivity.
    split; [apply Hfind|].
    rewrite fill_tree_first_line.
    set (tree := length (trees h)). set (h1 := after_first_line h line1).
    assert (Ht : trees h1 !! tree = Some (mk_Tree (Some (length (nodes h))) 1))
      by apply lookup_fresh.
    assert (Hn : nodes h1 !! length (nodes h) = Some (mk_Node (PyStr.strip line1) None None))
      by apply lookup_fresh.
    destruct (PyStr.split_comma line2) as [|lab' labs] eqn:Esplit; [discriminate|].
    injection Hlab as ->.
    assert (Hstep : fill_label tree VNone lab h1 = (Raise not_a_position, h1)).
    { unfold fill_label.
      rewrite (readM_ret _ _ h1 _ (root_lookup h1 tree _ Ht)). simpl _make_position.
      rewrite (readM_ret _ _ h1 (length (nodes h)))
        by (apply validate_ok with (mk_Node (PyStr.strip line1) None None);
            [exact Hn | discriminate]).
      rewrite (readM_ret _ _ h1 _ (node_at_Some h1 _ _ Hn)). cbn [_element].
      destruct (String.eqb_spec (PyStr.strip line1) (PyStr.strip lab)) as [E|_];
        [now destruct Hne|].
      now apply readM_raise. }
    assert (Hline : fill_line tree VNone line2 h1 = (Raise not_a_position, h1)).
    { unfold fill_line.
      rewrite (readM_ret _ _ h1 false) by now rewrite (is_empty_lookup h1 tree _ Ht).
      rewrite Esplit. simpl fill_labels. now apply M_bind_raise. }
    simpl fill_lines. apply M_bind_raise. now apply M_bind_raise. }
  split; [exact Hgen|]. split.
  - exists ("A" +:+ LF), ("B" +:+ LF), (after_first_line empty_heap ("A" +:+ LF)).
    apply (Hgen empty_heap ("A" +:+ LF) ("B" +:+ LF) [] ("B" +:+ LF)).
    + reflexivity.
    + discriminate.
  - unfold InvalidPosition. tauto.
Qed.

Lemma unassigned_cursor_fails_witness :
  fill_tree ["Books" +:+ LF; "Music,Books" +:+ LF] empty_heap =
    (Raise not_a_position,
     mk_heap [mk_Node "Books" None None] [mk_Tree (Some 0) 1]).
Proof.
  apply (proj1 unassigned_cursor_fails empty_heap
           ("Books" +:+ LF) ("Music,Books" +:+ LF) [] "Music").
  - reflexivity.
  - discriminate.
Defined.

(** C2.  With no line at all [fill_tree] leaves an empty tree: size 0 and
    no root.  [print_tree] then does not produce two empty files: the very
    first step of the pre-order generator hands [None] to [_validate], the
    error leaves [pre.txt] truncated and empty, and [post.txt] is never
    opened.  The post-order generator fails in the same way. *)
Theorem empty_input_run :
  forall h fs fuel,
    let tree := length (trees h) in
    let h0 := mk_heap (nodes h) (trees h ++ [mk_Tree None 0]) in
    fill_tree [] h = (Ret (tree, VNone), h0) /\
    root tree h0 = Ret VNone /\
    __len__ tree h0 = Ret 0 /\
    all_nodes (S fuel) tree "pre" h0 = ([], Raise not_a_position) /\
    all_nodes (S fuel) tree "post" h0 = ([], Raise not_a_position) /\
    print_tree (S fuel) tree fs h0 =
      (Raise not_a_position, mk_files (Some []) (post_txt fs)).
Proof.
  intros h fs fuel tree h0.
  assert (Ht : trees h0 !! tree = Some (mk_Tree None 0)) by apply lookup_fresh.
  assert (Hroot : root tree h0 = Ret VNone) by now rewrite (root_lookup h0 tree _ Ht).
  assert (Hpre : all_nodes (S fuel) tree "pre" h0 = ([], Raise not_a_position)).
  { rewrite all_nodes_pre.
    rewrite (readG_ret _ _ h0 _ Hroot). simpl _traverse_preorder.
    unfold node_line.
    assert (Hd : depth (S fuel) tree VNone h0 = Ret 0).
    { rewrite depth_S.
      rewrite (R_bind_ret _ _ h0 true); [reflexivity|].
      unfold is_root. now rewrite (R_bind_ret _ _ h0 _ Hroot). }
    unfold mbind at 1. unfold G_bind at 1.
    rewrite (readG_ret _ _ h0 _ Hd).
    now rewrite (readG_raise _ _ h0 not_a_position). }
  assert (Hpost : all_nodes (S fuel) tree "post" h0 = ([], Raise not_a_position)).
  { rewrite all_nodes_post.
    rewrite (readG_ret _ _ h0 _ Hroot). simpl _traverse_postorder.
    now rewrite (readG_raise _ _ h0 not_a_position). }
  repeat split; try assumption.
  - unfold __len__. now rewrite (R_bind_ret _ _ h0 _ (tree_at_Some h0 tree _ Ht)).
  - unfold print_tree. now rewrite Hpre.
Qed.

End Construction.

(** ** The size and the root *)

Section SizeAndRoot.
Import LinkedTree.

(** What [_add_nonroot_node] may do to the tree objects: nothing, or, once
    [p] has been validated, add one to the size of [self]. *)
Lemma add_nonroot_trees self p e h :
  trees (snd (_add_nonroot_node self p e h)) = trees h \/
  exists t n,
    trees h !! self = Some t /\ _validate self p h = Ret n /\
    trees (snd (_add_nonroot_node self p e h)) =
      <[self := mk_Tree (_root t) (_size t + 1)]> (trees h).
Proof.
  unfold _add_nonroot_node, append_child, set_children, set_size, alloc_node,
    store_node, store_tree, readM, __len__, tree_at.
  unfold mbind, M_bind, R_bind, mret, M_ret, R_ret.
  destruct (_validate self p h) as [n| | |] eqn:Ev; simpl; auto.
  destruct (node_at n h) as [nd| | |] eqn:En; simpl; auto.
  repeat (case_match; simpl in *; simplify_eq; auto).
  all: right; eexists _, _; repeat split; eauto.
Qed.

Lemma linked_has_root h self n d :
  linked h self n d ->
  exists t r nd,
    trees h !! self = Some t /\ _root t = Some r /\
    nodes h !! r = Some nd /\ _parent nd = None.
Proof. induction 1; eauto 10. Qed.

Lemma inv_after_add_root h self e :
  size_root_inv h self -> size_root_inv (snd (_add_root self e h)) self.
Proof.
  intros (t & Ht & Hinv).
  destruct (_root t) as [r|] eqn:Hr.
  - rewrite (add_root_exists h self t r e Ht Hr). simpl. exists t.
    split; [assumption | now rewrite Hr].
  - rewrite (add_root_fresh h self t e Ht Hr). simpl.
    exists (mk_Tree (Some (length (nodes h))) 1). split.
    + apply list_lookup_insert_eq. eapply lookup_lt_Some; eassumption.
    + simpl. split; discriminate.
Qed.

Lemma inv_after_add_nonroot h self p e :
  size_root_inv h self ->
  (forall n, p = VPos self n -> exists d, linked h self n d) ->
  size_root_inv (snd (_add_nonroot_node self p e h)) self.
Proof.
  intros (t & Ht & Hinv) Hp.
  destruct (add_nonroot_trees self p e h) as [E | (t' & n & Ht' & Hv & E)];
    unfold size_root_inv; rewrite E.
  - exists t. split; assumption.
  - assert (t' = t) as -> by congruence.
    destruct (validate_Ret self p h n Hv) as [-> _].
    destruct (Hp n eq_refl) as [d Hl].
    destruct (linked_has_root h self n d Hl) as (t2 & r & nd & Ht2 & Hr & _).
    assert (t2 = t) as -> by congruence.
    eexists. split.
    + apply list_lookup_insert_eq. eapply lookup_lt_Some; eassumption.
    + simpl. rewrite Hr. split; [lia | discriminate].
Qed.

(** C9.  A new tree has size 0 and no root, and the equivalence between
    size 0 and the absence of a root survives [_add_root], [_add_nonroot_node]
    and [add_node], whether they return or raise, when the position they are
    given is a position of the tree.  The queries are read-only and leave the
    store as it is.  Under the equivalence [is_empty] answers [True] exactly
    when [root] answers [None]. *)
Theorem size_zero_iff_no_root :
  (forall h, size_root_inv (snd (__init__ h)) (length (trees h))) /\
  (forall h self e,
     size_root_inv h self -> size_root_inv (snd (_add_root self e h)) self) /\
  (forall h self p e,
     size_root_inv h self ->
     (forall n, p = VPos self n -> exists d, linked h self n d) ->
     size_root_inv (snd (_add_nonroot_node self p e h)) self) /\
  (forall h self e p,
     size_root_inv h self ->
     (forall n, p = VPos self n -> exists d, linked h self n d) ->
     size_root_inv (snd (add_node self e p h)) self) /\
  (forall (X : Type) (query : R X) h self,
     size_root_inv h self -> size_root_inv (snd (readM query h)) self) /\
  (forall h self,
     size_root_inv h self ->
     (is_empty self h = Ret true <-> root self h = Ret VNone)).
Proof.
  split; [|split; [|split; [|split; [|split]]]].
  - intros h. rewrite init_tree. simpl. exists (mk_Tree None 0).
    split; [apply lookup_fresh | easy].
  - apply inv_after_add_root.
  - apply inv_after_add_nonroot.
  - intros h self e p Hinv Hp. unfold add_node.
    destruct p as [| b | s | c n].
    + pose proof (inv_after_add_root h self e Hinv) as H.
      unfold mbind, M_bind. now destruct (_add_root self e h) as [[]].
    + pose proof (inv_after_add_nonroot h self (VBool b) e Hinv Hp) as H.
      unfold mbind, M_bind. now destruct (_add_nonroot_node _ _ _ _) as [[]].
    + pose proof (inv_after_add_nonroot h self (VStr s) e Hinv Hp) as H.
      unfold mbind, M_bind. now destruct (_add_nonroot_node _ _ _ _) as [[]].
    + pose proof (inv_after_add_nonroot h self (VPos c n) e Hinv Hp) as H.
      unfold mbind, M_bind. now destruct (_add_nonroot_node _ _ _ _) as [[]].
  - intros X query h self Hinv. exact Hinv.
  - intros h self (t & Ht & Hinv).
    rewrite (is_empty_lookup h self t Ht), (root_lookup h self t Ht).
    destruct t as [r n]. simpl in *. split.
    + intros [= E%Nat.eqb_eq]. apply Hinv in E. now rewrite E.
    + destruct r; [discriminate|]. intros _.
      now rewrite (proj2 Hinv eq_refl).
Qed.

Lemma size_zero_iff_no_root_witness :
  size_root_inv (snd (_add_root 0 "A" heap_no_root)) 0 /\
  size_root_inv (snd (_add_nonroot_node 0 (VPos 0 0) "B" heap_root_A)) 0 /\
  size_root_inv (snd (add_node 0 "B" (VPos 0 0) heap_root_A)) 0 /\
  (is_empty 0 heap_root_A = Ret true <-> root 0 heap_root_A = Ret VNone).
Proof.
  assert (H0 : size_root_inv heap_no_root 0).
  { exists (mk_Tree None 0). split; [reflexivity | easy]. }
  assert (H1 : size_root_inv heap_root_A 0).
  { exists (mk_Tree (Some 0) 1). split; [reflexivity | easy]. }
  assert (Hp : forall n, VPos 0 0 = VPos 0 n -> exists d, linked heap_root_A 0 n d).
  { intros n [= <-]. exists 0.
    apply linked_root with (mk_Tree (Some 0) 1) (mk_Node "A" None None); reflexivity. }
  destruct size_zero_iff_no_root as (_ & Hroot & Hchild & Hnode & _ & Hempty).
  split; [|split; [|split]].
  - apply Hroot, H0.
  - apply Hchild; [exact H1 | exact Hp].
  - apply Hnode; [exact H1 | exact Hp].
  - apply Hempty, H1.
Defined.

End SizeAndRoot.

(** ** Depth and the path to the root *)

Section Paths.
Import LinkedTree.

Lemma is_root_position h self t r n :
  trees h !! self = Some t -> _root t = Some r ->
  is_root self (VPos self n) h = Ret (Nat.eqb r n).
Proof.
  intros Ht Hr. unfold is_root.
  rewrite (R_bind_ret _ _ h _ (root_lookup h self t Ht)). now rewrite Hr.
Qed.

Lemma parent_position h self n nd :
  nodes h !! n = Some nd -> _parent nd <> Some n ->
  parent self (VPos self n) h = Ret (_make_position self (_parent nd)).
Proof.
  intros Hn Hp. unfold parent.
  rewrite (R_bind_ret _ _ h n) by now apply validate_ok with nd.
  now rewrite (R_bind_ret _ _ h nd) by now apply node_at_Some.
Qed.

Lemma path_loop_S fuel self p acc h :
  path_loop (S fuel) self p acc h =
    (b ← is_root self p;
     if b : bool then mret acc
     else q ← parent self p; path_loop fuel self q (acc ++ [q])) h.
Proof. reflexivity. Qed.

(** A linked node is not its own parent. *)
Lemma linked_not_tombstone h self n d nd :
  linked h self n d -> nodes h !! n = Some nd -> _parent nd <> Some n.
Proof.
  destruct 1 as [t r nd' Ht Hr Hn Hp | t r n nd' m d Ht Hr Hne Hn Hp Hm _];
    intros Hn'; assert (nd' = nd) as -> by congruence; rewrite Hp; congruence.
Qed.

Lemma validate_linked h self n d :
  linked h self n d -> _validate self (VPos self n) h = Ret n.
Proof.
  intros Hl.
  assert (exists nd, nodes h !! n = Some nd) as [nd Hn] by (destruct Hl; eauto).
  apply validate_ok with nd; [exact Hn|].
  now apply linked_not_tombstone with h self d.
Qed.

Lemma depth_linked h self n d :
  linked h self n d ->
  forall fuel, d < fuel -> depth fuel self (VPos self n) h = Ret d.
Proof.
  induction 1 as [t r nd Ht Hr Hn Hp | t r n nd m d Ht Hr Hne Hn Hp Hm Hl IH];
    intros [|fuel] Hlt; try lia; rewrite depth_S.
  - rewrite (R_bind_ret _ _ h true); [reflexivity|].
    rewrite (is_root_position h self t r r Ht Hr). now rewrite Nat.eqb_refl.
  - rewrite (R_bind_ret _ _ h false).
    + rewrite (R_bind_ret _ _ h (VPos self m)).
      * rewrite (R_bind_ret _ _ h d); [reflexivity|]. apply IH. lia.
      * rewrite (parent_position h self n nd Hn) by (rewrite Hp; congruence).
        now rewrite Hp.
    + rewrite (is_root_position h self t r n Ht Hr).
      destruct (Nat.eqb_spec r n); [congruence | reflexivity].
Qed.

Lemma path_linked h self n d :
  linked h self n d ->
  forall fuel acc, d < fuel ->
    exists tl,
      path_loop fuel self (VPos self n) acc h = Ret (acc ++ tl) /\
      length tl = d /\ climbs h self (VPos self n) tl.
Proof.
  induction 1 as [t r nd Ht Hr Hn Hp | t r n nd m d Ht Hr Hne Hn Hp Hm Hl IH];
    intros [|fuel] acc Hlt; try lia; rewrite path_loop_S.
  - exists []. rewrite (R_bind_ret _ _ h true).
    + rewrite app_nil_r. repeat split.
      simpl. rewrite (root_lookup h self t Ht). now rewrite Hr.
    + rewrite (is_root_position h self t r r Ht Hr). now rewrite Nat.eqb_refl.
  - assert (Hpar : parent self (VPos self n) h = Ret (VPos self m)).
    { rewrite (parent_position h self n nd Hn) by (rewrite Hp; congruence).
      now rewrite Hp. }
    destruct (IH fuel (acc ++ [VPos self m])) as (tl & Hrun & Hlen & Hcl); [lia|].
    exists (VPos self m :: tl). rewrite (R_bind_ret _ _ h false).
    + rewrite (R_bind_ret _ _ h _ Hpar). rewrite Hrun.
      rewrite <- app_assoc. simpl. repeat split; auto.
    + rewrite (is_root_position h self t r n Ht Hr).
      destruct (Nat.eqb_spec r n); [congruence | reflexivity].
Qed.

Lemma climbs_last h self p tl :
  climbs h self p tl -> exists r, root self h = Ret r /\ last (p :: tl) = Some r.
Proof.
  revert p. induction tl as [|q tl IH]; intros p; simpl.
  - intros Hr. now exists p.
  - intros [_ Hcl]. destruct (IH q Hcl) as (r & Hr & Hlast).
    exists r. split; [exact Hr | exact Hlast].
Qed.

Lemma climbs_parent h self p tl i a b :
  climbs h self p tl ->
  (p :: tl) !! i = Some a -> (p :: tl) !! S i = Some b ->
  parent self a h = Ret b.
Proof.
  revert p i. induction tl as [|q tl IH]; intros p i Hcl Ha Hb.
  - destruct i; discriminate.
  - destruct Hcl as [Hpar Hcl]. destruct i as [|i].
    + simpl in Ha, Hb. congruence.
    + now apply (IH q i).
Qed.

(** C6.  For a position [p] of a tree, [d] parent links below the root,
    [get_path_to_root] returns, as soon as the loop is given more than [d]
    rounds, a list of [depth(p) + 1] positions that starts with [p], ends
    with the position that [root] returns, and in which the [parent] of
    every entry is the next entry. *)
Theorem path_to_root_spec :
  forall h self n d fuel,
    linked h self n d -> d < fuel ->
    exists path r,
      get_path_to_root fuel self (VPos self n) h = Ret path /\
      depth fuel self (VPos self n) h = Ret d /\
      length path = d + 1 /\
      head path = Some (VPos self n) /\
      root self h = Ret r /\
      last path = Some r /\
      (forall i a b, path !! i = Some a -> path !! S i = Some b ->
                     parent self a h = Ret b).
Proof.
  intros h self n d fuel Hl Hlt.
  destruct (path_linked h self n d Hl fuel [VPos self n] Hlt) as (tl & Hrun & Hlen & Hcl).
  destruct (climbs_last h self _ tl Hcl) as (r & Hr & Hlast).
  exists (VPos self n :: tl), r. repeat split.
  - exact Hrun.
  - now apply depth_linked.
  - simpl. lia.
  - exact Hr.
  - exact Hlast.
  - intros i a b. now apply (climbs_parent h self (VPos self n) tl i a b).
Qed.

Lemma path_to_root_spec_witness :
  exists path r,
    get_path_to_root 3 0 (VPos 0 2) heap_chain = Ret path /\
    depth 3 0 (VPos 0 2) heap_chain = Ret 2 /\
    length path = 2 + 1 /\
    head path = Some (VPos 0 2) /\
    root 0 heap_chain = Ret r /\
    last path = Some r /\
    (forall i a b, path !! i = Some a -> path !! S i = Some b ->
                   parent 0 a heap_chain = Ret b).
Proof.
  apply (path_to_root_spec heap_chain 0 2 2 3); [|lia].
  apply linked_step with (t := mk_Tree (Some 0) 3) (r := 0)
    (nd := mk_Node "C" (Some 1) None) (m := 1);
    try reflexivity; try lia.
  apply linked_step with (t := mk_Tree (Some 0) 3) (r := 0)
    (nd := mk_Node "B" (Some 0) (Some [2])) (m := 0);
    try reflexivity; try lia.
  apply linked_root with (t := mk_Tree (Some 0) 3)
    (nd := mk_Node "A" None (Some [1]));
    reflexivity.
Defined.

End Paths.

(** ** The two traversals *)

Section Traversals.
Import LinkedTree.

(** [depth] and [height] on the chain A, B, C. *)
Example depth_height_chain :
  depth 3 0 (VPos 0 2) heap_chain = Ret 2 /\
  height 3 0 VNone heap_chain = Ret 2 /\
  height 3 0 (VPos 0 1) heap_chain = Ret 1 /\
  height 2 0 VNone heap_chain = OutOfFuel.
Proof. repeat split; reflexivity. Qed.

Lemma rose_ind (P : rose -> Prop) :
  (forall e ts, Forall P ts -> P (Rose e ts)) -> forall t, P t.
Proof.
  intros step. fix IH 1. intros [e ts]. apply step.
  induction ts as [|t ts IHts]; constructor; [apply IH | exact IHts].
Qed.

Lemma levels_kids ts :
  Forall (fun t => levels t <= foldr Nat.max 0 (map levels ts)) ts.
Proof.
  induction ts as [|t ts IH]; constructor; simpl; [lia|].
  eapply Forall_impl; [exact IH|]. simpl. intros; lia.
Qed.

Lemma shape_inv h par n e ts :
  shape h par n (Rose e ts) ->
  exists ocs, nodes h !! n = Some (mk_Node e par ocs) /\
              Forall2 (shape h (Some n)) (kids_of ocs) ts.
Proof. inversion 1; subst; eauto. Qed.

Lemma shape_inv_any h par n t :
  shape h par n t -> exists nd, nodes h !! n = Some nd /\ _parent nd = par.
Proof. inversion 1; subst; eauto. Qed.

Lemma children_position h self n nd :
  nodes h !! n = Some nd -> _parent nd <> Some n ->
  children self (VPos self n) h =
    Ret (map (fun c => VPos self c) (kids_of (_children nd))).
Proof.
  intros Hn Hp. unfold children.
  rewrite (R_bind_ret _ _ h n) by now apply validate_ok with nd.
  rewrite (R_bind_ret _ _ h nd) by now apply node_at_Some.
  now destruct (_children nd).
Qed.

(** The children of a linked node are linked, one level further down. *)
Lemma linked_child h self n d c nd ndc :
  linked h self n d ->
  nodes h !! n = Some nd ->
  nodes h !! c = Some ndc -> _parent ndc = Some n ->
  linked h self c (S d).
Proof.
  intros Hl Hn Hc Hpc.
  destruct (linked_has_root h self n d Hl) as (t & r & ndr & Ht & Hr & Hnr & Hpr).
  pose proof (linked_not_tombstone h self n d nd Hl Hn) as Hns.
  apply linked_step with (t := t) (r := r) (nd := ndc) (m := n); auto.
  - intros ->. congruence.
  - intros ->. congruence.
Qed.

Lemma node_line_linked h self n d nd dfuel :
  linked h self n d -> nodes h !! n = Some nd -> d < dfuel ->
  node_line dfuel self (VPos self n) h = ([line_of d (_element nd)], Ret tt).
Proof.
  intros Hl Hn Hlt. unfold node_line.
  rewrite (readG_ret _ _ h d) by now apply depth_linked.
  rewrite (readG_ret _ _ h n) by now apply validate_linked with d.
  now rewrite (readG_ret _ _ h nd) by now apply node_at_Some.
Qed.

Lemma forG_lines (f : pyobj -> G unit) (g : rose -> list string) self h cs ts :
  Forall2 (fun c t => f (VPos self c) h = (g t, Ret tt)) cs ts ->
  forG f (map (fun c => VPos self c) cs) h = (flat_map g ts, Ret tt).
Proof.
  induction 1 as [|c t cs ts Hc _ IH]; [reflexivity|].
  simpl. rewrite (G_bind_ret _ _ h _ tt Hc). now rewrite IH.
Qed.

Lemma preorder_S dfuel fuel self p h :
  _traverse_preorder dfuel (S fuel) self p h =
    (node_line dfuel self p;;
     cs ← readG (children self p);
     forG (_traverse_preorder dfuel fuel self) cs) h.
Proof. reflexivity. Qed.

Lemma postorder_S dfuel fuel self p h :
  _traverse_postorder dfuel (S fuel) self p h =
    (cs ← readG (children self p);
     forG (_traverse_postorder dfuel fuel self) cs;;
     node_line dfuel self p) h.
Proof. reflexivity. Qed.

Section Walk.
Variables (h : heap) (self : addr).

(** What the induction carries from a node to its children. *)
Lemma kids_walk (walk : nat -> pyobj -> G unit) (lines : nat -> rose -> list string)
    n d nd ts fuel dfuel :
  linked h self n d -> nodes h !! n = Some nd ->
  Forall2 (shape h (Some n)) (kids_of (_children nd)) ts ->
  Forall (fun t => forall par c d' fuel',
            shape h par c t -> linked h self c d' ->
            levels t <= fuel' -> d' + levels t <= dfuel ->
            walk fuel' (VPos self c) h = (lines d' t, Ret tt)) ts ->
  foldr Nat.max 0 (map levels ts) <= fuel ->
  S d + foldr Nat.max 0 (map levels ts) <= dfuel ->
  forG (walk fuel) (map (fun c => VPos self c) (kids_of (_children nd))) h =
    (flat_map (lines (S d)) ts, Ret tt).
Proof.
  intros Hl Hn Hkids IH Hfuel Hdfuel. apply forG_lines.
  assert (Hlev : Forall (fun t => levels t <= fuel /\ S d + levels t <= dfuel) ts).
  { eapply Forall_impl; [apply levels_kids|]. simpl. intros; lia. }
  clear Hfuel Hdfuel.
  induction Hkids as [|c t cs ts' Hc _ IHk]; constructor.
  - apply Forall_cons in IH as [IHt _]. apply Forall_cons in Hlev as [[Hf Hd] _].
    apply IHt with (Some n); [exact Hc | | exact Hf | exact Hd].
    destruct (shape_inv_any h (Some n) c t Hc) as (ndc & Hndc & Hpc).
    now apply linked_child with n nd ndc.
  - apply Forall_cons in IH as [_ IH']. apply Forall_cons in Hlev as [_ Hlev'].
    now apply IHk.
Qed.

End Walk.

Lemma preorder_shape h self t :
  forall par n d fuel dfuel,
    shape h par n t -> linked h self n d ->
    levels t <= fuel -> d + levels t <= dfuel ->
    _traverse_preorder dfuel fuel self (VPos self n) h = (pre_lines d t, Ret tt).
Proof.
  induction t as [e ts IH] using rose_ind.
  intros par n d [|fuel] dfuel Hs Hl Hfuel Hdfuel; simpl in Hfuel, Hdfuel; [lia|].
  destruct (shape_inv h par n e ts Hs) as (ocs & Hn & Hkids).
  rewrite preorder_S.
  rewrite (G_bind_ret _ _ h _ tt (node_line_linked h self n d _ dfuel Hl Hn ltac:(lia))).
  rewrite (readG_ret _ _ h _
             (children_position h self n _ Hn (linked_not_tombstone h self n d _ Hl Hn))).
  rewrite (kids_walk h self (fun f => _traverse_preorder dfuel f self) pre_lines
             n d _ ts fuel dfuel Hl Hn Hkids); [reflexivity | | lia | lia].
  eapply Forall_impl; [exact IH|]. simpl. intros t Ht par' c d' fuel'. apply Ht.
Qed.

Lemma postorder_shape h self t :
  forall par n d fuel dfuel,
    shape h par n t -> linked h self n d ->
    levels t <= fuel -> d + levels t <= dfuel ->
    _traverse_postorder dfuel fuel self (VPos self n) h = (post_lines d t, Ret tt).
Proof.
  induction t as [e ts IH] using rose_ind.
  intros par n d [|fuel] dfuel Hs Hl Hfuel Hdfuel; simpl in Hfuel, Hdfuel; [lia|].
  destruct (shape_inv h par n e ts Hs) as (ocs & Hn & Hkids).
  rewrite postorder_S.
  rewrite (readG_ret _ _ h _
             (children_position h self n _ Hn (linked_not_tombstone h self n d _ Hl Hn))).
  rewrite (G_bind_ret _ _ h (flat_map (post_lines (S d)) ts) tt).
  - now rewrite (node_line_linked h self n d _ dfuel Hl Hn ltac:(lia)).
  - apply (kids_walk h self (fun f => _traverse_postorder dfuel f self) post_lines
             n d _ ts fuel dfuel Hl Hn Hkids); [| lia | lia].
    eapply Forall_impl; [exact IH|]. simpl. intros t Ht par' c d' fuel'. apply Ht.
Qed.

Lemma pre_lines_length t : forall d, length (pre_lines d t) = rose_size t.
Proof.
  induction t as [e ts IH] using rose_ind. intros d. simpl. f_equal.
  induction IH as [|t ts Ht _ IHts]; [reflexivity|].
  simpl. rewrite length_app, Ht, IHts. reflexivity.
Qed.

Lemma post_lines_length t : forall d, length (post_lines d t) = rose_size t.
Proof.
  induction t as [e ts IH] using rose_ind. intros d. simpl.
  rewrite length_app. simpl. rewrite Nat.add_1_r. f_equal.
  induction IH as [|t ts Ht _ IHts]; [reflexivity|].
  simpl. rewrite length_app, Ht, IHts. reflexivity.
Qed.

(** C5.  When the nodes under the root of a tree have the shape of [t],
    [all_nodes] completes in both modes, as soon as the fuel covers the
    levels of [t], with the lines of the depth-first walk of [t]: one line
    per node, made of as many TABs as the node lies below the root, its
    label and a line feed; children are taken in the order of the child
    list, the node comes before them in pre-order and after them in
    post-order.  For the root A with the children B and C added in that
    order the lines are A, TAB B, TAB C and TAB B, TAB C, A. *)
Theorem traversal_lines :
  (forall h self tr r t fuel,
     trees h !! self = Some tr -> _root tr = Some r ->
     shape h None r t -> levels t <= fuel ->
     all_nodes fuel self "pre" h = (pre_lines 0 t, Ret tt) /\
     all_nodes fuel self "post" h = (post_lines 0 t, Ret tt) /\
     length (pre_lines 0 t) = rose_size t /\
     length (post_lines 0 t) = rose_size t) /\
  (forall d e ts,
     pre_lines d (Rose e ts) =
       (PyStr.tabs d +:+ e +:+ LF) :: flat_map (pre_lines (S d)) ts /\
     post_lines d (Rose e ts) =
       flat_map (post_lines (S d)) ts ++ [PyStr.tabs d +:+ e +:+ LF]) /\
  (build_ABC empty_heap = (Ret 0, heap_ABC) /\
   shape heap_ABC None 0 (Rose "A" [Rose "B" []; Rose "C" []]) /\
   all_nodes 2 0 "pre" heap_ABC =
     (["A" +:+ LF; TAB +:+ "B" +:+ LF; TAB +:+ "C" +:+ LF], Ret tt) /\
   all_nodes 2 0 "post" heap_ABC =
     ([TAB +:+ "B" +:+ LF; TAB +:+ "C" +:+ LF; "A" +:+ LF], Ret tt)).
Proof.
  split; [|split].
  - intros h self tr r t fuel Ht Hr Hs Hfuel.
    destruct (shape_inv_any h None r t Hs) as (nd & Hn & Hp).
    assert (Hl : linked h self r 0) by now apply linked_root with tr nd.
    assert (Hroot : root self h = Ret (VPos self r))
      by (rewrite (root_lookup h self tr Ht); now rewrite Hr).
    repeat split.
    + rewrite all_nodes_pre, (readG_ret _ _ h _ Hroot).
      now apply preorder_shape with None.
    + rewrite all_nodes_post, (readG_ret _ _ h _ Hroot).
      now apply postorder_shape with None.
    + apply pre_lines_length.
    + apply post_lines_length.
  - intros d e ts. split; reflexivity.
  - split; [reflexivity|]. split; [|split; reflexivity].
    apply shape_node with (ocs := Some [1; 2]); [reflexivity|].
    repeat constructor.
    + apply shape_node with (ocs := None); [reflexivity | constructor].
    + apply shape_node with (ocs := None); [reflexivity | constructor].
Qed.

Lemma traversal_lines_witness :
  all_nodes 3 0 "pre" heap_chain =
    (["A" +:+ LF; TAB +:+ "B" +:+ LF; TAB +:+ TAB +:+ "C" +:+ LF], Ret tt) /\
  all_nodes 3 0 "post" heap_chain =
    ([TAB +:+ TAB +:+ "C" +:+ LF; TAB +:+ "B" +:+ LF; "A" +:+ LF], Ret tt).
Proof.
  assert (Hs : shape heap_chain None 0 (Rose "A" [Rose "B" [Rose "C" []]])).
  { apply shape_node with (ocs := Some [1]); [reflexivity|].
    constructor; [|constructor].
    apply shape_node with (ocs := Some [2]); [reflexivity|].
    constructor; [|constructor].
    apply shape_node with (ocs := None); [reflexivity|]. constructor. }
  destruct (proj1 traversal_lines heap_chain 0 (mk_Tree (Some 0) 3) 0
              (Rose "A" [Rose "B" [Rose "C" []]]) 3 eq_refl eq_refl Hs)
    as (Hpre & Hpost & _).
  - simpl. lia.
  - split; [exact Hpre | exact Hpost].
Defined.

End Traversals.

(** ** Adding a child *)

Section AddChild.
Import LinkedTree.

Lemma validate_agree h h' self p n :
  agree h h' -> _validate self p h = Ret n -> _validate self p h' = Ret n.
Proof.
  intros Hag Hv. destruct (validate_Ret self p h n Hv) as (-> & nd & Hn & Hp).
  destruct (Hag n nd Hn) as (nd' & Hn' & _ & Hp').
  apply validate_ok with nd'; [exact Hn' | now rewrite Hp'].
Qed.

Lemma find_first_S self e c cs h :
  find_first self e (c :: cs) h =
    (node ← _validate self c;
     nd ← node_at node;
     if String.eqb (_element nd) e then mret c else find_first self e cs) h.
Proof. reflexivity. Qed.

Lemma find_first_agree h h' self e cs v :
  agree h h' -> find_first self e cs h = Ret v -> find_first self e cs h' = Ret v.
Proof.
  intros Hag. induction cs as [|c cs IH]; [trivial|].
  rewrite !find_first_S.
  destruct (_validate self c h) as [n| | |] eqn:Hv;
    unfold mbind at 1, R_bind at 1; rewrite Hv; try discriminate.
  destruct (validate_Ret self c h n Hv) as (-> & nd & Hn & Hp).
  destruct (Hag n nd Hn) as (nd' & Hn' & He' & Hp').
  rewrite (R_bind_ret _ _ h' n) by now apply validate_agree with h.
  rewrite (R_bind_ret _ _ h nd) by now apply node_at_Some.
  rewrite (R_bind_ret _ _ h' nd') by now apply node_at_Some.
  rewrite He'. destruct (String.eqb (_element nd) e); [trivial | exact IH].
Qed.

Lemma find_first_app self e cs cs' h :
  find_first self e cs h = Ret (VBool false) ->
  find_first self e (cs ++ cs') h = find_first self e cs' h.
Proof.
  induction cs as [|c cs IH]; [trivial|].
  simpl app. rewrite !find_first_S.
  unfold mbind, R_bind.
  destruct (_validate self c h) as [n| | |] eqn:Hv; try discriminate.
  destruct (node_at n h) as [nd| | |]; try discriminate.
  destruct (String.eqb (_element nd) e); [|exact IH].
  intros [= ->]. discriminate.
Qed.

(** A successful lookup answers a position, which counts as true, or
    [False]. *)
Lemma find_first_value self e cs h v :
  find_first self e cs h = Ret v -> truthy v = false -> v = VBool false.
Proof.
  induction cs as [|c cs IH]; [now intros [= <-]|].
  rewrite find_first_S. unfold mbind, R_bind.
  destruct (_validate self c h) as [n| | |] eqn:Hv; try discriminate.
  destruct (node_at n h) as [nd| | |]; try discriminate.
  destruct (String.eqb (_element nd) e); [|exact IH].
  intros [= <-]. destruct (validate_Ret self c h n Hv) as [-> _]. discriminate.
Qed.

Lemma agree_refl h : agree h h.
Proof. intros n nd Hn. eauto. Qed.

Lemma agree_store_children h n nd cs :
  nodes h !! n = Some nd ->
  agree h (mk_heap (<[n := mk_Node (_element nd) (_parent nd) cs]> (nodes h)) (trees h)).
Proof.
  intros Hn m ndm Hm. simpl. destruct (decide (m = n)) as [->|Hne].
  - assert (ndm = nd) as -> by congruence.
    eexists. split; [apply list_lookup_insert_eq; eapply lookup_lt_Some; eassumption|].
    split; reflexivity.
  - exists ndm. split; [|split; reflexivity].
    now rewrite list_lookup_insert_ne by congruence.
Qed.

Lemma ensure_list_node h n nd :
  nodes h !! n = Some nd ->
  nodes (ensure_list h n nd) !! n =
    Some (mk_Node (_element nd) (_parent nd) (Some (kids_of (_children nd)))).
Proof.
  intros Hn. unfold ensure_list. destruct nd as [e par [cs|]]; simpl; [exact Hn|].
  apply list_lookup_insert_eq. eapply lookup_lt_Some; eassumption.
Qed.

Lemma ensure_list_agree h n nd :
  nodes h !! n = Some nd -> agree h (ensure_list h n nd).
Proof.
  intros Hn. unfold ensure_list.
  destruct (_children nd); [apply agree_refl | now apply agree_store_children].
Qed.

Lemma ensure_list_trees h n nd : trees (ensure_list h n nd) = trees h.
Proof. unfold ensure_list. now destruct (_children nd). Qed.

Lemma set_size_run h self t k :
  trees h !! self = Some t ->
  set_size self k h =
    (Ret tt, mk_heap (nodes h) (<[self := mk_Tree (_root t) k]> (trees h))).
Proof.
  intros Ht. unfold set_size.
  now rewrite (readM_ret _ _ h t) by now apply tree_at_Some.
Qed.

Lemma append_child_run h n nd cs c :
  nodes h !! n = Some nd -> _children nd = Some cs ->
  append_child n c h =
    (Ret tt, mk_heap (<[n := mk_Node (_element nd) (_parent nd) (Some (cs ++ [c]))]>
                        (nodes h)) (trees h)).
Proof.
  intros Hn Hc. unfold append_child.
  rewrite (readM_ret _ _ h nd) by now apply node_at_Some.
  rewrite Hc. unfold set_children.
  now rewrite (readM_ret _ _ h nd) by now apply node_at_Some.
Qed.

(** [_add_nonroot_node] on a valid position, step by step. *)
Lemma add_nonroot_run self n nd e h :
  nodes h !! n = Some nd -> _parent nd <> Some n ->
  _add_nonroot_node self (VPos self n) e h =
    let ha := ensure_list h n nd in
    match find_first self e (map (fun c => VPos self c) (kids_of (_children nd))) ha with
    | Ret found =>
        if truthy found then (Ret VNone, ha)
        else match trees ha !! self with
             | Some t =>
                 (Ret (VPos self (length (nodes ha))),
                  grown ha self t n
                    (mk_Node (_element nd) (_parent nd) (Some (kids_of (_children nd)))) e)
             | None => (Stuck, ha)
             end
    | Raise x => (Raise x, ha)
    | Stuck => (Stuck, ha)
    | OutOfFuel => (OutOfFuel, ha)
    end.
Proof.
  intros Hn Hp. cbv zeta.
  pose proof (ensure_list_node h n nd Hn) as Hna.
  set (nda := mk_Node (_element nd) (_parent nd) (Some (kids_of (_children nd)))) in *.
  assert (Hpa : _parent nda <> Some n) by exact Hp.
  unfold _add_nonroot_node.
  rewrite (readM_ret _ _ h n) by now apply validate_ok with nd.
  rewrite (readM_ret _ _ h nd) by now apply node_at_Some.
  assert (Hprep : (match _children nd with
                   | Some _ => mret tt
                   | None => set_children n (Some [])
                   end) h = (Ret tt, ensure_list h n nd)).
  { unfold ensure_list, set_children. destruct (_children nd); [reflexivity|].
    now rewrite (readM_ret _ _ h nd) by now apply node_at_Some. }
  rewrite (M_bind_ret _ _ h tt _ Hprep).
  set (ha := ensure_list h n nd) in *.
  assert (Hfind : find_child_by_value self (VPos self n) e ha =
                  find_first self e (map (fun c => VPos self c) (kids_of (_children nd))) ha).
  { unfold find_child_by_value.
    now rewrite (R_bind_ret _ _ ha _ (children_position ha self n nda Hna Hpa)). }
  unfold mbind at 1, M_bind at 1, readM at 1. rewrite Hfind.
  destruct (find_first _ _ _ ha) as [found| | |]; try reflexivity.
  destruct (truthy found); [reflexivity|].
  unfold __len__.
  destruct (trees ha !! self) as [t|] eqn:Ht.
  - rewrite (readM_ret _ _ ha (_size t))
      by now rewrite (R_bind_ret _ _ ha t) by now apply tree_at_Some.
    rewrite (M_bind_ret _ _ ha tt _ (set_size_run ha self t _ Ht)).
    unfold alloc_node. unfold mbind at 1, M_bind at 1. cbn [nodes trees].
    set (hb := mk_heap (nodes ha ++ [mk_Node e (Some n) None])
                       (<[self := mk_Tree (_root t) (_size t + 1)]> (trees ha))).
    assert (Hnb : nodes hb !! n = Some nda).
    { unfold hb. simpl. rewrite lookup_app_l; [exact Hna|].
      eapply lookup_lt_Some; eassumption. }
    now rewrite (M_bind_ret _ _ hb tt _
                   (append_child_run hb n nda _ (length (nodes ha)) Hnb eq_refl)).
  - unfold mbind, M_bind, R_bind, readM, tree_at. now rewrite Ht.
Qed.

Lemma grown_agree h self t n nd e :
  nodes h !! n = Some nd -> agree h (grown h self t n nd e).
Proof.
  intros Hn m ndm Hm. unfold grown. simpl.
  assert (Hlt : m < length (nodes h)) by (eapply lookup_lt_Some; eassumption).
  destruct (decide (m = n)) as [->|Hne].
  - assert (ndm = nd) as -> by congruence.
    eexists. split; [apply list_lookup_insert_eq; rewrite length_app; lia|].
    split; reflexivity.
  - exists ndm. split; [|split; reflexivity].
    rewrite list_lookup_insert_ne by congruence. now rewrite lookup_app_l.
Qed.

(** Once [_add_nonroot_node] has returned, a second call with the same
    arguments finds the child, changes nothing and answers [None]. *)
Lemma add_nonroot_again h self p e v1 h1 :
  _add_nonroot_node self p e h = (Ret v1, h1) ->
  _add_nonroot_node self p e h1 = (Ret VNone, h1).
Proof.
  intros Hrun.
  assert (exists n, _validate self p h = Ret n) as [n Hv].
  { unfold _add_nonroot_node, mbind, M_bind, readM in Hrun.
    destruct (_validate self p h); try discriminate. eauto. }
  destruct (validate_Ret self p h n Hv) as (-> & nd & Hn & Hp).
  rewrite (add_nonroot_run self n nd e h Hn Hp) in Hrun. cbv zeta in Hrun.
  pose proof (ensure_list_node h n nd Hn) as Hna.
  set (cs := kids_of (_children nd)) in *.
  set (nda := mk_Node (_element nd) (_parent nd) (Some cs)) in *.
  set (ha := ensure_list h n nd) in *.
  destruct (find_first self e (map (fun c => VPos self c) cs) ha)
    as [found| | |] eqn:Hfind; try discriminate.
  destruct (truthy found) eqn:Htruth.
  - injection Hrun as <- <-.
    rewrite (add_nonroot_run self n nda e ha Hna Hp). cbv zeta.
    change (ensure_list ha n nda) with ha. change (kids_of (_children nda)) with cs.
    now rewrite Hfind, Htruth.
  - destruct (trees ha !! self) as [t|] eqn:Ht; [|discriminate].
    injection Hrun as <- <-.
    pose proof (find_first_value self e _ ha found Hfind Htruth) as ->.
    set (N := length (nodes ha)). set (h1 := grown ha self t n nda e).
    assert (HnN : n < N) by (eapply lookup_lt_Some; eassumption).
    set (nd1 := mk_Node (_element nd) (_parent nd) (Some (cs ++ [N]))).
    assert (Hn1 : nodes h1 !! n = Some nd1).
    { unfold h1, grown. simpl. apply list_lookup_insert_eq. rewrite length_app. lia. }
    assert (HN1 : nodes h1 !! N = Some (mk_Node e (Some n) None)).
    { unfold h1, grown. simpl. rewrite list_lookup_insert_ne by lia. apply lookup_fresh. }
    rewrite (add_nonroot_run self n nd1 e h1 Hn1 Hp). cbv zeta.
    change (ensure_list h1 n nd1) with h1.
    change (kids_of (_children nd1)) with (cs ++ [N]).
    rewrite map_app.
    rewrite find_first_app
      by (apply find_first_agree with ha; [now apply grown_agree | exact Hfind]).
    simpl map. rewrite find_first_S.
    rewrite (R_bind_ret _ _ h1 N)
      by (apply validate_ok with (mk_Node e (Some n) None); [exact HN1|];
          simpl; intros [= E]; lia).
    rewrite (R_bind_ret _ _ h1 _ (node_at_Some h1 N _ HN1)).
    cbn [_element]. now rewrite String.eqb_refl.
Qed.

Lemma agree_trans h1 h2 h3 : agree h1 h2 -> agree h2 h3 -> agree h1 h3.
Proof.
  intros H12 H23 n nd Hn.
  destruct (H12 n nd Hn) as (nd2 & Hn2 & He2 & Hp2).
  destruct (H23 n nd2 Hn2) as (nd3 & Hn3 & He3 & Hp3).
  exists nd3. repeat split; congruence.
Qed.

(** Being linked depends on the parent slots and on the root only. *)
Lemma linked_agree h h' self n d :
  agree h h' ->
  (forall t, trees h !! self = Some t ->
             exists t', trees h' !! self = Some t' /\ _root t' = _root t) ->
  linked h self n d -> linked h' self n d.
Proof.
  intros Hag Hroot.
  induction 1 as [t r nd Ht Hr Hn Hp | t r n nd m d Ht Hr Hne Hn Hp Hm _ IH];
    destruct (Hroot t Ht) as (t' & Ht' & Hr');
    destruct (Hag _ nd Hn) as (nd' & Hn' & _ & Hp').
  - apply linked_root with (t := t') (nd := nd'); congruence.
  - apply linked_step with (t := t') (r := r) (nd := nd') (m := m);
      auto; congruence.
Qed.

(** The positions of a tree stay positions of the tree when a child is
    added, and the position that [_add_nonroot_node] returns is one of them,
    one level below [p]. *)
Lemma add_nonroot_linked h self n d e v h1 :
  linked h self n d ->
  _add_nonroot_node self (VPos self n) e h = (Ret v, h1) ->
  (forall m k, linked h self m k -> linked h1 self m k) /\
  (forall c, v = VPos self c -> linked h1 self c (S d)).
Proof.
  intros Hl Hrun.
  assert (exists nd, nodes h !! n = Some nd) as [nd Hn] by (destruct Hl; eauto).
  pose proof (linked_not_tombstone h self n d nd Hl Hn) as Hp.
  rewrite (add_nonroot_run self n nd e h Hn Hp) in Hrun. cbv zeta in Hrun.
  pose proof (ensure_list_node h n nd Hn) as Hna.
  pose proof (ensure_list_agree h n nd Hn) as Hag.
  pose proof (ensure_list_trees h n nd) as Htr.
  set (ha := ensure_list h n nd) in *.
  destruct (find_first _ _ _ ha) as [found| | |]; try discriminate.
  destruct (truthy found).
  - injection Hrun as <- <-. split; [|discriminate].
    intros m k. apply linked_agree; [exact Hag|].
    intros t Ht. exists t. now rewrite Htr.
  - destruct (trees ha !! self) as [t|] eqn:Ht; [|discriminate].
    injection Hrun as <- <-.
    set (nda := mk_Node (_element nd) (_parent nd) (Some (kids_of (_children nd)))) in *.
    assert (Hkeep : forall m k, linked h self m k -> linked (grown ha self t n nda e) self m k).
    { intros m k. apply linked_agree.
      - apply agree_trans with ha; [exact Hag | now apply grown_agree].
      - intros t0 Ht0. rewrite <- Htr, Ht in Ht0. injection Ht0 as <-.
        exists (mk_Tree (_root t) (_size t + 1)). split; [|reflexivity].
        unfold grown. simpl.
        apply list_lookup_insert_eq. eapply lookup_lt_Some; eassumption. }
    split; [exact Hkeep|].
    intros c [= <-].
    assert (HnN : n < length (nodes ha)) by (eapply lookup_lt_Some; eassumption).
    apply linked_child with (n := n) (nd := mk_Node (_element nd) (_parent nd)
             (Some (kids_of (_children nd) ++ [length (nodes ha)])))
           (ndc := mk_Node e (Some n) None).
    + now apply Hkeep.
    + unfold grown. simpl. apply list_lookup_insert_eq. rewrite length_app. lia.
    + unfold grown. simpl. rewrite list_lookup_insert_ne by lia. apply lookup_fresh.
    + reflexivity.
Qed.

(** C3.  A second [_add_nonroot_node] with the same position and label
    leaves the store exactly as the first call left it, so the size and the
    children of [p] stay the same; but it answers [None], not the position
    of the child: the duplicate branch ends in a bare [return].  After the
    root A, adding B twice answers the position of B and then [None]. *)
Theorem add_child_twice :
  (forall h self p e v1 h1,
     _add_nonroot_node self p e h = (Ret v1, h1) ->
     _add_nonroot_node self p e h1 = (Ret VNone, h1)) /\
  _add_nonroot_node 0 (VPos 0 0) "B" heap_root_A = (Ret (VPos 0 1), heap_AB) /\
  _add_nonroot_node 0 (VPos 0 0) "B" heap_AB = (Ret VNone, heap_AB) /\
  py_eq VNone (VPos 0 1) = false.
Proof.
  split; [exact add_nonroot_again|]. repeat split; reflexivity.
Qed.

Lemma add_child_twice_witness :
  _add_nonroot_node 0 (VPos 0 1) "C" heap_chain = (Ret VNone, heap_chain).
Proof.
  apply (proj1 add_child_twice heap_AB 0 (VPos 0 1) "C" (VPos 0 2) heap_chain).
  reflexivity.
Defined.

End AddChild.

(** ** The cursor of the construction *)

Section Cursor.
Import LinkedTree ProductCategorizer.

(** The two branches that [fill_label] takes for a label that is not the
    label of the root.  When the lookup under the cursor answers [False] the
    label is added under the cursor and the cursor stays; when it finds a
    child, the new cursor is the answer of a second lookup, made under the
    root. *)
Lemma fill_label_branches tree cursor node h t r rnd found :
  trees h !! tree = Some t -> _root t = Some r ->
  nodes h !! r = Some rnd -> _parent rnd <> Some r ->
  _element rnd <> PyStr.strip node ->
  find_child_by_value tree cursor (PyStr.strip node) h = Ret found ->
  fill_label tree cursor node h =
    if is_False found
    then (add_node tree (PyStr.strip node) cursor;; mret cursor) h
    else (find_child_by_value tree (VPos tree r) (PyStr.strip node) h, h).
Proof.
  intros Ht Hr Hn Hp Hne Hfind. unfold fill_label.
  assert (Hroot : root tree h = Ret (VPos tree r))
    by (rewrite (root_lookup h tree t Ht); now rewrite Hr).
  rewrite (readM_ret _ _ h _ Hroot).
  rewrite (readM_ret _ _ h r) by now apply validate_ok with rnd.
  rewrite (readM_ret _ _ h _ (node_at_Some h r rnd Hn)).
  destruct (String.eqb_spec (_element rnd) (PyStr.strip node)) as [E|_];
    [now destruct Hne|].
  rewrite (readM_ret _ _ h _ Hfind).
  destruct (is_False found); [reflexivity|].
  now rewrite (readM_ret _ _ h _ Hroot).
Qed.

(** C1.  With the lines A / A,B / A,B,C the tree is the chain A, B, C and
    the cursor is at B.  The label C of a further line A,B,C is not the
    label of the root and the cursor B has the child C, yet the cursor does
    not move to that child: it receives the answer of a lookup under the
    root, which is [False].  A line A,B,C,D therefore ends in the error of
    [_validate] instead of placing D under C. *)
Theorem cursor_after_found_child :
  fill_tree ["A" +:+ LF; "A,B" +:+ LF; "A,B,C" +:+ LF] empty_heap =
    (Ret (0, VPos 0 1), heap_chain) /\
  find_child_by_value 0 (VPos 0 1) "C" heap_chain = Ret (VPos 0 2) /\
  fill_label 0 (VPos 0 1) ("C" +:+ LF) heap_chain = (Ret (VBool false), heap_chain) /\
  fill_tree ["A" +:+ LF; "A,B" +:+ LF; "A,B,C" +:+ LF; "A,B,C" +:+ LF] empty_heap =
    (Ret (0, VBool false), heap_chain) /\
  fill_tree ["A" +:+ LF; "A,B" +:+ LF; "A,B,C" +:+ LF; "A,B,C,D" +:+ LF] empty_heap =
    (Raise not_a_position, heap_chain).
Proof. repeat split; reflexivity. Qed.

End Cursor.

(** ** Children, their number and their parent *)

Section Children.
Import LinkedTree.

(** X1.  [num_children(p)] is the length of the iteration of [children(p)]
    and [is_leaf(p)] says whether that iteration is empty, for every
    argument: the three methods fail together, with the same error. *)
Theorem children_count :
  forall h self p,
    num_children self p h = (cs ← children self p; mret (length cs)) h /\
    is_leaf self p h =
      (cs ← children self p; mret (match cs with [] => true | _ => false end)) h.
Proof.
  intros h self p.
  assert (Hnum : num_children self p h = (cs ← children self p; mret (length cs)) h).
  { unfold num_children, children, mbind, R_bind.
    destruct (_validate self p h) as [n| | |]; try reflexivity.
    destruct (node_at n h) as [nd| | |]; try reflexivity.
    destruct (_children nd) as [cs|]; [|reflexivity].
    unfold mret, R_ret. now rewrite length_map. }
  split; [exact Hnum|].
  unfold is_leaf, mbind, R_bind. rewrite Hnum. unfold mbind, R_bind.
  destruct (children self p h) as [cs| | |]; try reflexivity.
  now destruct cs.
Qed.

Lemma init_consistent h : consistent h -> consistent (snd (__init__ h)).
Proof. intros Hc. exact Hc. Qed.

Lemma add_root_no_tree h self e :
  trees h !! self = None -> _add_root self e h = (Stuck, h).
Proof.
  intros Ht. unfold _add_root, mbind, M_bind, readM, tree_at. now rewrite Ht.
Qed.

Lemma add_root_consistent h self e :
  consistent h -> consistent (snd (_add_root self e h)).
Proof.
  intros Hc.
  destruct (trees h !! self) as [t|] eqn:Ht;
    [|now rewrite (add_root_no_tree h self e Ht)].
  destruct (_root t) as [r|] eqn:Hr;
    [now rewrite (add_root_exists h self t r e Ht Hr)|].
  rewrite (add_root_fresh h self t e Ht Hr). simpl.
  intros n nd c Hn Hin. simpl in Hn.
  destruct (decide (n < length (nodes h))) as [Hlt|Hge].
  - rewrite lookup_app_l in Hn by exact Hlt.
    destruct (Hc n nd c Hn Hin) as (ndc & Hndc & Hpc & Hne).
    exists ndc. split; [|now split].
    cbn [nodes]. now apply lookup_app_l_Some.
  - rewrite lookup_app_r in Hn by lia.
    destruct (n - length (nodes h)) as [|k]; simpl in Hn.
    + injection Hn as <-. simpl in Hin. now apply elem_of_nil in Hin.
    + discriminate.
Qed.

Lemma keeps_ret (P : heap -> Prop) {A} (a : A) : keeps P (mret a : M A).
Proof. intros h Hh. exact Hh. Qed.

Lemma keeps_read (P : heap -> Prop) {A} (c : R A) : keeps P (readM c).
Proof. intros h Hh. exact Hh. Qed.

Lemma keeps_bind (P : heap -> Prop) {A B} (c : M A) (k : A -> M B) :
  keeps P c -> (forall a, keeps P (k a)) -> keeps P (c ≫= k).
Proof.
  intros Hc Hk h Hh. specialize (Hc h Hh). unfold mbind, M_bind.
  destruct (c h) as [[a| | |] h']; simpl in *; try exact Hc.
  now apply Hk.
Qed.

(** Where [_add_nonroot_node] can leave the store: untouched, with the
    child list of [p] made a list, or with the new node appended to it. *)
Lemma add_nonroot_store self p e h :
  snd (_add_nonroot_node self p e h) = h \/
  exists n nd,
    p = VPos self n /\ nodes h !! n = Some nd /\ _parent nd <> Some n /\
    (snd (_add_nonroot_node self p e h) = ensure_list h n nd \/
     exists t,
       trees (ensure_list h n nd) !! self = Some t /\
       find_first self e (map (fun c => VPos self c) (kids_of (_children nd)))
         (ensure_list h n nd) = Ret (VBool false) /\
       _add_nonroot_node self p e h =
         (Ret (VPos self (length (nodes (ensure_list h n nd)))),
          grown (ensure_list h n nd) self t n
            (mk_Node (_element nd) (_parent nd) (Some (kids_of (_children nd)))) e)).
Proof.
  destruct (_validate self p h) as [n| | |] eqn:Hv.
  2-4: left; unfold _add_nonroot_node, mbind, M_bind, readM; now rewrite Hv.
  destruct (validate_Ret self p h n Hv) as (-> & nd & Hn & Hp).
  right. exists n, nd. repeat split; try assumption.
  rewrite (add_nonroot_run self n nd e h Hn Hp). cbv zeta.
  destruct (find_first _ _ _ _) as [found| | |] eqn:Hfind; auto.
  destruct (truthy found) eqn:Htruth; auto.
  destruct (trees _ !! self) as [t|] eqn:Ht; auto.
  right. exists t. split; [reflexivity|].
  pose proof (find_first_value self e _ _ found Hfind Htruth) as ->.
  split; reflexivity.
Qed.

Lemma ensure_list_consistent h n nd :
  nodes h !! n = Some nd -> consistent h -> consistent (ensure_list h n nd).
Proof.
  intros Hn Hc. unfold ensure_list.
  destruct (_children nd) as [cs|] eqn:Hcs; [exact Hc|].
  intros m ndm c Hm Hin. simpl in Hm.
  assert (Hlt : n < length (nodes h)) by (eapply lookup_lt_Some; eassumption).
  destruct (decide (m = n)) as [->|Hne].
  - rewrite list_lookup_insert_eq in Hm by exact Hlt. injection Hm as <-.
    simpl in Hin. now apply elem_of_nil in Hin.
  - rewrite list_lookup_insert_ne in Hm by congruence.
    destruct (Hc m ndm c Hm Hin) as (ndc & Hndc & Hpc & Hcm).
    destruct (agree_store_children h n nd (Some []) Hn c ndc Hndc)
      as (ndc' & Hndc' & _ & Hpc').
    exists ndc'. repeat split; congruence.
Qed.

Lemma grown_consistent h self t n nd e :
  nodes h !! n = Some nd -> consistent h -> consistent (grown h self t n nd e).
Proof.
  intros Hn Hc m ndm c Hm Hin.
  assert (Hlt : n < length (nodes h)) by (eapply lookup_lt_Some; eassumption).
  pose proof (grown_agree h self t n nd e Hn) as Hag.
  assert (Hold : forall k ndk c', nodes h !! k = Some ndk ->
                   c' ∈ kids_of (_children ndk) ->
                   exists ndc, nodes (grown h self t n nd e) !! c' = Some ndc /\
                               _parent ndc = Some k /\ c' <> k).
  { intros k ndk c' Hk Hin'.
    destruct (Hc k ndk c' Hk Hin') as (ndc & Hndc & Hpc & Hck).
    destruct (Hag c' ndc Hndc) as (ndc' & Hndc' & _ & Hpc').
    exists ndc'. repeat split; congruence. }
  unfold grown in Hm. simpl in Hm.
  destruct (decide (m = n)) as [->|Hne].
  - rewrite list_lookup_insert_eq in Hm by (rewrite length_app; lia).
    injection Hm as <-. simpl in Hin. apply elem_of_app in Hin as [Hin|Hin].
    + now apply (Hold n nd c).
    + apply list_elem_of_singleton in Hin as ->.
      exists (mk_Node e (Some n) None). split; [|split; [reflexivity | lia]].
      unfold grown. simpl. rewrite list_lookup_insert_ne by lia. apply lookup_fresh.
  - rewrite list_lookup_insert_ne in Hm by congruence.
    destruct (decide (m < length (nodes h))) as [Hmlt|Hmge].
    + rewrite lookup_app_l in Hm by exact Hmlt. now apply (Hold m ndm c).
    + rewrite lookup_app_r in Hm by lia.
      destruct (m - length (nodes h)) as [|k]; simpl in Hm; [|discriminate].
      injection Hm as <-. simpl in Hin. now apply elem_of_nil in Hin.
Qed.

Lemma add_nonroot_consistent self p e : keeps consistent (_add_nonroot_node self p e).
Proof.
  intros h Hc.
  destruct (add_nonroot_store self p e h)
    as [-> | (n & nd & -> & Hn & Hp & [-> | (t & _ & _ & ->)])].
  - exact Hc.
  - now apply ensure_list_consistent.
  - simpl. apply grown_consistent.
    + now apply ensure_list_node.
    + now apply ensure_list_consistent.
Qed.

Lemma add_node_consistent self e p : keeps consistent (add_node self e p).
Proof.
  unfold add_node. destruct p; apply keeps_bind;
    try (intros; apply keeps_ret);
    try apply add_nonroot_consistent.
  intros h Hc. now apply add_root_consistent.
Qed.

Lemma fill_label_consistent tree cursor node :
  keeps consistent (ProductCategorizer.fill_label tree cursor node).
Proof.
  unfold ProductCategorizer.fill_label.
  repeat (apply keeps_bind; [apply keeps_read | intros ?]).
  destruct (String.eqb _ _); [apply keeps_read|].
  apply keeps_bind; [apply keeps_read | intros found].
  destruct (ProductCategorizer.is_False found).
  - apply keeps_bind; [apply add_node_consistent | intros; apply keeps_ret].
  - apply keeps_bind; [apply keeps_read | intros; apply keeps_read].
Qed.

Lemma fill_tree_consistent lines :
  keeps consistent (ProductCategorizer.fill_tree lines).
Proof.
  assert (Hlabels : forall ns tree cursor,
            keeps consistent (ProductCategorizer.fill_labels tree cursor ns)).
  { induction ns as [|node ns IH]; intros tree cursor; simpl.
    - apply keeps_ret.
    - apply keeps_bind; [apply fill_label_consistent | intros; apply IH]. }
  assert (Hline : forall tree cursor line,
            keeps consistent (ProductCategorizer.fill_line tree cursor line)).
  { intros tree cursor line. unfold ProductCategorizer.fill_line.
    apply keeps_bind; [apply keeps_read | intros [|]].
    - apply keeps_bind; [apply add_node_consistent | intros; apply keeps_ret].
    - apply Hlabels. }
  assert (Hlines : forall ls tree cursor,
            keeps consistent (ProductCategorizer.fill_lines tree cursor ls)).
  { induction ls as [|line ls IH]; intros tree cursor; simpl.
    - apply keeps_ret.
    - apply keeps_bind; [apply Hline | intros; apply IH]. }
  unfold ProductCategorizer.fill_tree.
  apply keeps_bind; [intros h Hc; exact Hc | intros tree].
  apply keeps_bind; [apply Hlines | intros; apply keeps_ret].
Qed.

(** X2.  In the empty store child lists and parent slots are consistent,
    and every mutating call keeps them so, whatever its arguments and
    however it ends: [LinkedTree()], [_add_root], [_add_nonroot_node],
    [add_node] and a whole run of [fill_tree]. *)
Theorem consistency_kept :
  consistent empty_heap /\
  keeps consistent __init__ /\
  (forall self e, keeps consistent (_add_root self e)) /\
  (forall self p e, keeps consistent (_add_nonroot_node self p e)) /\
  (forall self e p, keeps consistent (add_node self e p)) /\
  (forall lines, keeps consistent (ProductCategorizer.fill_tree lines)).
Proof.
  split; [|split; [|split; [|split; [|split]]]].
  - intros n nd c Hn. discriminate.
  - intros h Hc. exact Hc.
  - intros self e h Hc. now apply add_root_consistent.
  - apply add_nonroot_consistent.
  - apply add_node_consistent.
  - apply fill_tree_consistent.
Qed.

Lemma consistency_kept_witness :
  consistent (snd (ProductCategorizer.fill_tree
                     ["A" +:+ LF; "A,B" +:+ LF; "A,B,C" +:+ LF] empty_heap)).
Proof.
  destruct consistency_kept as (Hempty & _ & _ & _ & _ & Hfill).
  apply Hfill. exact Hempty.
Defined.

Lemma children_Ret h self p cs :
  children self p h = Ret cs ->
  exists n nd,
    p = VPos self n /\ nodes h !! n = Some nd /\ _parent nd <> Some n /\
    cs = map (fun c => VPos self c) (kids_of (_children nd)).
Proof.
  intros Hch.
  destruct (_validate self p h) as [n| | |] eqn:Hv;
    try (unfold children, mbind, R_bind in Hch; rewrite Hv in Hch; discriminate).
  destruct (validate_Ret self p h n Hv) as (-> & nd & Hn & Hp).
  exists n, nd. repeat split; try assumption.
  rewrite (children_position h self n nd Hn Hp) in Hch. congruence.
Qed.

(** X3.  When child lists and parent slots are consistent, every position
    that the iteration of [children(p)] produces is a valid position whose
    [parent] is [p] again. *)
Theorem parent_of_child :
  forall h self p cs c,
    consistent h -> children self p h = Ret cs -> c ∈ cs ->
    parent self c h = Ret p /\
    exists k, c = VPos self k /\ _validate self c h = Ret k.
Proof.
  intros h self p cs c Hc Hch Hin.
  destruct (children_Ret h self p cs Hch) as (n & nd & -> & Hn & Hp & ->).
  apply list_elem_of_fmap in Hin as (k & -> & Hk).
  destruct (Hc n nd k Hn Hk) as (ndk & Hndk & Hpk & Hkn).
  assert (Hvalid : _parent ndk <> Some k) by (rewrite Hpk; congruence).
  split.
  - rewrite (parent_position h self k ndk Hndk Hvalid). now rewrite Hpk.
  - exists k. split; [reflexivity | now apply validate_ok with ndk].
Qed.

Lemma parent_of_child_witness :
  parent 0 (VPos 0 2) heap_ABC = Ret (VPos 0 0).
Proof.
  apply (parent_of_child heap_ABC 0 (VPos 0 0) [VPos 0 1; VPos 0 2] (VPos 0 2)).
  - intros n nd c Hn Hin.
    destruct n as [|[|[|n]]]; try discriminate; injection Hn as <-;
      simpl in Hin; try (now apply elem_of_nil in Hin).
    apply elem_of_cons in Hin as [->|Hin]; [now eexists|].
    apply list_elem_of_singleton in Hin as ->. now eexists.
  - reflexivity.
  - apply elem_of_cons. right. apply list_elem_of_singleton. reflexivity.
Defined.

(** X4.  [depth] answers 0 at the root, and at every child produced by
    [children(p)] one more than at [p], for a position [p] of the tree and
    consistent child lists, as soon as the recursion is given enough
    fuel. *)
Theorem depth_of_child :
  (forall h self t r nd fuel,
     trees h !! self = Some t -> _root t = Some r ->
     nodes h !! r = Some nd -> _parent nd = None ->
     depth (S fuel) self (VPos self r) h = Ret 0) /\
  (forall h self n d cs c fuel,
     consistent h -> linked h self n d ->
     children self (VPos self n) h = Ret cs -> c ∈ cs -> S d < fuel ->
     depth fuel self (VPos self n) h = Ret d /\
     depth fuel self c h = Ret (S d)).
Proof.
  split.
  - intros h self t r nd fuel Ht Hr Hn Hp.
    apply depth_linked; [|lia]. now apply linked_root with t nd.
  - intros h self n d cs c fuel Hc Hl Hch Hin Hfuel.
    split; [apply depth_linked; [exact Hl | lia]|].
    destruct (children_Ret h self _ cs Hch) as (n' & nd & [= <-] & Hn & Hp & ->).
    apply list_elem_of_fmap in Hin as (k & -> & Hk).
    destruct (Hc n nd k Hn Hk) as (ndk & Hndk & Hpk & Hkn).
    apply depth_linked; [|exact Hfuel].
    now apply linked_child with n nd ndk.
Qed.

Lemma depth_of_child_witness :
  depth 3 0 (VPos 0 0) heap_chain = Ret 0 /\
  depth 3 0 (VPos 0 1) heap_chain = Ret 1.
Proof.
  apply (proj2 depth_of_child heap_chain 0 0 0 [VPos 0 1] (VPos 0 1) 3).
  - intros n nd c Hn Hin.
    destruct n as [|[|[|n]]]; try discriminate; injection Hn as <-;
      simpl in Hin; try (now apply elem_of_nil in Hin);
      apply list_elem_of_singleton in Hin as ->; now eexists.
  - apply linked_root with (t := mk_Tree (Some 0) 3)
      (nd := mk_Node "A" None (Some [1])); reflexivity.
  - reflexivity.
  - apply list_elem_of_singleton. reflexivity.
  - lia.
Defined.

End Children.

(** ** Looking a child up and adding it *)

Section LookupAndAdd.
Import LinkedTree.

Lemma find_first_spec self value ks h v :
  find_first self value (map (fun c => VPos self c) ks) h = Ret v ->
  (v = VBool false /\
   forall c, c ∈ ks ->
     exists ndc, nodes h !! c = Some ndc /\ _element ndc <> value) \/
  (exists i c ndc,
     ks !! i = Some c /\ v = VPos self c /\
     nodes h !! c = Some ndc /\ _element ndc = value /\
     forall j c', j < i -> ks !! j = Some c' ->
       exists ndc', nodes h !! c' = Some ndc' /\ _element ndc' <> value).
Proof.
  revert v. induction ks as [|k ks IH]; intros v.
  - intros [= <-]. left. split; [reflexivity|].
    intros c Hin. now apply elem_of_nil in Hin.
  - simpl map. rewrite find_first_S. unfold mbind, R_bind.
    destruct (_validate self (VPos self k) h) as [n| | |] eqn:Hv; try discriminate.
    destruct (validate_Ret self _ h n Hv) as ([= <-] & nd & Hn & Hp).
    rewrite (node_at_Some h k nd Hn).
    destruct (String.eqb_spec (_element nd) value) as [He|He].
    + intros [= <-]. right. exists 0, k, nd. repeat split; try assumption.
      intros j c' Hj. lia.
    + intros Hrest. destruct (IH v Hrest) as [[-> Hall] | (i & c & ndc & Hi & -> & Hc & Hec & Hbefore)].
      * left. split; [reflexivity|].
        intros c Hin. apply elem_of_cons in Hin as [->|Hin]; [eauto | now apply Hall].
      * right. exists (S i), c, ndc. repeat split; try assumption.
        intros [|j] c' Hj Hc'; [injection Hc' as <-; eauto|].
        apply (Hbefore j c'); [lia | exact Hc'].
Qed.

(** X5.  [find_child_by_value(p, value)] returns only on a valid position
    [p].  It answers [False] when every child of [p] is a live node with
    another label, and otherwise the position of the first child, in the
    order of the child list, whose label is [value]. *)
Theorem find_child_first_match :
  forall h self p value v,
    find_child_by_value self p value h = Ret v ->
    exists n nd,
      p = VPos self n /\ nodes h !! n = Some nd /\
      ((v = VBool false /\
        forall c, c ∈ kids_of (_children nd) ->
          exists ndc, nodes h !! c = Some ndc /\ _element ndc <> value) \/
       (exists i c ndc,
          kids_of (_children nd) !! i = Some c /\ v = VPos self c /\
          nodes h !! c = Some ndc /\ _element ndc = value /\
          forall j c', j < i -> kids_of (_children nd) !! j = Some c' ->
            exists ndc', nodes h !! c' = Some ndc' /\ _element ndc' <> value)).
Proof.
  intros h self p value v Hfind. unfold find_child_by_value in Hfind.
  destruct (children self p h) as [cs| | |] eqn:Hch;
    try (unfold mbind, R_bind in Hfind; rewrite Hch in Hfind; discriminate).
  rewrite (R_bind_ret _ _ h cs Hch) in Hfind.
  destruct (children_Ret h self p cs Hch) as (n & nd & -> & Hn & Hp & ->).
  exists n, nd. split; [reflexivity|]. split; [exact Hn|].
  now apply find_first_spec.
Qed.

Lemma find_child_first_match_witness :
  exists n nd,
    VPos 0 0 = VPos 0 n /\ nodes heap_ABC !! n = Some nd /\
    ((VPos 0 2 = VBool false /\
      forall c, c ∈ kids_of (_children nd) ->
        exists ndc, nodes heap_ABC !! c = Some ndc /\ _element ndc <> "C") \/
     (exists i c ndc,
        kids_of (_children nd) !! i = Some c /\ VPos 0 2 = VPos 0 c /\
        nodes heap_ABC !! c = Some ndc /\ _element ndc = "C" /\
        forall j c', j < i -> kids_of (_children nd) !! j = Some c' ->
          exists ndc', nodes heap_ABC !! c' = Some ndc' /\ _element ndc' <> "C")).
Proof.
  apply (find_child_first_match heap_ABC 0 (VPos 0 0) "C" (VPos 0 2)).
  reflexivity.
Defined.

Lemma ensure_list_agree_back h n nd :
  nodes h !! n = Some nd -> agree (ensure_list h n nd) h.
Proof.
  intros Hn. unfold ensure_list.
  destruct (_children nd); [apply agree_refl|].
  intros m ndm Hm. simpl in Hm.
  assert (Hlt : n < length (nodes h)) by (eapply lookup_lt_Some; eassumption).
  destruct (decide (m = n)) as [->|Hne].
  - rewrite list_lookup_insert_eq in Hm by exact Hlt. injection Hm as <-.
    exists nd. now repeat split.
  - rewrite list_lookup_insert_ne in Hm by congruence.
    exists ndm. now repeat split.
Qed.

Lemma ensure_list_length h n nd :
  length (nodes (ensure_list h n nd)) = length (nodes h).
Proof.
  unfold ensure_list. destruct (_children nd); [reflexivity|].
  simpl. apply length_insert.
Qed.

(** The two ways in which [_add_nonroot_node] returns. *)
Lemma add_nonroot_Ret self p e h v h1 :
  _add_nonroot_node self p e h = (Ret v, h1) ->
  exists n nd,
    p = VPos self n /\ nodes h !! n = Some nd /\ _parent nd <> Some n /\
    ((exists found,
        find_first self e (map (fun c => VPos self c) (kids_of (_children nd)))
          (ensure_list h n nd) = Ret found /\
        truthy found = true /\ v = VNone /\ h1 = ensure_list h n nd) \/
     (exists t,
        trees h !! self = Some t /\
        find_first self e (map (fun c => VPos self c) (kids_of (_children nd)))
          (ensure_list h n nd) = Ret (VBool false) /\
        v = VPos self (length (nodes h)) /\
        h1 = grown (ensure_list h n nd) self t n
               (mk_Node (_element nd) (_parent nd) (Some (kids_of (_children nd)))) e)).
Proof.
  intros Hrun.
  assert (exists n, _validate self p h = Ret n) as [n Hv].
  { unfold _add_nonroot_node, mbind, M_bind, readM in Hrun.
    destruct (_validate self p h); try discriminate. eauto. }
  destruct (validate_Ret self p h n Hv) as (-> & nd & Hn & Hp).
  exists n, nd. repeat split; try assumption.
  rewrite (add_nonroot_run self n nd e h Hn Hp) in Hrun. cbv zeta in Hrun.
  destruct (find_first _ _ _ _) as [found| | |] eqn:Hfind; try discriminate.
  destruct (truthy found) eqn:Htruth.
  - injection Hrun as <- <-. left. now exists found.
  - destruct (trees _ !! self) as [t|] eqn:Ht; [|discriminate].
    injection Hrun as <- <-. right. exists t.
    rewrite ensure_list_trees in Ht. rewrite ensure_list_length.
    pose proof (find_first_value self e _ _ found Hfind Htruth) as ->.
    now repeat split.
Qed.

Lemma find_child_on_position h self n nd value :
  nodes h !! n = Some nd -> _parent nd <> Some n ->
  find_child_by_value self (VPos self n) value h =
    find_first self value (map (fun c => VPos self c) (kids_of (_children nd))) h.
Proof.
  intros Hn Hp. unfold find_child_by_value.
  now rewrite (R_bind_ret _ _ h _ (children_position h self n nd Hn Hp)).
Qed.

(** The lookup that follows the insertion of a new child finds it. *)
Lemma find_after_grow h self t n nd e :
  nodes h !! n = Some nd -> _parent nd <> Some n ->
  find_first self e (map (fun c => VPos self c) (kids_of (_children nd))) h
    = Ret (VBool false) ->
  find_child_by_value self (VPos self n) e (grown h self t n nd e) =
    Ret (VPos self (length (nodes h))).
Proof.
  intros Hn Hp Hfind.
  set (N := length (nodes h)). set (h1 := grown h self t n nd e).
  assert (HnN : n < N) by (eapply lookup_lt_Some; eassumption).
  set (nd1 := mk_Node (_element nd) (_parent nd)
                (Some (kids_of (_children nd) ++ [N]))).
  assert (Hn1 : nodes h1 !! n = Some nd1).
  { unfold h1, grown. simpl. apply list_lookup_insert_eq. rewrite length_app. lia. }
  assert (HN1 : nodes h1 !! N = Some (mk_Node e (Some n) None)).
  { unfold h1, grown. simpl. rewrite list_lookup_insert_ne by lia. apply lookup_fresh. }
  rewrite (find_child_on_position h1 self n nd1 e Hn1 Hp).
  change (kids_of (_children nd1)) with (kids_of (_children nd) ++ [N]).
  rewrite map_app.
  rewrite find_first_app
    by (apply find_first_agree with h; [now apply grown_agree | exact Hfind]).
  simpl map. rewrite find_first_S.
  rewrite (R_bind_ret _ _ h1 N)
    by (apply validate_ok with (mk_Node e (Some n) None); [exact HN1|];
        simpl; intros [= E]; lia).
  rewrite (R_bind_ret _ _ h1 _ (node_at_Some h1 N _ HN1)).
  cbn [_element]. now rewrite String.eqb_refl.
Qed.

(** What the store looks like once a new child has been appended. *)
Lemma grown_effect h self t n nd e :
  nodes h !! n = Some nd -> _parent nd <> Some n -> trees h !! self = Some t ->
  find_first self e (map (fun c => VPos self c) (kids_of (_children nd)))
    (ensure_list h n nd) = Ret (VBool false) ->
  find_child_by_value self (VPos self n) e h = Ret (VBool false) /\
  find_child_by_value self (VPos self n) e
    (grown (ensure_list h n nd) self t n
       (mk_Node (_element nd) (_parent nd) (Some (kids_of (_children nd)))) e)
    = Ret (VPos self (length (nodes h))) /\
  parent self (VPos self (length (nodes h)))
    (grown (ensure_list h n nd) self t n
       (mk_Node (_element nd) (_parent nd) (Some (kids_of (_children nd)))) e)
    = Ret (VPos self n) /\
  __len__ self h = Ret (_size t) /\
  __len__ self
    (grown (ensure_list h n nd) self t n
       (mk_Node (_element nd) (_parent nd) (Some (kids_of (_children nd)))) e)
    = Ret (_size t + 1) /\
  children self (VPos self n) h =
    Ret (map (fun c => VPos self c) (kids_of (_children nd))) /\
  children self (VPos self n)
    (grown (ensure_list h n nd) self t n
       (mk_Node (_element nd) (_parent nd) (Some (kids_of (_children nd)))) e)
    = Ret (map (fun c => VPos self c) (kids_of (_children nd))
           ++ [VPos self (length (nodes h))]).
Proof.
  intros Hn Hp Ht Hfind.
  pose proof (ensure_list_node h n nd Hn) as Hna.
  pose proof (ensure_list_length h n nd) as Hlen.
  set (ha := ensure_list h n nd) in *.
  set (nda := mk_Node (_element nd) (_parent nd) (Some (kids_of (_children nd)))) in *.
  set (N := length (nodes h)) in *.
  set (h1 := grown ha self t n nda e).
  assert (HnN : n < N) by (eapply lookup_lt_Some; eassumption).
  assert (Hgrow : find_child_by_value self (VPos self n) e h1 = Ret (VPos self N)).
  { unfold h1. rewrite <- Hlen. now apply find_after_grow. }
  assert (HN1 : nodes h1 !! N = Some (mk_Node e (Some n) None)).
  { unfold h1, grown. simpl. rewrite Hlen. rewrite list_lookup_insert_ne by lia.
    rewrite <- Hlen. apply lookup_fresh. }
  assert (Hn1 : nodes h1 !! n = Some (mk_Node (_element nd) (_parent nd)
                                (Some (kids_of (_children nd) ++ [N])))).
  { unfold h1, grown. simpl. rewrite Hlen.
    apply list_lookup_insert_eq. rewrite length_app. lia. }
  split; [|split; [exact Hgrow|split; [|split; [|split; [|split]]]]].
  - rewrite (find_child_on_position h self n nd e Hn Hp).
    apply find_first_agree with ha; [|exact Hfind].
    now apply ensure_list_agree_back.
  - rewrite (parent_position h1 self N _ HN1) by (simpl; intros [= E]; lia).
    reflexivity.
  - unfold __len__. now rewrite (R_bind_ret _ _ h t) by now apply tree_at_Some.
  - unfold __len__.
    rewrite (R_bind_ret _ _ h1 (mk_Tree (_root t) (_size t + 1))); [reflexivity|].
    apply tree_at_Some. unfold h1, grown. simpl.
    apply list_lookup_insert_eq. unfold ha. rewrite ensure_list_trees.
    eapply lookup_lt_Some; eassumption.
  - now apply children_position.
  - rewrite (children_position h1 self n _ Hn1 Hp). simpl.
    now rewrite map_app.
Qed.

(** X6.  After [_add_nonroot_node(p, e)] has returned, looking [e] up under
    [p] finds a child labelled [e].  When the call answered [None] the size
    and the children of [p] are what they were.  When it answered a position,
    the label was not among the children before, the size has grown by one,
    and that position is the new last child of [p], whose [parent] is [p]. *)
Theorem add_child_effect :
  forall h self p e v h1,
    _add_nonroot_node self p e h = (Ret v, h1) ->
    (exists c ndc,
       find_child_by_value self p e h1 = Ret (VPos self c) /\
       nodes h1 !! c = Some ndc /\ _element ndc = e) /\
    (v = VNone ->
       __len__ self h1 = __len__ self h /\
       children self p h1 = children self p h) /\
    (forall c, v = VPos self c ->
       find_child_by_value self p e h = Ret (VBool false) /\
       find_child_by_value self p e h1 = Ret v /\
       parent self v h1 = Ret p /\
       exists sz cs,
         __len__ self h = Ret sz /\ __len__ self h1 = Ret (sz + 1) /\
         children self p h = Ret cs /\ children self p h1 = Ret (cs ++ [v])).
Proof.
  intros h self p e v h1 Hrun.
  destruct (add_nonroot_Ret self p e h v h1 Hrun)
    as (n & nd & -> & Hn & Hp &
        [(found & Hfind & Htruth & -> & ->) | (t & Ht & Hfind & -> & ->)]).
  - pose proof (ensure_list_node h n nd Hn) as Hna.
    set (ha := ensure_list h n nd) in *.
    set (nda := mk_Node (_element nd) (_parent nd) (Some (kids_of (_children nd)))) in *.
    split; [|split; [|discriminate]].
    + rewrite (find_child_on_position ha self n nda e Hna Hp).
      change (kids_of (_children nda)) with (kids_of (_children nd)).
      destruct (find_first_spec self e _ ha found Hfind)
        as [[-> _] | (i & c & ndc & _ & -> & Hc & He & _)]; [discriminate|].
      exists c, ndc. now repeat split.
    + intros _. split.
      * unfold __len__, mbind, R_bind, tree_at. unfold ha.
        now rewrite ensure_list_trees.
      * rewrite (children_position ha self n nda Hna Hp).
        now rewrite (children_position h self n nd Hn Hp).
  - destruct (grown_effect h self t n nd e Hn Hp Ht Hfind)
      as (Hbefore & Hafter & Hpar & Hlen & Hlen' & Hch & Hch').
    split; [|split; [discriminate|]].
    + exists (length (nodes h)), (mk_Node e (Some n) None).
      split; [exact Hafter|]. split; [|reflexivity].
      unfold grown. simpl. rewrite ensure_list_length.
      rewrite list_lookup_insert_ne
        by (apply lookup_lt_Some in Hn; lia).
      rewrite <- (ensure_list_length h n nd). apply lookup_fresh.
    + intros c [= <-]. repeat split; try assumption.
      exists (_size t), (map (fun c => VPos self c) (kids_of (_children nd))).
      now repeat split.
Qed.

Lemma add_child_effect_witness :
  find_child_by_value 0 (VPos 0 0) "B" heap_root_A = Ret (VBool false) /\
  find_child_by_value 0 (VPos 0 0) "B" heap_AB = Ret (VPos 0 1) /\
  parent 0 (VPos 0 1) heap_AB = Ret (VPos 0 0) /\
  exists sz cs,
    __len__ 0 heap_root_A = Ret sz /\ __len__ 0 heap_AB = Ret (sz + 1) /\
    children 0 (VPos 0 0) heap_root_A = Ret cs /\
    children 0 (VPos 0 0) heap_AB = Ret (cs ++ [VPos 0 1]).
Proof.
  apply (proj2 (proj2 (add_child_effect heap_root_A 0 (VPos 0 0) "B" (VPos 0 1) heap_AB
                         eq_refl)) 1 eq_refl).
Defined.

Lemma ensure_list_other h n nd m :
  m <> n -> nodes (ensure_list h n nd) !! m = nodes h !! m.
Proof.
  intros Hne. unfold ensure_list. destruct (_children nd); [reflexivity|].
  simpl. now rewrite list_lookup_insert_ne by congruence.
Qed.

(** X7.  Whatever its arguments and however it ends, [_add_nonroot_node]
    removes no node and changes no label and no parent slot; it leaves every
    node other than the one of [p] as it was, leaves the other trees alone,
    keeps the root of its own tree and lets its size grow by one at most. *)
Theorem add_child_frame :
  forall self p e h,
    agree h (snd (_add_nonroot_node self p e h)) /\
    (forall m ndm, p <> VPos self m -> nodes h !! m = Some ndm ->
       nodes (snd (_add_nonroot_node self p e h)) !! m = Some ndm) /\
    (forall T, T <> self ->
       trees (snd (_add_nonroot_node self p e h)) !! T = trees h !! T) /\
    (forall t, trees h !! self = Some t ->
       exists t', trees (snd (_add_nonroot_node self p e h)) !! self = Some t' /\
                  _root t' = _root t /\
                  _size t <= _size t' <= _size t + 1).
Proof.
  intros self p e h.
  destruct (add_nonroot_store self p e h)
    as [-> | (n & nd & -> & Hn & Hp & [-> | (t & Ht & _ & ->)])].
  - repeat split; auto using agree_refl.
    intros t Ht. exists t. repeat split; auto; lia.
  - repeat split.
    + now apply ensure_list_agree.
    + intros m ndm Hm Hndm. rewrite ensure_list_other by congruence. exact Hndm.
    + intros T _. now rewrite ensure_list_trees.
    + intros t Ht. exists t. rewrite ensure_list_trees. repeat split; auto; lia.
  - simpl snd. pose proof (ensure_list_node h n nd Hn) as Hna.
    rewrite ensure_list_trees in Ht.
    set (ha := ensure_list h n nd) in *.
    repeat split.
    + apply agree_trans with ha; [now apply ensure_list_agree | now apply grown_agree].
    + intros m ndm Hm Hndm. unfold grown. simpl.
      assert (m <> n) by congruence.
      rewrite list_lookup_insert_ne by congruence.
      apply lookup_app_l_Some. unfold ha. now rewrite ensure_list_other.
    + intros T HT. unfold grown. simpl.
      rewrite list_lookup_insert_ne by congruence.
      unfold ha. now rewrite ensure_list_trees.
    + intros t0 Ht0. assert (t0 = t) as -> by congruence.
      exists (mk_Tree (_root t) (_size t + 1)). split; [|simpl; split; [reflexivity | lia]].
      unfold grown. simpl. apply list_lookup_insert_eq.
      unfold ha. rewrite ensure_list_trees. eapply lookup_lt_Some; eassumption.
Qed.

Lemma add_child_frame_witness :
  nodes (snd (_add_nonroot_node 0 (VPos 0 0) "C" heap_AB)) !! 1 =
    Some (mk_Node "B" (Some 0) None).
Proof.
  apply (proj1 (proj2 (add_child_frame 0 (VPos 0 0) "C" heap_AB)) 1).
  - discriminate.
  - reflexivity.
Defined.

End LookupAndAdd.

(** ** Height, and the queries on an empty tree *)

Section Heights.
Import LinkedTree.

Lemma foldr_max_S xs :
  xs <> [] -> foldr Nat.max 0 (map S xs) = S (foldr Nat.max 0 xs).
Proof.
  induction xs as [|x [|y xs] IH]; intros Hne; [congruence | simpl; lia |].
  change (Nat.max (S x) (foldr Nat.max 0 (map S (y :: xs))) =
          S (Nat.max x (foldr Nat.max 0 (y :: xs)))).
  rewrite IH by discriminate. lia.
Qed.

Lemma foldr_max_base a xs :
  foldr Nat.max a xs = Nat.max a (foldr Nat.max 0 xs).
Proof. induction xs as [|x xs IH]; simpl; [lia | rewrite IH; lia]. Qed.

Lemma levels_height t : levels t = S (rose_height t).
Proof.
  induction t as [e ts IH] using rose_ind.
  assert (Hmap : map levels ts = map S (map rose_height ts)).
  { induction IH as [|t ts Ht _ IHts]; [reflexivity|]. simpl. now rewrite Ht, IHts. }
  destruct ts as [|t ts]; [reflexivity|].
  change (S (foldr Nat.max 0 (map levels (t :: ts))) =
          S (S (foldr Nat.max 0 (map rose_height (t :: ts))))).
  rewrite Hmap. now rewrite foldr_max_S by discriminate.
Qed.

Lemma mapR_Forall2 (f : pyobj -> R nat) (g : rose -> nat) self h cs ts :
  Forall2 (fun c t => f (VPos self c) h = Ret (g t)) cs ts ->
  mapR f (map (fun c => VPos self c) cs) h = Ret (map g ts).
Proof.
  induction 1 as [|c t cs ts Hc _ IH]; [reflexivity|].
  simpl. rewrite (R_bind_ret _ _ h _ Hc). now rewrite (R_bind_ret _ _ h _ IH).
Qed.

Lemma height2_S fuel self p h :
  _height2 (S fuel) self p h =
    (b ← is_leaf self p;
     if b : bool then mret 0
     else
       cs ← children self p;
       hs ← mapR (_height2 fuel self) cs;
       m ← py_max hs;
       mret (1 + m)) h.
Proof. reflexivity. Qed.

Lemma is_leaf_position h self n nd :
  nodes h !! n = Some nd -> _parent nd <> Some n ->
  is_leaf self (VPos self n) h =
    Ret (match kids_of (_children nd) with [] => true | _ => false end).
Proof.
  intros Hn Hp. unfold is_leaf, num_children.
  rewrite (R_bind_ret _ _ h (length (kids_of (_children nd)))).
  - now destruct (kids_of (_children nd)).
  - rewrite (R_bind_ret _ _ h n) by now apply validate_ok with nd.
    rewrite (R_bind_ret _ _ h nd) by now apply node_at_Some.
    now destruct (_children nd).
Qed.

Lemma kids_heights h self n d nd ts fuel :
  linked h self n d -> nodes h !! n = Some nd ->
  Forall2 (shape h (Some n)) (kids_of (_children nd)) ts ->
  Forall (fun t => forall par c d' fuel',
            shape h par c t -> linked h self c d' -> rose_height t < fuel' ->
            _height2 fuel' self (VPos self c) h = Ret (rose_height t)) ts ->
  Forall (fun t => rose_height t < fuel) ts ->
  Forall2 (fun c t => _height2 fuel self (VPos self c) h = Ret (rose_height t))
    (kids_of (_children nd)) ts.
Proof.
  intros Hl Hn Hkids IH Hbound.
  induction Hkids as [|c t cs ts' Hc _ IHk]; constructor.
  - apply Forall_cons in IH as [IHt _]. apply Forall_cons in Hbound as [Hb _].
    apply IHt with (Some n) (S d); [exact Hc | | exact Hb].
    destruct (shape_inv_any h (Some n) c t Hc) as (ndc & Hndc & Hpc).
    now apply linked_child with n nd ndc.
  - apply Forall_cons in IH as [_ IH']. apply Forall_cons in Hbound as [_ Hb'].
    now apply IHk.
Qed.

Lemma max_bound xs fuel :
  foldr Nat.max 0 xs < fuel -> Forall (fun x => x < fuel) xs.
Proof.
  induction xs as [|x xs IH]; intros Hlt; constructor; simpl in Hlt; [lia|].
  apply IH. lia.
Qed.

Lemma height_shape h self t :
  forall par n d fuel,
    shape h par n t -> linked h self n d -> rose_height t < fuel ->
    _height2 fuel self (VPos self n) h = Ret (rose_height t).
Proof.
  induction t as [e ts IH] using rose_ind.
  intros par n d [|fuel] Hs Hl Hfuel; [lia|].
  destruct (shape_inv h par n e ts Hs) as (ocs & Hn & Hkids).
  pose proof (linked_not_tombstone h self n d _ Hl Hn) as Hp.
  rewrite height2_S, (R_bind_ret _ _ h _ (is_leaf_position h self n _ Hn Hp)).
  assert (Hbound : Forall (fun t' => rose_height t' < fuel) ts).
  { destruct ts as [|t ts]; [constructor|].
    apply Forall_fmap with (f := rose_height) (P := fun x => x < fuel).
    apply max_bound.
    change (S (foldr Nat.max 0 (map rose_height (t :: ts))) < S fuel) in Hfuel.
    change (foldr Nat.max 0 (map rose_height (t :: ts)) < fuel). lia. }
  pose proof (kids_heights h self n d _ ts fuel Hl Hn Hkids IH Hbound) as Hall.
  cbn [_children] in *.
  remember (kids_of ocs) as ks eqn:Hks.
  destruct Hall as [|c t cs ts' Hc Hcs]; [reflexivity|].
  rewrite (R_bind_ret _ _ h _ (children_position h self n _ Hn Hp)).
  cbn [_children]. rewrite <- Hks.
  assert (Hall : Forall2 (fun c t' => _height2 fuel self (VPos self c) h
                                      = Ret (rose_height t')) (c :: cs) (t :: ts'))
    by now constructor.
  rewrite (R_bind_ret _ _ h _ (mapR_Forall2 _ rose_height self h _ _ Hall)).
  simpl map. unfold py_max, mbind, R_bind, mret, R_ret. f_equal.
  rewrite foldr_max_base. reflexivity.
Qed.

(** X8.  [height] answers the height of the tree below the position: 0 at
    a leaf, else one more than the largest height among the children.  With
    no argument, or [None], it answers the height at the root.  The
    recursion needs more fuel than that height. *)
Theorem height_spec :
  (forall h self par n d t fuel,
     shape h par n t -> linked h self n d -> rose_height t < fuel ->
     height fuel self (VPos self n) h = Ret (rose_height t)) /\
  (forall h self tr r t fuel,
     trees h !! self = Some tr -> _root tr = Some r ->
     shape h None r t -> rose_height t < fuel ->
     height fuel self VNone h = Ret (rose_height t)) /\
  (forall e, rose_height (Rose e []) = 0) /\
  (forall e t ts,
     rose_height (Rose e (t :: ts)) =
       1 + foldr Nat.max (rose_height t) (map rose_height ts)).
Proof.
  split; [|split; [|split]].
  - intros h self par n d t fuel Hs Hl Hfuel. now apply height_shape with par d.
  - intros h self tr r t fuel Ht Hr Hs Hfuel.
    destruct (shape_inv_any h None r t Hs) as (nd & Hn & Hp).
    unfold height. rewrite (R_bind_ret _ _ h (VPos self r))
      by (rewrite (root_lookup h self tr Ht); now rewrite Hr).
    apply height_shape with None 0; [exact Hs | | exact Hfuel].
    now apply linked_root with tr nd.
  - reflexivity.
  - intros e t ts. rewrite (foldr_max_base (rose_height t)). reflexivity.
Qed.

Lemma height_spec_witness :
  height 3 0 VNone heap_chain = Ret 2.
Proof.
  apply (proj1 (proj2 height_spec) heap_chain 0 (mk_Tree (Some 0) 3) 0
           (Rose "A" [Rose "B" [Rose "C" []]]) 3 eq_refl eq_refl).
  - apply shape_node with (ocs := Some [1]); [reflexivity|].
    constructor; [|constructor].
    apply shape_node with (ocs := Some [2]); [reflexivity|].
    constructor; [|constructor].
    apply shape_node with (ocs := None); [reflexivity|]. constructor.
  - simpl. lia.
Defined.

(** X9.  On a tree without root, [depth(None)] answers 0,
    [get_path_to_root(None)] answers the list that holds [None] alone, and
    [height()] raises the type error of [_validate].  On a tree that has a
    root, [None] is not the root and [depth] and [get_path_to_root] raise
    that error for it.  Any other argument that is no position makes
    [depth], [height] and [get_path_to_root] raise it on every tree. *)
Theorem queries_on_none :
  (forall h self t fuel,
     trees h !! self = Some t -> _root t = None ->
     is_root self VNone h = Ret true /\
     depth (S fuel) self VNone h = Ret 0 /\
     get_path_to_root (S fuel) self VNone h = Ret [VNone] /\
     height (S fuel) self VNone h = Raise not_a_position) /\
  (forall h self t r fuel,
     trees h !! self = Some t -> _root t = Some r ->
     is_root self VNone h = Ret false /\
     depth (S fuel) self VNone h = Raise not_a_position /\
     get_path_to_root (S fuel) self VNone h = Raise not_a_position) /\
  (forall h self t p fuel,
     trees h !! self = Some t ->
     (forall c n, p <> VPos c n) -> p <> VNone ->
     is_root self p h = Ret false /\
     depth (S fuel) self p h = Raise not_a_position /\
     get_path_to_root (S fuel) self p h = Raise not_a_position /\
     height (S fuel) self p h = Raise not_a_position).
Proof.
  split; [|split].
  - intros h self t fuel Ht Hr.
    assert (Hroot : root self h = Ret VNone)
      by (rewrite (root_lookup h self t Ht); now rewrite Hr).
    assert (Hisroot : is_root self VNone h = Ret true)
      by (unfold is_root; now rewrite (R_bind_ret _ _ h _ Hroot)).
    split; [exact Hisroot|]. split; [|split].
    + rewrite depth_S. now rewrite (R_bind_ret _ _ h _ Hisroot).
    + unfold get_path_to_root. rewrite path_loop_S.
      now rewrite (R_bind_ret _ _ h _ Hisroot).
    + unfold height. rewrite (R_bind_ret _ _ h _ Hroot). rewrite height2_S.
      now apply R_bind_raise.
  - intros h self t r fuel Ht Hr.
    assert (Hroot : root self h = Ret (VPos self r))
      by (rewrite (root_lookup h self t Ht); now rewrite Hr).
    assert (Hisroot : is_root self VNone h = Ret false)
      by (unfold is_root; now rewrite (R_bind_ret _ _ h _ Hroot)).
    split; [exact Hisroot|]. split.
    + rewrite depth_S. rewrite (R_bind_ret _ _ h _ Hisroot).
      now apply R_bind_raise.
    + unfold get_path_to_root. rewrite path_loop_S.
      rewrite (R_bind_ret _ _ h _ Hisroot). now apply R_bind_raise.
  - intros h self t p fuel Ht Hp Hnone.
    assert (Hv : _validate self p h = Raise not_a_position) by now apply validate_type.
    assert (Hisroot : is_root self p h = Ret false).
    { unfold is_root. rewrite (R_bind_ret _ _ h _ (root_lookup h self t Ht)).
      destruct p as [| b | s | c n]; try congruence;
        try (destruct (_root t); reflexivity). }
    assert (Hparent : parent self p h = Raise not_a_position)
      by (unfold parent; now apply R_bind_raise).
    split; [exact Hisroot|]. split; [|split].
    + rewrite depth_S. rewrite (R_bind_ret _ _ h _ Hisroot).
      now apply R_bind_raise.
    + unfold get_path_to_root. rewrite path_loop_S.
      rewrite (R_bind_ret _ _ h _ Hisroot). now apply R_bind_raise.
    + assert (Hh : _height2 (S fuel) self p h = Raise not_a_position).
      { rewrite height2_S. apply R_bind_raise. unfold is_leaf. apply R_bind_raise.
        unfold num_children. now apply R_bind_raise. }
      destruct p; try exact Hh. congruence.
Qed.

Lemma queries_on_none_witness :
  (is_root 0 VNone heap_no_root = Ret true /\
   depth 1 0 VNone heap_no_root = Ret 0 /\
   get_path_to_root 1 0 VNone heap_no_root = Ret [VNone] /\
   height 1 0 VNone heap_no_root = Raise not_a_position) /\
  (is_root 0 VNone heap_root_A = Ret false /\
   depth 1 0 VNone heap_root_A = Raise not_a_position /\
   get_path_to_root 1 0 VNone heap_root_A = Raise not_a_position) /\
  (is_root 0 (VBool false) heap_root_A = Ret false /\
   depth 1 0 (VBool false) heap_root_A = Raise not_a_position /\
   get_path_to_root 1 0 (VBool false) heap_root_A = Raise not_a_position /\
   height 1 0 (VBool false) heap_root_A = Raise not_a_position).
Proof.
  split; [|split].
  - apply (proj1 queries_on_none heap_no_root 0 (mk_Tree None 0) 0); reflexivity.
  - apply (proj1 (proj2 queries_on_none) heap_root_A 0 (mk_Tree (Some 0) 1) 0 0);
      reflexivity.
  - apply (proj2 (proj2 queries_on_none) heap_root_A 0 (mk_Tree (Some 0) 1)
             (VBool false) 0); [reflexivity | discriminate | discriminate].
Defined.

End Heights.

(** ** Writing the two files *)

Section Printing.
Import LinkedTree ProductCategorizer.

Lemma flat_map_perm (f g : rose -> list string) ts :
  Forall (fun t => f t ≡ₚ g t) ts -> flat_map f ts ≡ₚ flat_map g ts.
Proof.
  induction 1 as [|t ts Ht _ IH]; [reflexivity|].
  simpl. now rewrite Ht, IH.
Qed.

Lemma pre_post_perm t : forall d, pre_lines d t ≡ₚ post_lines d t.
Proof.
  induction t as [e ts IH] using rose_ind. intros d. simpl.
  rewrite Permutation_cons_append. apply Permutation_app_tail.
  apply flat_map_perm. eapply Forall_impl; [exact IH|]. simpl. auto.
Qed.

Lemma print_tree_run h self tr r t fuel fs :
  trees h !! self = Some tr -> _root tr = Some r ->
  shape h None r t -> levels t <= fuel ->
  print_tree fuel self fs h =
    (Ret tt, mk_files (Some (pre_lines 0 t)) (Some (post_lines 0 t))).
Proof.
  intros Ht Hr Hs Hfuel.
  destruct (shape_inv_any h None r t Hs) as (nd & Hn & Hp).
  assert (Hl : linked h self r 0) by now apply linked_root with tr nd.
  assert (Hroot : root self h = Ret (VPos self r))
    by (rewrite (root_lookup h self tr Ht); now rewrite Hr).
  assert (Hpre : all_nodes fuel self "pre" h = (pre_lines 0 t, Ret tt)).
  { rewrite all_nodes_pre, (readG_ret _ _ h _ Hroot).
    now apply preorder_shape with None. }
  assert (Hpost : all_nodes fuel self "post" h = (post_lines 0 t, Ret tt)).
  { rewrite all_nodes_post, (readG_ret _ _ h _ Hroot).
    now apply postorder_shape with None. }
  unfold print_tree. now rewrite Hpre, Hpost.
Qed.

(** X10.  On a tree whose nodes have the shape of [t], [print_tree] ends
    normally once the fuel covers the levels of [t]; whatever the two files
    held, [pre.txt] then holds the pre-order lines and [post.txt] the
    post-order lines.  Both hold one line per node and the same lines, in
    different orders; the line of the root is the first of one file and the
    last of the other. *)
Theorem print_tree_writes :
  forall h self tr r t fuel fs,
    trees h !! self = Some tr -> _root tr = Some r ->
    shape h None r t -> levels t <= fuel ->
    print_tree fuel self fs h =
      (Ret tt, mk_files (Some (pre_lines 0 t)) (Some (post_lines 0 t))) /\
    pre_lines 0 t ≡ₚ post_lines 0 t /\
    length (pre_lines 0 t) = rose_size t /\
    length (post_lines 0 t) = rose_size t /\
    exists e ts, t = Rose e ts /\
      head (pre_lines 0 t) = Some (e +:+ LF) /\
      last (post_lines 0 t) = Some (e +:+ LF).
Proof.
  intros h self tr r t fuel fs Ht Hr Hs Hfuel.
  split; [|split; [|split; [|split]]].
  - now apply print_tree_run with tr r.
  - apply pre_post_perm.
  - apply pre_lines_length.
  - apply post_lines_length.
  - destruct t as [e ts]. exists e, ts. split; [reflexivity|]. split; [reflexivity|].
    simpl. apply last_snoc.
Qed.

Lemma print_tree_writes_witness :
  print_tree 2 0 (mk_files (Some ["old" +:+ LF]) None) heap_ABC =
    (Ret tt,
     mk_files (Some ["A" +:+ LF; TAB +:+ "B" +:+ LF; TAB +:+ "C" +:+ LF])
              (Some [TAB +:+ "B" +:+ LF; TAB +:+ "C" +:+ LF; "A" +:+ LF])).
Proof.
  apply (print_tree_writes heap_ABC 0 (mk_Tree (Some 0) 3) 0
           (Rose "A" [Rose "B" []; Rose "C" []]) 2
           (mk_files (Some ["old" +:+ LF]) None) eq_refl eq_refl).
  - apply shape_node with (ocs := Some [1; 2]); [reflexivity|].
    repeat constructor.
    + apply shape_node with (ocs := None); [reflexivity | constructor].
    + apply shape_node with (ocs := None); [reflexivity | constructor].
  - simpl. lia.
Defined.

End Printing.

(** ** Lines and labels *)

Section Strings.

Lemma lstrip_no_comma s : no_comma s = true -> no_comma (PyStr.lstrip s) = true.
Proof.
  induction s as [|c s IH]; [easy|]. simpl.
  intros [Hc Hs]%andb_true_iff.
  destruct (PyStr.isspace c); [now apply IH|]. simpl. now rewrite Hc, Hs.
Qed.

Lemma rstrip_no_comma s : no_comma s = true -> no_comma (PyStr.rstrip s) = true.
Proof.
  induction s as [|c s IH]; [easy|]. rewrite rstrip_cons.
  intros [Hc Hs]%andb_true_iff. specialize (IH Hs).
  destruct (PyStr.rstrip s).
  - destruct (PyStr.isspace c); [reflexivity|]. simpl. now rewrite Hc.
  - change (negb (Ascii.eqb c ",") && no_comma (String a s0) = true).
    now rewrite Hc, IH.
Qed.

Lemma strip_no_comma s : no_comma s = true -> no_comma (PyStr.strip s) = true.
Proof. intros Hs. unfold PyStr.strip. now apply rstrip_no_comma, lstrip_no_comma. Qed.

Lemma split_comma_S c s :
  PyStr.split_comma (String c s) =
    if Ascii.eqb c ","%char then EmptyString :: PyStr.split_comma s
    else match PyStr.split_comma s with
         | x :: xs => String c x :: xs
         | [] => [String c EmptyString]
         end.
Proof. reflexivity. Qed.

Lemma split_no_comma s :
  Forall (fun piece => no_comma piece = true) (PyStr.split_comma s).
Proof.
  induction s as [|c s IH]; [now repeat constructor|].
  rewrite split_comma_S. destruct (Ascii.eqb c ",") eqn:Ec.
  - now constructor.
  - destruct (PyStr.split_comma s) as [|x xs].
    + repeat constructor. simpl. now rewrite Ec.
    + apply Forall_cons in IH as [Hx Hxs]. constructor; [|exact Hxs].
      simpl. now rewrite Ec, Hx.
Qed.

Lemma join_split s : join_comma (PyStr.split_comma s) = s.
Proof.
  induction s as [|c s IH]; [reflexivity|].
  rewrite split_comma_S. destruct (Ascii.eqb_spec c ",") as [->|Hc].
  - destruct (split_comma_cons s) as (x & xs & E). rewrite E in *.
    change (("" +:+ "," +:+ join_comma (x :: xs))%string = String "," s).
    now rewrite IH.
  - destruct (split_comma_cons s) as (x & xs & E). rewrite E in *.
    transitivity (String c (join_comma (x :: xs))); [now destruct xs|].
    now rewrite IH.
Qed.

(** X11.  Splitting a line at its commas loses nothing: there is always at
    least one piece, no piece holds a comma, and the pieces joined by
    commas are the line again.  Stripping such a piece gives a label that
    still holds no comma and from which a second [strip] removes
    nothing. *)
Theorem labels_of_a_line :
  forall line,
    PyStr.split_comma line <> [] /\
    join_comma (PyStr.split_comma line) = line /\
    Forall (fun piece =>
              no_comma piece = true /\
              no_comma (PyStr.strip piece) = true /\
              PyStr.strip (PyStr.strip piece) = PyStr.strip piece)
           (PyStr.split_comma line).
Proof.
  intros line. split; [|split].
  - destruct (split_comma_cons line) as (x & xs & ->). discriminate.
  - apply join_split.
  - eapply Forall_impl; [apply split_no_comma|]. simpl. intros piece Hp.
    split; [exact Hp|]. split; [now apply strip_no_comma|].
    destruct (strip_stripped piece) as [Hl Hr].
    unfold PyStr.strip at 1. now rewrite Hl, Hr.
Qed.

End Strings.

(** ** The trees that [fill_tree] builds *)

Section FillInvariant.
Import LinkedTree ProductCategorizer.

Lemma view_inv nd nd' :
  view nd = view nd' ->
  _element nd = _element nd' /\ _parent nd = _parent nd' /\
  kids_of (_children nd) = kids_of (_children nd').
Proof. unfold view. intros [= -> -> ->]. now repeat split. Qed.

(** [built] only depends on the views of the nodes, on their number and on
    the tree objects. *)
Lemma built_same N0 T rl h h' :
  (forall m, view <$> nodes h' !! m = view <$> nodes h !! m) ->
  length (nodes h') = length (nodes h) -> trees h' = trees h ->
  built N0 T rl h -> built N0 T rl h'.
Proof.
  intros Hview Hlen Htrees [Htree Hroot Hdepth Hkids Hsib Hlab Hcov].
  assert (Hback : forall m x, nodes h' !! m = Some x ->
            exists y, nodes h !! m = Some y /\ view x = view y).
  { intros m x Hm. specialize (Hview m). rewrite Hm in Hview. simpl in Hview.
    destruct (nodes h !! m) as [y|]; [|discriminate].
    exists y. split; [reflexivity | simpl in Hview; congruence]. }
  assert (Hforth : forall m y, nodes h !! m = Some y ->
            exists x, nodes h' !! m = Some x /\ view x = view y).
  { intros m y Hm. specialize (Hview m). rewrite Hm in Hview. simpl in Hview.
    destruct (nodes h' !! m) as [x|]; [|discriminate].
    exists x. split; [reflexivity | simpl in Hview; congruence]. }
  assert (Hlabel : forall c, label_at h' c = label_at h c).
  { intros c. unfold label_at. specialize (Hview c).
    destruct (nodes h' !! c) as [x|], (nodes h !! c) as [y|];
      try discriminate; [|reflexivity].
    simpl in *. injection Hview as E _ _. now rewrite E. }
  split.
  - now rewrite Htrees, Hlen.
  - destruct Hroot as (nd & Hn & Hp & He).
    destruct (Hforth N0 nd Hn) as (x & Hx & (E1 & E2 & _)%view_inv).
    exists x. repeat split; congruence.
  - intros n x Hlt Hx. destruct (Hback n x Hx) as (y & Hy & (_ & E2 & _)%view_inv).
    rewrite E2.
    destruct (Hdepth n y Hlt Hy) as [Hp | (m & ndm & Hp & Hm & Hndm & Hpm)]; [now left|].
    right. destruct (Hforth m ndm Hndm) as (xm & Hxm & (_ & E2' & _)%view_inv).
    exists m, xm. repeat split; try assumption; try lia. congruence.
  - intros n x c Hle Hx Hin.
    destruct (Hback n x Hx) as (y & Hy & (_ & _ & E3)%view_inv).
    rewrite E3 in Hin. destruct (Hkids n y c Hle Hy Hin) as (Hnc & ndc & Hndc & Hpc).
    split; [exact Hnc|].
    destruct (Hforth c ndc Hndc) as (xc & Hxc & (_ & E2' & _)%view_inv).
    exists xc. split; congruence.
  - intros n x Hle Hx.
    destruct (Hback n x Hx) as (y & Hy & (_ & _ & E3)%view_inv).
    rewrite E3. rewrite (map_ext _ _ Hlabel). now apply Hsib with n.
  - intros n x Hlt Hx.
    destruct (Hback n x Hx) as (y & Hy & (E1 & _ & _)%view_inv).
    rewrite E1. now apply Hlab with n.
  - intros n x Hlt Hx.
    destruct (Hback n x Hx) as (y & Hy & (_ & E2 & _)%view_inv).
    destruct (Hcov n y Hlt Hy) as (m & ndm & Hp & Hndm & Hin).
    destruct (Hforth m ndm Hndm) as (xm & Hxm & (_ & _ & E3)%view_inv).
    exists m, xm. split; [congruence|]. split; [exact Hxm|]. now rewrite E3.
Qed.

Lemma built_ensure_list N0 T rl h n nd :
  nodes h !! n = Some nd -> built N0 T rl h -> built N0 T rl (ensure_list h n nd).
Proof.
  intros Hn. apply built_same.
  - intros m. unfold ensure_list. destruct (_children nd) as [cs|] eqn:Hcs; [reflexivity|].
    simpl. destruct (decide (m = n)) as [->|Hne].
    + rewrite list_lookup_insert_eq by (eapply lookup_lt_Some; eassumption).
      rewrite Hn. simpl. unfold view. simpl. now rewrite Hcs.
    + now rewrite list_lookup_insert_ne by congruence.
  - apply ensure_list_length.
  - apply ensure_list_trees.
Qed.

Lemma grown_lookup h self t n nd e m x :
  nodes h !! n = Some nd ->
  nodes (grown h self t n nd e) !! m = Some x ->
  (m = n /\ x = mk_Node (_element nd) (_parent nd)
                  (Some (kids_of (_children nd) ++ [length (nodes h)]))) \/
  (m = length (nodes h) /\ x = mk_Node e (Some n) None) \/
  (m <> n /\ m < length (nodes h) /\ nodes h !! m = Some x).
Proof.
  intros Hn Hm. unfold grown in Hm. simpl in Hm.
  assert (Hlt : n < length (nodes h)) by (eapply lookup_lt_Some; eassumption).
  destruct (decide (m = n)) as [->|Hne].
  - rewrite list_lookup_insert_eq in Hm by (rewrite length_app; lia).
    left. split; congruence.
  - rewrite list_lookup_insert_ne in Hm by congruence.
    destruct (decide (m < length (nodes h))) as [Hmlt|Hmge].
    + rewrite lookup_app_l in Hm by exact Hmlt. right. right. now repeat split.
    + rewrite lookup_app_r in Hm by lia.
      destruct (m - length (nodes h)) as [|k] eqn:Ek; simpl in Hm; [|discriminate].
      right. left. split; [lia | congruence].
Qed.

Lemma label_at_grown h self t n nd e c :
  nodes h !! n = Some nd -> c < length (nodes h) ->
  label_at (grown h self t n nd e) c = label_at h c.
Proof.
  intros Hn Hc. unfold label_at, grown. simpl.
  destruct (decide (c = n)) as [->|Hne].
  - rewrite list_lookup_insert_eq by (rewrite length_app; lia). now rewrite Hn.
  - rewrite list_lookup_insert_ne by congruence. now rewrite lookup_app_l.
Qed.

Lemma built_first_line h0 line :
  built (length (nodes h0)) (length (trees h0)) (PyStr.strip line)
    (after_first_line h0 line).
Proof.
  unfold after_first_line.
  assert (Hnone : forall n, length (nodes h0) < n ->
            (nodes h0 ++ [mk_Node (PyStr.strip line) None None]) !! n = None).
  { intros n Hn. apply lookup_ge_None. rewrite length_app. simpl. lia. }
  assert (Hroot : forall n nd, length (nodes h0) <= n ->
            (nodes h0 ++ [mk_Node (PyStr.strip line) None None]) !! n = Some nd ->
            nd = mk_Node (PyStr.strip line) None None).
  { intros n nd Hle Hn. destruct (decide (n = length (nodes h0))) as [->|Hne].
    - rewrite lookup_fresh in Hn. congruence.
    - rewrite Hnone in Hn by lia. discriminate. }
  split; simpl.
  - rewrite lookup_fresh. rewrite length_app. simpl. do 2 f_equal. lia.
  - eexists. split; [apply lookup_fresh|]. now split.
  - intros n nd Hlt Hn. rewrite Hnone in Hn by exact Hlt. discriminate.
  - intros n nd c Hle Hn Hin. rewrite (Hroot n nd Hle Hn) in Hin.
    now apply elem_of_nil in Hin.
  - intros n nd Hle Hn. rewrite (Hroot n nd Hle Hn). constructor.
  - intros n nd Hlt Hn. rewrite Hnone in Hn by exact Hlt. discriminate.
  - intros n nd Hlt Hn. rewrite Hnone in Hn by exact Hlt. discriminate.
Qed.

(** Appending a fresh label under the root or under a child of the root
    keeps the tree [built]. *)
Lemma built_grown N0 T rl h t n nd e :
  built N0 T rl h ->
  nodes h !! n = Some nd -> N0 <= n ->
  (n = N0 \/ _parent nd = Some N0) ->
  trees h !! T = Some t ->
  e <> rl -> no_comma e = true -> stripped e ->
  (forall c, c ∈ kids_of (_children nd) -> label_at h c <> Some e) ->
  built N0 T rl (grown h T t n nd e).
Proof.
  intros [Htree Hroot Hdepth Hkids Hsib Hlab Hcov] Hn Hle Hcur Ht He Hcomma Hstrip Hfresh.
  assert (HnN : n < length (nodes h)) by (eapply lookup_lt_Some; eassumption).
  pose proof (grown_agree h T t n nd e Hn) as Hag.
  assert (Hkeep : forall c ndc, nodes h !! c = Some ndc ->
            exists ndc', nodes (grown h T t n nd e) !! c = Some ndc' /\
                         _parent ndc' = _parent ndc /\ _element ndc' = _element ndc).
  { intros c ndc Hc. destruct (Hag c ndc Hc) as (ndc' & Hc' & E1 & E2). eauto. }
  split.
  - unfold grown. simpl. rewrite Htree in Ht. injection Ht as <-. simpl.
    rewrite list_lookup_insert_eq by (eapply lookup_lt_Some; eassumption).
    rewrite length_insert, length_app. simpl. do 2 f_equal. lia.
  - destruct Hroot as (rnd & Hrn & Hrp & Hre).
    destruct (Hkeep N0 rnd Hrn) as (rnd' & Hrn' & E1 & E2).
    exists rnd'. repeat split; congruence.
  - intros m x Hlt Hm.
    destruct (grown_lookup h T t n nd e m x Hn Hm)
      as [(-> & ->) | [(-> & ->) | (Hne & Hmlt & Hm')]]; simpl.
    + destruct (Hdepth n nd Hlt Hn) as [Hp | (g & ndg & Hp & Hg & Hndg & Hpg)];
        [now left|].
      right. destruct (Hkeep g ndg Hndg) as (ndg' & Hndg' & E1 & _).
      exists g, ndg'. repeat split; try assumption; try lia. congruence.
    + destruct Hcur as [-> | Hp]; [now left|].
      right. destruct (Hkeep n nd Hn) as (nd' & Hn' & E1 & _).
      assert (N0 < n).
      { destruct (decide (n = N0)) as [->|]; [|lia].
        destruct Hroot as (rnd & Hrn & Hrp & _). congruence. }
      exists n, nd'. repeat split; try exact Hn'; try congruence; try lia.
    + destruct (Hdepth m x Hlt Hm') as [Hp | (g & ndg & Hp & Hg & Hndg & Hpg)];
        [now left|].
      right. destruct (Hkeep g ndg Hndg) as (ndg' & Hndg' & E1 & _).
      exists g, ndg'. repeat split; try assumption; try lia. congruence.
  - intros m x c Hm0 Hm Hin.
    assert (Hold : forall k ndk, N0 <= k -> nodes h !! k = Some ndk ->
              c ∈ kids_of (_children ndk) ->
              k < c /\ exists ndc, nodes (grown h T t n nd e) !! c = Some ndc /\
                                   _parent ndc = Some k).
    { intros k ndk Hk0 Hk Hink.
      destruct (Hkids k ndk c Hk0 Hk Hink) as (Hkc & ndc & Hndc & Hpc).
      split; [exact Hkc|]. destruct (Hkeep c ndc Hndc) as (ndc' & Hndc' & E1 & _).
      exists ndc'. split; congruence. }
    destruct (grown_lookup h T t n nd e m x Hn Hm)
      as [(-> & ->) | [(-> & ->) | (Hne & Hmlt & Hm')]]; simpl in Hin.
    + apply elem_of_app in Hin as [Hin | Hin]; [now apply (Hold n nd)|].
      apply list_elem_of_singleton in Hin as ->. split; [exact HnN|].
      exists (mk_Node e (Some n) None). split; [|reflexivity].
      unfold grown. simpl. rewrite list_lookup_insert_ne by lia. apply lookup_fresh.
    + now apply elem_of_nil in Hin.
    + now apply (Hold m x).
  - intros m x Hm0 Hm.
    assert (Hsame : forall k ndk, N0 <= k -> nodes h !! k = Some ndk ->
              map (label_at (grown h T t n nd e)) (kids_of (_children ndk)) =
              map (label_at h) (kids_of (_children ndk))).
    { intros k ndk Hk0 Hk. apply map_ext_in. intros c Hin%list_elem_of_In.
      destruct (Hkids k ndk c Hk0 Hk Hin) as (_ & ndc & Hndc & _).
      apply label_at_grown; [exact Hn|]. eapply lookup_lt_Some; eassumption. }
    destruct (grown_lookup h T t n nd e m x Hn Hm)
      as [(-> & ->) | [(-> & ->) | (Hne & Hmlt & Hm')]]; simpl.
    + rewrite map_app. simpl.
      assert (Hnew : label_at (grown h T t n nd e) (length (nodes h)) = Some e).
      { unfold label_at, grown. simpl. rewrite list_lookup_insert_ne by lia.
        now rewrite lookup_fresh. }
      rewrite Hnew, (Hsame n nd Hle Hn).
      apply NoDup_app. split; [now apply Hsib with n|]. split; [|apply NoDup_singleton].
      intros l Hl Hl'%list_elem_of_singleton. subst l.
      apply list_elem_of_fmap in Hl as (c & Hc & Hin).
      now apply (Hfresh c Hin).
    + constructor.
    + rewrite (Hsame m x Hm0 Hm'). now apply Hsib with m.
  - intros m x Hlt Hm.
    destruct (grown_lookup h T t n nd e m x Hn Hm)
      as [(-> & ->) | [(-> & ->) | (Hne & Hmlt & Hm')]]; simpl.
    + now apply Hlab with n.
    + split; [exact He | split; [exact Hcomma | exact Hstrip]].
    + now apply Hlab with m.
  - intros m x Hlt Hm.
    assert (Hnd' : nodes (grown h T t n nd e) !! n =
                   Some (mk_Node (_element nd) (_parent nd)
                           (Some (kids_of (_children nd) ++ [length (nodes h)])))).
    { unfold grown. simpl. apply list_lookup_insert_eq. rewrite length_app. lia. }
    assert (Hold : forall k ndk, N0 < k -> nodes h !! k = Some ndk ->
              exists g ndg, _parent ndk = Some g /\
                            nodes (grown h T t n nd e) !! g = Some ndg /\
                            k ∈ kids_of (_children ndg)).
    { intros k ndk Hk0 Hk.
      destruct (Hcov k ndk Hk0 Hk) as (g & ndg & Hp & Hndg & Hin).
      destruct (decide (g = n)) as [->|Hgn].
      - assert (ndg = nd) as -> by congruence.
        eexists n, _. split; [exact Hp|]. split; [exact Hnd'|].
        simpl. apply elem_of_app. now left.
      - exists g, ndg. split; [exact Hp|]. split; [|exact Hin].
        unfold grown. simpl. rewrite list_lookup_insert_ne by congruence.
        now apply lookup_app_l_Some. }
    destruct (grown_lookup h T t n nd e m x Hn Hm)
      as [(-> & ->) | [(-> & ->) | (Hne & Hmlt & Hm')]]; cbn [_parent].
    + now apply (Hold n nd).
    + eexists n, _. split; [reflexivity|]. split; [exact Hnd'|].
      simpl. apply elem_of_app. right. now apply list_elem_of_singleton.
    + now apply (Hold m x).
Qed.

Lemma find_first_total self value ks h :
  (forall c, c ∈ ks ->
     exists ndc, nodes h !! c = Some ndc /\ _parent ndc <> Some c) ->
  exists v, find_first self value (map (fun c => VPos self c) ks) h = Ret v.
Proof.
  induction ks as [|k ks IH]; intros Hall; [now eexists|].
  destruct (Hall k) as (ndk & Hk & Hpk); [apply elem_of_cons; now left|].
  simpl map. rewrite find_first_S.
  rewrite (R_bind_ret _ _ h k) by now apply validate_ok with ndk.
  rewrite (R_bind_ret _ _ h ndk) by now apply node_at_Some.
  destruct (String.eqb (_element ndk) value); [now eexists|].
  apply IH. intros c Hc. apply Hall. apply elem_of_cons. now right.
Qed.

(** A lookup under a node of a [built] tree always answers. *)
Lemma built_find N0 T rl h n nd value :
  built N0 T rl h -> N0 <= n -> nodes h !! n = Some nd -> _parent nd <> Some n ->
  (find_child_by_value T (VPos T n) value h = Ret (VBool false) /\
   forall c, c ∈ kids_of (_children nd) -> label_at h c <> Some value) \/
  (exists c ndc,
     find_child_by_value T (VPos T n) value h = Ret (VPos T c) /\
     n < c /\ nodes h !! c = Some ndc /\ _parent ndc = Some n).
Proof.
  intros Hb Hle Hn Hp.
  rewrite (find_child_on_position h T n nd value Hn Hp).
  destruct (find_first_total T value (kids_of (_children nd)) h) as [v Hv].
  { intros c Hc. destruct (built_kids _ _ _ _ Hb n nd c Hle Hn Hc) as (Hnc & ndc & Hndc & Hpc).
    exists ndc. split; [exact Hndc|]. rewrite Hpc. intros [= E]. lia. }
  rewrite Hv.
  destruct (find_first_spec T value _ h v Hv)
    as [[-> Hall] | (i & c & ndc & Hi & -> & Hc & He & _)].
  - left. split; [reflexivity|]. intros c Hc.
    destruct (Hall c Hc) as (ndc & Hndc & Hne).
    unfold label_at. rewrite Hndc. simpl. congruence.
  - right. apply list_elem_of_lookup_2 in Hi.
    destruct (built_kids _ _ _ _ Hb n nd c Hle Hn Hi) as (Hnc & ndc' & Hndc' & Hpc).
    exists c, ndc'. now repeat split.
Qed.

Lemma cursor_ok_agree N0 T h h' cursor :
  agree h h' -> cursor_ok N0 T h cursor -> cursor_ok N0 T h' cursor.
Proof.
  intros Hag [-> | [-> | [-> | (c & ndc & -> & Hc & Hndc & Hpc)]]];
    unfold cursor_ok; auto.
  destruct (Hag c ndc Hndc) as (ndc' & Hndc' & _ & Hpc').
  right. right. right. exists c, ndc'. repeat split; congruence.
Qed.

(** The node behind a cursor that is a position. *)
Lemma cursor_node N0 T rl h cursor :
  built N0 T rl h -> cursor_ok N0 T h cursor ->
  cursor = VNone \/ cursor = VBool false \/
  exists n nd, cursor = VPos T n /\ N0 <= n /\ nodes h !! n = Some nd /\
               _parent nd <> Some n /\ (n = N0 \/ _parent nd = Some N0).
Proof.
  intros Hb [-> | [-> | [-> | (c & ndc & -> & Hc & Hndc & Hpc)]]]; auto.
  - right. right. destruct (built_root _ _ _ _ Hb) as (rnd & Hrn & Hrp & _).
    exists N0, rnd. repeat split; auto. now rewrite Hrp.
  - right. right. exists c, ndc. repeat split; auto; try lia.
    rewrite Hpc. intros [= E]. lia.
Qed.

Lemma fill_label_step N0 T rl h cursor node :
  built N0 T rl h -> cursor_ok N0 T h cursor -> no_comma node = true ->
  fill_result N0 T rl (fill_label T cursor node h).
Proof.
  intros Hb Hcur Hcomma.
  destruct (built_root _ _ _ _ Hb) as (rnd & Hrn & Hrp & Hre).
  assert (Hrvalid : _parent rnd <> Some N0) by now rewrite Hrp.
  assert (Hroot : root T h = Ret (VPos T N0))
    by now rewrite (root_lookup h T _ (built_tree _ _ _ _ Hb)).
  unfold fill_label.
  rewrite (readM_ret _ _ h _ Hroot).
  rewrite (readM_ret _ _ h N0) by now apply validate_ok with rnd.
  rewrite (readM_ret _ _ h _ (node_at_Some h N0 rnd Hrn)).
  set (e := PyStr.strip node).
  destruct (String.eqb_spec (_element rnd) e) as [Heq | Hne].
  { unfold readM. rewrite Hroot. split; [exact Hb|]. right.
    exists (VPos T N0). split; [reflexivity|]. unfold cursor_ok. auto. }
  destruct (cursor_node N0 T rl h cursor Hb Hcur)
    as [-> | [-> | (n & nd & -> & Hle & Hn & Hp & Hplace)]].
  1-2: rewrite (readM_raise _ _ h not_a_position) by reflexivity;
       split; [exact Hb | now left].
  destruct (built_find N0 T rl h n nd e Hb Hle Hn Hp)
    as [[Hfind Hfresh] | (c & ndc & Hfind & Hnc & Hndc & Hpc)];
    rewrite (readM_ret _ _ h _ Hfind); cbn [is_False].
  - (* the label is new under the cursor *)
    pose proof (ensure_list_node h n nd Hn) as Hna.
    pose proof (built_ensure_list N0 T rl h n nd Hn Hb) as Hba.
    set (ha := ensure_list h n nd) in *.
    set (nda := mk_Node (_element nd) (_parent nd) (Some (kids_of (_children nd)))) in *.
    assert (Hfinda : find_first T e (map (fun c => VPos T c) (kids_of (_children nd))) ha
                     = Ret (VBool false)).
    { apply find_first_agree with h; [now apply ensure_list_agree|].
      now rewrite <- (find_child_on_position h T n nd e Hn Hp). }
    pose proof (built_tree _ _ _ _ Hba) as Hta.
    assert (Hadd : _add_nonroot_node T (VPos T n) e h =
                   (Ret (VPos T (length (nodes ha))),
                    grown ha T (mk_Tree (Some N0) (length (nodes ha) - N0)) n nda e)).
    { rewrite (add_nonroot_run T n nd e h Hn Hp). cbv zeta. fold ha.
      rewrite Hfinda. cbn [truthy]. now rewrite Hta. }
    unfold add_node. unfold mbind at 1, M_bind at 1. unfold mbind at 1, M_bind at 1.
    rewrite Hadd. cbn [mret M_ret].
    split; cbn [fst snd].
    + apply (built_grown N0 T rl ha _ n nda e Hba Hna Hle Hplace Hta).
      * congruence.
      * unfold e. now apply strip_no_comma.
      * apply strip_stripped.
      * intros c Hc.
        destruct (find_first_spec T e _ ha _ Hfinda)
          as [[_ Hall] | (i & c' & ndc' & _ & [=] & _)].
        destruct (Hall c Hc) as (ndc & Hndc & Hnee).
        unfold label_at. rewrite Hndc. simpl. congruence.
    + right. exists (VPos T n). split; [reflexivity|].
      apply cursor_ok_agree with h.
      * apply agree_trans with ha; [now apply ensure_list_agree | now apply grown_agree].
      * exact Hcur.
  - (* the label is there: the cursor comes from a lookup under the root *)
    rewrite (readM_ret _ _ h _ Hroot). unfold readM.
    destruct (built_find N0 T rl h N0 rnd e Hb ltac:(lia) Hrn Hrvalid)
      as [[Hfind' _] | (c' & ndc' & Hfind' & Hnc' & Hndc' & Hpc')];
      rewrite Hfind'; (split; [exact Hb|]); right; eexists; (split; [reflexivity|]).
    + unfold cursor_ok. auto.
    + right. right. right. exists c', ndc'. now repeat split.
Qed.

Lemma fill_result_bind N0 T rl (c : M pyobj) (k : pyobj -> M pyobj) h :
  fill_result N0 T rl (c h) ->
  (forall cursor h', built N0 T rl h' -> cursor_ok N0 T h' cursor ->
                     fill_result N0 T rl (k cursor h')) ->
  fill_result N0 T rl ((c ≫= k) h).
Proof.
  intros [Hb Hout] Hk. unfold mbind, M_bind.
  destruct (c h) as [o h']. simpl in *.
  destruct Hout as [-> | (cursor & -> & Hcur)].
  - split; [exact Hb | now left].
  - now apply Hk.
Qed.

Lemma fill_labels_step N0 T rl ns :
  forall h cursor,
    built N0 T rl h -> cursor_ok N0 T h cursor ->
    Forall (fun node => no_comma node = true) ns ->
    fill_result N0 T rl (fill_labels T cursor ns h).
Proof.
  induction ns as [|node ns IH]; intros h cursor Hb Hcur Hns; simpl.
  - split; [exact Hb|]. right. now exists cursor.
  - apply Forall_cons in Hns as [Hnode Hns].
    apply fill_result_bind; [now apply fill_label_step|].
    intros cursor' h' Hb' Hcur'. now apply IH.
Qed.

Lemma fill_line_step N0 T rl h cursor line :
  built N0 T rl h -> cursor_ok N0 T h cursor ->
  fill_result N0 T rl (fill_line T cursor line h).
Proof.
  intros Hb Hcur. unfold fill_line.
  destruct (built_root _ _ _ _ Hb) as (rnd & Hrn & _).
  assert (Hlt : N0 < length (nodes h)) by (eapply lookup_lt_Some; eassumption).
  rewrite (readM_ret _ _ h false).
  - apply fill_labels_step; [exact Hb | exact Hcur | apply split_no_comma].
  - rewrite (is_empty_lookup h T _ (built_tree _ _ _ _ Hb)). simpl.
    destruct (length (nodes h) - N0) eqn:E; [lia | reflexivity].
Qed.

Lemma fill_lines_step N0 T rl ls :
  forall h cursor,
    built N0 T rl h -> cursor_ok N0 T h cursor ->
    fill_result N0 T rl (fill_lines T cursor ls h).
Proof.
  induction ls as [|line ls IH]; intros h cursor Hb Hcur; simpl.
  - split; [exact Hb|]. right. now exists cursor.
  - apply fill_result_bind; [now apply fill_line_step|].
    intros cursor' h' Hb' Hcur'. now apply IH.
Qed.

(** A run of [fill_tree] on at least one line ends with the type error of
    [_validate] or returns the tree and the cursor; either way the tree is
    [built] from the stripped first line. *)
Lemma fill_tree_built h0 line rest :
  built (length (nodes h0)) (length (trees h0)) (PyStr.strip line)
    (snd (fill_tree (line :: rest) h0)) /\
  (fst (fill_tree (line :: rest) h0) = Raise not_a_position \/
   exists cursor,
     fst (fill_tree (line :: rest) h0) = Ret (length (trees h0), cursor) /\
     cursor_ok (length (nodes h0)) (length (trees h0))
       (snd (fill_tree (line :: rest) h0)) cursor).
Proof.
  rewrite fill_tree_first_line.
  destruct (fill_lines_step (length (nodes h0)) (length (trees h0)) (PyStr.strip line)
              rest (after_first_line h0 line) VNone)
    as [Hb Hout].
  - apply built_first_line.
  - unfold cursor_ok. auto.
  - unfold mbind, M_bind.
    destruct (fill_lines _ _ _ _) as [o h']. simpl in *.
    destruct Hout as [-> | (cursor & -> & Hcur)]; simpl.
    + split; [exact Hb | now left].
    + split; [exact Hb|]. right. now exists cursor.
Qed.

(** The nodes of a [built] tree are linked to its root, two levels down at
    most. *)
Lemma built_linked N0 T rl h n nd :
  built N0 T rl h -> N0 <= n -> nodes h !! n = Some nd ->
  exists d, d <= 2 /\ linked h T n d.
Proof.
  intros Hb Hle Hn.
  destruct (built_root _ _ _ _ Hb) as (rnd & Hrn & Hrp & _).
  pose proof (built_tree _ _ _ _ Hb) as Ht.
  set (t := mk_Tree (Some N0) (length (nodes h) - N0)) in *.
  assert (Hl0 : linked h T N0 0) by now apply linked_root with t rnd.
  destruct (decide (n = N0)) as [->|Hne]; [exists 0; split; [lia | exact Hl0]|].
  destruct (built_depth _ _ _ _ Hb n nd ltac:(lia) Hn)
    as [Hp | (m & ndm & Hp & Hm & Hndm & Hpm)].
  - exists 1. split; [lia|].
    apply linked_step with (t := t) (r := N0) (nd := nd) (m := N0);
      try assumption; try reflexivity; lia.
  - exists 2. split; [lia|].
    apply linked_step with (t := t) (r := N0) (nd := nd) (m := m);
      try assumption; try reflexivity; try lia.
    apply linked_step with (t := t) (r := N0) (nd := ndm) (m := N0);
      try assumption; try reflexivity; lia.
Qed.

(** A node two levels below the root has no children. *)
Lemma built_leaf N0 T rl h n nd m :
  built N0 T rl h -> N0 < n -> nodes h !! n = Some nd ->
  _parent nd = Some m -> N0 < m ->
  kids_of (_children nd) = [].
Proof.
  intros Hb Hlt Hn Hp Hm.
  destruct (kids_of (_children nd)) as [|c cs] eqn:Hks; [reflexivity|].
  destruct (built_kids _ _ _ _ Hb n nd c ltac:(lia) Hn) as (Hnc & ndc & Hndc & Hpc).
  { rewrite Hks. apply elem_of_cons. now left. }
  destruct (built_depth _ _ _ _ Hb c ndc ltac:(lia) Hndc)
    as [Hp' | (g & ndg & Hp' & Hg & Hndg & Hpg)].
  - rewrite Hpc in Hp'. injection Hp' as ->. lia.
  - rewrite Hpc in Hp'. injection Hp' as <-.
    assert (ndg = nd) as -> by congruence.
    rewrite Hp in Hpg. injection Hpg as ->. lia.
Qed.

Lemma rose_of_S fuel h n nd :
  nodes h !! n = Some nd ->
  rose_of (S fuel) h n =
    Rose (_element nd) (map (rose_of fuel h) (kids_of (_children nd))).
Proof. intros Hn. simpl. now rewrite Hn. Qed.

Lemma shape_of_kids h n nd (g : addr -> rose) :
  nodes h !! n = Some nd ->
  Forall (fun c => shape h (Some n) c (g c)) (kids_of (_children nd)) ->
  shape h (_parent nd) n (Rose (_element nd) (map g (kids_of (_children nd)))).
Proof.
  intros Hn Hall. destruct nd as [e par ocs]. simpl in *.
  apply shape_node with (ocs := ocs); [exact Hn|].
  apply Forall2_fmap_r. now apply Forall_Forall2_diag.
Qed.

Lemma levels_Rose_bound e ts k :
  Forall (fun t => levels t <= k) ts -> levels (Rose e ts) <= S k.
Proof.
  intros Hall. change (S (foldr Nat.max 0 (map levels ts)) <= S k).
  induction Hall as [|t ts Ht _ IH]; simpl; lia.
Qed.

Lemma sum_sizes (g : addr -> rose) (f : addr -> list addr) cs :
  (forall c, c ∈ cs -> rose_size (g c) = S (length (f c))) ->
  foldr Nat.add 0 (map rose_size (map g cs)) = length cs + length (flat_map f cs).
Proof.
  induction cs as [|c cs IH]; intros Hall; [reflexivity|].
  simpl. rewrite length_app, (Hall c) by (apply elem_of_cons; now left).
  rewrite IH by (intros c' Hc'; apply Hall; apply elem_of_cons; now right).
  lia.
Qed.

(** The shape of a child of the root, and of the root. *)
Lemma built_shape_child N0 T rl h n nd fuel :
  built N0 T rl h -> N0 < n -> nodes h !! n = Some nd -> _parent nd = Some N0 ->
  shape h (Some N0) n (rose_of (S (S fuel)) h n) /\
  levels (rose_of (S (S fuel)) h n) <= 2 /\
  rose_size (rose_of (S (S fuel)) h n) = S (length (kids_at h n)).
Proof.
  intros Hb Hlt Hn Hp.
  assert (Hkid : forall c, c ∈ kids_of (_children nd) ->
            exists ndc, nodes h !! c = Some ndc /\ _parent ndc = Some n /\
                        kids_of (_children ndc) = [] /\
                        rose_of (S fuel) h c = Rose (_element ndc) []).
  { intros c Hc.
    destruct (built_kids _ _ _ _ Hb n nd c ltac:(lia) Hn Hc) as (Hnc & ndc & Hndc & Hpc).
    pose proof (built_leaf N0 T rl h c ndc n Hb ltac:(lia) Hndc Hpc Hlt) as Hleaf.
    exists ndc. repeat split; try assumption.
    rewrite (rose_of_S fuel h c ndc Hndc). now rewrite Hleaf. }
  rewrite (rose_of_S (S fuel) h n nd Hn). unfold kids_at. rewrite Hn.
  split; [|split].
  - rewrite <- Hp. apply shape_of_kids; [exact Hn|].
    apply Forall_forall. intros c Hc.
    destruct (Hkid c Hc) as (ndc & Hndc & Hpc & Hleaf & ->).
    pose proof (shape_of_kids h c ndc (rose_of fuel h) Hndc) as Hs.
    rewrite Hleaf, Hpc in Hs. apply Hs. constructor.
  - apply (levels_Rose_bound _ _ 1). apply Forall_fmap, Forall_forall.
    intros c Hc. destruct (Hkid c Hc) as (ndc & _ & _ & _ & E).
    change (levels (rose_of (S fuel) h c) <= 1). rewrite E. simpl. lia.
  - change (S (foldr Nat.add 0 (map rose_size (map (rose_of (S fuel) h)
               (kids_of (_children nd))))) = S (length (kids_of (_children nd)))).
    rewrite (sum_sizes _ (fun _ => [])).
    + assert (Hnil : forall cs : list addr, flat_map (fun _ => @nil addr) cs = [])
        by (induction cs; [reflexivity | assumption]).
      rewrite Hnil. simpl. f_equal. lia.
    + intros c Hc. destruct (Hkid c Hc) as (ndc & _ & _ & _ & ->). reflexivity.
Qed.

Lemma built_shape_root N0 T rl h fuel :
  built N0 T rl h ->
  shape h None N0 (rose_of (S (S (S fuel))) h N0) /\
  levels (rose_of (S (S (S fuel))) h N0) <= 3 /\
  rose_size (rose_of (S (S (S fuel))) h N0) =
    S (length (kids_at h N0 ++ flat_map (kids_at h) (kids_at h N0))).
Proof.
  intros Hb. destruct (built_root _ _ _ _ Hb) as (rnd & Hrn & Hrp & _).
  assert (Hkid : forall c, c ∈ kids_of (_children rnd) ->
            shape h (Some N0) c (rose_of (S (S fuel)) h c) /\
            levels (rose_of (S (S fuel)) h c) <= 2 /\
            rose_size (rose_of (S (S fuel)) h c) = S (length (kids_at h c))).
  { intros c Hc.
    destruct (built_kids _ _ _ _ Hb N0 rnd c ltac:(lia) Hrn Hc) as (Hnc & ndc & Hndc & Hpc).
    now apply built_shape_child with T rl ndc. }
  rewrite (rose_of_S _ h N0 rnd Hrn). unfold kids_at at 1 3. rewrite Hrn.
  split; [|split].
  - rewrite <- Hrp. apply shape_of_kids; [exact Hrn|].
    apply Forall_forall. intros c Hc. now apply Hkid.
  - apply (levels_Rose_bound _ _ 2). apply Forall_fmap, Forall_forall.
    intros c Hc. change (levels (rose_of (S (S fuel)) h c) <= 2). now apply Hkid.
  - change (S (foldr Nat.add 0 (map rose_size (map (rose_of (S (S fuel)) h)
               (kids_of (_children rnd))))) =
            S (length (kids_of (_children rnd) ++
                       flat_map (kids_at h) (kids_of (_children rnd))))).
    rewrite (sum_sizes _ (kids_at h)) by (intros c Hc; now apply Hkid).
    now rewrite length_app.
Qed.

Lemma elem_of_flat_map {X Y} (f : X -> list Y) l y :
  y ∈ flat_map f l <-> exists x, x ∈ l /\ y ∈ f x.
Proof.
  rewrite list_elem_of_In, in_flat_map. split; intros (x & Hx & Hy); exists x.
  - now rewrite !list_elem_of_In.
  - now rewrite <- !list_elem_of_In.
Qed.

Lemma NoDup_flat_map {X Y} (f : X -> list Y) l :
  NoDup l -> (forall x, x ∈ l -> NoDup (f x)) ->
  (forall x1 x2 y, x1 ∈ l -> x2 ∈ l -> y ∈ f x1 -> y ∈ f x2 -> x1 = x2) ->
  NoDup (flat_map f l).
Proof.
  induction 1 as [|x l Hx Hl IH]; intros Hf Hinj; simpl; [constructor|].
  apply NoDup_app. split; [|split].
  - apply Hf. apply elem_of_cons. now left.
  - intros y Hy Hy'. apply elem_of_flat_map in Hy' as (x' & Hx' & Hy').
    assert (x = x') as <-; [|contradiction].
    apply (Hinj x x' y); try assumption; apply elem_of_cons; auto.
  - apply IH.
    + intros x' Hx'. apply Hf. apply elem_of_cons. now right.
    + intros x1 x2 y H1 H2. apply Hinj; apply elem_of_cons; now right.
Qed.

Lemma kids_at_node h c nd :
  nodes h !! c = Some nd -> kids_at h c = kids_of (_children nd).
Proof. intros Hc. unfold kids_at. now rewrite Hc. Qed.

(** The child lists of the root and of its children list every other node
    of the tree exactly once: the size counts the nodes that can be
    reached. *)
Lemma built_count N0 T rl h :
  built N0 T rl h ->
  S (length (kids_at h N0 ++ flat_map (kids_at h) (kids_at h N0))) =
    length (nodes h) - N0.
Proof.
  intros Hb. destruct (built_root _ _ _ _ Hb) as (rnd & Hrn & Hrp & _).
  assert (Hlt : N0 < length (nodes h)) by (eapply lookup_lt_Some; eassumption).
  assert (F1 : forall c, c ∈ kids_at h N0 ->
            N0 < c /\ exists ndc, nodes h !! c = Some ndc /\ _parent ndc = Some N0).
  { intros c Hc. rewrite (kids_at_node h N0 rnd Hrn) in Hc.
    now apply (built_kids _ _ _ _ Hb N0 rnd c). }
  assert (F2 : forall c x, c ∈ kids_at h N0 -> x ∈ kids_at h c ->
            N0 < c /\ c < x /\ exists ndx, nodes h !! x = Some ndx /\ _parent ndx = Some c).
  { intros c x Hc Hx. destruct (F1 c Hc) as (Hc0 & ndc & Hndc & _).
    rewrite (kids_at_node h c ndc Hndc) in Hx.
    destruct (built_kids _ _ _ _ Hb c ndc x ltac:(lia) Hndc Hx) as (Hcx & Hex).
    now repeat split. }
  assert (Hnodup : forall c nd, N0 <= c -> nodes h !! c = Some nd -> NoDup (kids_at h c)).
  { intros c nd Hc Hnd. rewrite (kids_at_node h c nd Hnd).
    apply (NoDup_fmap_1 (label_at h)). now apply (built_siblings _ _ _ _ Hb c nd). }
  assert (Hperm : kids_at h N0 ++ flat_map (kids_at h) (kids_at h N0) ≡ₚ
                  seq (S N0) (length (nodes h) - N0 - 1)).
  { apply NoDup_Permutation.
    - apply NoDup_app. split; [now apply (Hnodup N0 rnd)|]. split.
      + intros x Hx Hx'. apply elem_of_flat_map in Hx' as (c & Hc & Hxc).
        destruct (F1 x Hx) as (_ & ndx & Hndx & Hpx).
        destruct (F2 c x Hc Hxc) as (Hc0 & _ & ndx' & Hndx' & Hpx').
        assert (ndx' = ndx) as -> by congruence.
        rewrite Hpx in Hpx'. injection Hpx' as <-. lia.
      + apply NoDup_flat_map.
        * now apply (Hnodup N0 rnd).
        * intros c Hc. destruct (F1 c Hc) as (Hc0 & ndc & Hndc & _).
          apply (Hnodup c ndc); [lia | exact Hndc].
        * intros c1 c2 x Hc1 Hc2 Hx1 Hx2.
          destruct (F2 c1 x Hc1 Hx1) as (_ & _ & ndx & Hndx & Hpx).
          destruct (F2 c2 x Hc2 Hx2) as (_ & _ & ndx' & Hndx' & Hpx').
          congruence.
    - apply NoDup_seq.
    - intros x. rewrite elem_of_seq, elem_of_app, elem_of_flat_map. split.
      + intros [Hx | (c & Hc & Hx)].
        * destruct (F1 x Hx) as (Hx0 & ndx & Hndx & _).
          apply lookup_lt_Some in Hndx. lia.
        * destruct (F2 c x Hc Hx) as (Hc0 & Hcx & ndx & Hndx & _).
          apply lookup_lt_Some in Hndx. lia.
      + intros Hx. assert (Hxlt : x < length (nodes h)) by lia.
        apply lookup_lt_is_Some in Hxlt as [ndx Hndx].
        destruct (built_cover _ _ _ _ Hb x ndx ltac:(lia) Hndx) as (m & ndm & Hp & Hndm & Hin).
        destruct (built_depth _ _ _ _ Hb x ndx ltac:(lia) Hndx)
          as [Hp' | (g & ndg & Hp' & Hg & Hndg & Hpg)].
        * left. rewrite Hp in Hp'. injection Hp' as ->.
          now rewrite (kids_at_node h N0 ndm Hndm).
        * right. rewrite Hp in Hp'. injection Hp' as ->.
          assert (ndg = ndm) as -> by congruence.
          exists g. split; [|now rewrite (kids_at_node h g ndm Hndm)].
          destruct (built_cover _ _ _ _ Hb g ndm ltac:(lia) Hndm) as (r & ndr & Hpr & Hndr & Hinr).
          rewrite Hpg in Hpr. injection Hpr as <-.
          now rewrite (kids_at_node h N0 ndr Hndr). }
  rewrite Hperm, length_seq. lia.
Qed.

(** X12.  [fill_tree] never stops on the root-exists error or on any other
    error than the type error that [_validate] raises for an argument that
    is no position.  When it returns, its cursor is [None], [False] or a
    position of the new tree. *)
Theorem fill_tree_errors :
  forall lines h0,
    (fst (fill_tree lines h0) = Raise not_a_position \/
     exists cursor,
       fst (fill_tree lines h0) = Ret (length (trees h0), cursor) /\
       (cursor = VNone \/ cursor = VBool false \/
        exists c, cursor = VPos (length (trees h0)) c)) /\
    fst (fill_tree lines h0) <> Raise root_exists.
Proof.
  intros lines h0.
  assert (Hout : fst (fill_tree lines h0) = Raise not_a_position \/
                 exists cursor,
                   fst (fill_tree lines h0) = Ret (length (trees h0), cursor) /\
                   (cursor = VNone \/ cursor = VBool false \/
                    exists c, cursor = VPos (length (trees h0)) c)).
  { destruct lines as [|line rest].
    - right. exists VNone. split; [reflexivity | now left].
    - destruct (fill_tree_built h0 line rest) as [_ [Hraise | (cursor & Hret & Hcur)]];
        [now left|].
      right. exists cursor. split; [exact Hret|].
      destruct Hcur as [-> | [-> | [-> | (c & ndc & -> & _)]]]; eauto. }
  split; [exact Hout|].
  destruct Hout as [-> | (cursor & -> & _)]; discriminate.
Qed.

(** The lines ['\xa0A\x85\n'], ['A,\xa0B\n'] and ['A,B\n'] give the root A
    with the one child B: the second and the third line name the same
    child. *)
Lemma fill_tree_nbsp :
  snd (fill_tree [NBSP +:+ "A" +:+ NEL +:+ LF;
                  "A," +:+ NBSP +:+ "B" +:+ LF;
                  "A,B" +:+ LF] empty_heap) = heap_AB.
Proof. reflexivity. Qed.

(** X13.  After [fill_tree] has read at least one line, whether it returned
    or raised, the root of its tree is the first node it created, without
    parent and labelled with the first line stripped of the white space
    around it (the line holds the label between two runs of white space, and
    the label has none at either end), and the size of the tree is the
    number of nodes that the run created. *)
Theorem fill_tree_size_root :
  forall h0 line rest,
    __len__ (length (trees h0)) (snd (fill_tree (line :: rest) h0)) =
      Ret (length (nodes (snd (fill_tree (line :: rest) h0))) - length (nodes h0)) /\
    length (nodes h0) < length (nodes (snd (fill_tree (line :: rest) h0))) /\
    root (length (trees h0)) (snd (fill_tree (line :: rest) h0)) =
      Ret (VPos (length (trees h0)) (length (nodes h0))) /\
    nodes (snd (fill_tree (line :: rest) h0)) !! length (nodes h0)
      ≫= (fun nd => Some (_element nd, _parent nd)) =
      Some (PyStr.strip line, None) /\
    exists label,
      strips_to line label /\
      nodes (snd (fill_tree (line :: rest) h0)) !! length (nodes h0)
        ≫= (fun nd => Some (_element nd, _parent nd)) =
        Some (label, None).
Proof.
  intros h0 line rest.
  destruct (fill_tree_built h0 line rest) as [Hb _].
  set (h' := snd (fill_tree (line :: rest) h0)) in *.
  destruct (built_root _ _ _ _ Hb) as (rnd & Hrn & Hrp & Hre).
  pose proof (built_tree _ _ _ _ Hb) as Ht.
  assert (Hlabel : nodes h' !! length (nodes h0)
                     ≫= (fun nd => Some (_element nd, _parent nd)) =
                   Some (PyStr.strip line, None)).
  { rewrite Hrn. simpl. now rewrite Hrp, Hre. }
  split; [|split; [|split; [|split]]].
  - unfold __len__. now rewrite (R_bind_ret _ _ h' _ (tree_at_Some h' _ _ Ht)).
  - eapply lookup_lt_Some; eassumption.
  - now rewrite (root_lookup h' _ _ Ht).
  - exact Hlabel.
  - exists (PyStr.strip line). split; [apply strip_strips_to | exact Hlabel].
Qed.

(** X14.  No node that [fill_tree] creates lies deeper than two levels
    below the root: each is linked to the root by at most two parent slots
    and [depth] answers 0, 1 or 2 for it. *)
Theorem fill_tree_depth :
  forall h0 line rest n nd,
    length (nodes h0) <= n ->
    nodes (snd (fill_tree (line :: rest) h0)) !! n = Some nd ->
    exists d,
      d <= 2 /\
      linked (snd (fill_tree (line :: rest) h0)) (length (trees h0)) n d /\
      depth 3 (length (trees h0)) (VPos (length (trees h0)) n)
        (snd (fill_tree (line :: rest) h0)) = Ret d.
Proof.
  intros h0 line rest n nd Hle Hn.
  destruct (fill_tree_built h0 line rest) as [Hb _].
  destruct (built_linked _ _ _ _ n nd Hb Hle Hn) as (d & Hd & Hl).
  exists d. split; [exact Hd|]. split; [exact Hl|].
  apply depth_linked; [exact Hl | lia].
Qed.

Lemma fill_tree_depth_witness :
  exists d,
    d <= 2 /\
    linked (snd (fill_tree ["A" +:+ LF; "A,B" +:+ LF; "A,B,C" +:+ LF; "A,B,C,D" +:+ LF]
                   empty_heap)) 0 2 d /\
    depth 3 0 (VPos 0 2)
      (snd (fill_tree ["A" +:+ LF; "A,B" +:+ LF; "A,B,C" +:+ LF; "A,B,C,D" +:+ LF]
              empty_heap)) = Ret d.
Proof.
  apply (fill_tree_depth empty_heap ("A" +:+ LF)
           ["A,B" +:+ LF; "A,B,C" +:+ LF; "A,B,C,D" +:+ LF] 2 (mk_Node "C" (Some 1) None)).
  - simpl. lia.
  - reflexivity.
Defined.

(** X15.  In the tree that [fill_tree] leaves, the children of a node carry
    pairwise different labels, and every label below the root differs from
    the label of the root (the first line without the white space around
    it), holds no comma, and neither starts nor ends with a white-space
    character, so that [strip] returns it as it is. *)
Theorem fill_tree_labels :
  forall h0 line rest n nd,
    length (nodes h0) <= n ->
    nodes (snd (fill_tree (line :: rest) h0)) !! n = Some nd ->
    NoDup (map (label_at (snd (fill_tree (line :: rest) h0)))
             (kids_of (_children nd))) /\
    (length (nodes h0) < n ->
       ~ strips_to line (_element nd) /\
       _element nd <> PyStr.strip line /\
       no_comma (_element nd) = true /\
       trimmed (_element nd) /\
       PyStr.strip (_element nd) = _element nd).
Proof.
  intros h0 line rest n nd Hle Hn.
  destruct (fill_tree_built h0 line rest) as [Hb _].
  split; [now apply (built_siblings _ _ _ _ Hb n nd)|].
  intros Hlt.
  destruct (built_labels _ _ _ _ Hb n nd Hlt Hn) as (Hne & Hcomma & Hl & Hr).
  split; [|split; [|split; [|split]]].
  - intros Hs. apply Hne. now apply strips_to_strip.
  - exact Hne.
  - exact Hcomma.
  - apply stripped_trimmed. now split.
  - unfold PyStr.strip. now rewrite Hl, Hr.
Qed.

Lemma fill_tree_labels_witness :
  NoDup (map (label_at (snd (fill_tree [NBSP +:+ "A" +:+ NEL +:+ LF;
                                        "A," +:+ NBSP +:+ "B ,C" +:+ LF;
                                        "A,C," +:+ NEL +:+ "B" +:+ LF]
                               empty_heap)))
           [1; 2]) /\
  (~ strips_to (NBSP +:+ "A" +:+ NEL +:+ LF) "B" /\
   "B" <> PyStr.strip (NBSP +:+ "A" +:+ NEL +:+ LF) /\
   no_comma "B" = true /\
   trimmed "B" /\
   PyStr.strip "B" = "B").
Proof.
  split.
  - apply (proj1 (fill_tree_labels empty_heap (NBSP +:+ "A" +:+ NEL +:+ LF)
                    ["A," +:+ NBSP +:+ "B ,C" +:+ LF; "A,C," +:+ NEL +:+ "B" +:+ LF]
                    0 (mk_Node "A" None (Some [1; 2])) (le_n 0) eq_refl)).
  - apply (proj2 (fill_tree_labels empty_heap (NBSP +:+ "A" +:+ NEL +:+ LF)
                    ["A," +:+ NBSP +:+ "B ,C" +:+ LF; "A,C," +:+ NEL +:+ "B" +:+ LF]
                    3 (mk_Node "B" (Some 2) None) (Nat.le_0_l 3) eq_refl)
             (Nat.lt_0_succ 2)).
Defined.

(** X16.  After [fill_tree] has read at least one line, [print_tree] ends
    normally with three levels of recursion or more: the tree has the shape
    read off its child lists, of three levels at most, and each of the two
    files receives exactly as many lines as the size of the tree says. *)
Theorem fill_then_print :
  forall h0 line rest fs fuel,
    shape (snd (fill_tree (line :: rest) h0)) None (length (nodes h0))
      (rose_of 3 (snd (fill_tree (line :: rest) h0)) (length (nodes h0))) /\
    print_tree (3 + fuel) (length (trees h0)) fs (snd (fill_tree (line :: rest) h0)) =
      (Ret tt,
       mk_files
         (Some (pre_lines 0
                  (rose_of 3 (snd (fill_tree (line :: rest) h0)) (length (nodes h0)))))
         (Some (post_lines 0
                  (rose_of 3 (snd (fill_tree (line :: rest) h0)) (length (nodes h0)))))) /\
    __len__ (length (trees h0)) (snd (fill_tree (line :: rest) h0)) =
      Ret (length (pre_lines 0
             (rose_of 3 (snd (fill_tree (line :: rest) h0)) (length (nodes h0))))) /\
    __len__ (length (trees h0)) (snd (fill_tree (line :: rest) h0)) =
      Ret (length (post_lines 0
             (rose_of 3 (snd (fill_tree (line :: rest) h0)) (length (nodes h0))))).
Proof.
  intros h0 line rest fs fuel.
  destruct (fill_tree_built h0 line rest) as [Hb _].
  set (h' := snd (fill_tree (line :: rest) h0)) in *.
  destruct (built_shape_root _ _ _ h' 0 Hb) as (Hs & Hlev & Hsize).
  pose proof (built_tree _ _ _ _ Hb) as Ht.
  pose proof (built_count _ _ _ h' Hb) as Hcount.
  set (t := rose_of 3 h' (length (nodes h0))) in *.
  assert (Hlen : __len__ (length (trees h0)) h' = Ret (rose_size t)).
  { unfold __len__. rewrite (R_bind_ret _ _ h' _ (tree_at_Some h' _ _ Ht)).
    simpl. unfold mret, R_ret. f_equal. lia. }
  split; [exact Hs|]. split; [|split].
  - apply print_tree_run with (tr := mk_Tree (Some (length (nodes h0)))
                                      (length (nodes h') - length (nodes h0)))
                              (r := length (nodes h0));
      [exact Ht | reflexivity | exact Hs | lia].
  - now rewrite pre_lines_length.
  - now rewrite post_lines_length.
Qed.

(** X17.  When a label is not the label of the root and the lookup under
    the cursor answers [False], [fill_label] appends a child with that label
    under the cursor, as its last child, and counts it; the cursor stays
    where it was and does not descend into the new child, so the next label
    of the line is looked up beside it. *)
Theorem fill_label_adds_under_cursor :
  forall tree cursor node h t r rnd,
    trees h !! tree = Some t -> _root t = Some r ->
    nodes h !! r = Some rnd -> _parent rnd <> Some r ->
    _element rnd <> PyStr.strip node ->
    find_child_by_value tree cursor (PyStr.strip node) h = Ret (VBool false) ->
    exists h1 c cs,
      fill_label tree cursor node h = (Ret cursor, h1) /\
      find_child_by_value tree cursor (PyStr.strip node) h1 = Ret (VPos tree c) /\
      parent tree (VPos tree c) h1 = Ret cursor /\
      children tree cursor h = Ret cs /\
      children tree cursor h1 = Ret (cs ++ [VPos tree c]) /\
      __len__ tree h1 = Ret (_size t + 1).
Proof.
  intros tree cursor node h t r rnd Ht Hr Hrn Hrp Hne Hfind.
  rewrite (fill_label_branches tree cursor node h t r rnd (VBool false)
             Ht Hr Hrn Hrp Hne Hfind).
  cbn [is_False].
  assert (exists cs, children tree cursor h = Ret cs) as [cs Hch].
  { unfold find_child_by_value, mbind, R_bind in Hfind.
    destruct (children tree cursor h); try discriminate. eauto. }
  destruct (children_Ret h tree cursor cs Hch) as (n & nd & -> & Hn & Hp & ->).
  assert (Hfinda : find_first tree (PyStr.strip node)
                     (map (fun c => VPos tree c) (kids_of (_children nd)))
                     (ensure_list h n nd) = Ret (VBool false)).
  { apply find_first_agree with h; [now apply ensure_list_agree|].
    now rewrite <- (find_child_on_position h tree n nd _ Hn Hp). }
  destruct (grown_effect h tree t n nd (PyStr.strip node) Hn Hp Ht Hfinda)
    as (_ & Hafter & Hpar & _ & Hlen' & _ & Hch').
  eexists _, (length (nodes h)), _. split; [|repeat split; eassumption].
  unfold add_node. unfold mbind at 1, M_bind at 1. unfold mbind at 1, M_bind at 1.
  rewrite (add_nonroot_run tree n nd (PyStr.strip node) h Hn Hp). cbv zeta.
  rewrite Hfinda. cbn [truthy]. rewrite ensure_list_trees, Ht.
  reflexivity.
Qed.

Lemma fill_label_adds_under_cursor_witness :
  exists h1 c cs,
    fill_label 0 (VPos 0 0) " C " heap_AB = (Ret (VPos 0 0), h1) /\
    find_child_by_value 0 (VPos 0 0) (PyStr.strip " C ") h1 = Ret (VPos 0 c) /\
    parent 0 (VPos 0 c) h1 = Ret (VPos 0 0) /\
    children 0 (VPos 0 0) heap_AB = Ret cs /\
    children 0 (VPos 0 0) h1 = Ret (cs ++ [VPos 0 c]) /\
    __len__ 0 h1 = Ret (_size (mk_Tree (Some 0) 2) + 1).
Proof.
  apply (fill_label_adds_under_cursor 0 (VPos 0 0) " C " heap_AB
           (mk_Tree (Some 0) 2) 0 (mk_Node "A" None (Some [1]))).
  - reflexivity.
  - reflexivity.
  - reflexivity.
  - discriminate.
  - discriminate.
  - reflexivity.
Defined.

End FillInvariant.
